(** * The 8-puzzle search engine of [server.js]

    A shallow embedding of the state class [PuzzleState], the two heuristics,
    the three search drivers ([bfs], [bestFirstSearch], [aStar]) and
    [reconstructPath], followed by the properties the specification states
    about them. *)

From stdpp Require Import gmap strings list pretty sorting.
From Stdlib Require Import ZArith Lia Btauto Ascii.
From Stdlib Require Import Relation_Operators Lexicographic_Product.

Local Open Scope Z_scope.
Set Warnings "-register-all,-clear-no-such-hyp".

(** ** Data model *)

(** A board is the JS array of rows; a tile is a JS number holding an
    integer. *)
Abbreviation Board := (list (list Z)).

(** A move is the two-element array [[dx, dy]]. *)
Abbreviation Move := (Z * Z)%type.

(** [class PuzzleState]: [parent] and [move] are [null] ([None]) at the
    root. *)
Inductive PuzzleState := mkState {
  board : Board;
  parent : option PuzzleState;
  move : option Move;
  g : Z;
  h : Z;
  f : Z
}.

(** [constructor(board, parent = null, move = null)]. *)
Definition new_PuzzleState (b : Board) (p : option PuzzleState)
    (m : option Move) : PuzzleState :=
  {| board := b; parent := p; move := m;
     g := match p with Some q => g q + 1 | None => 0 end;
     h := 0; f := 0 |}.

(** The assignments [neighbor.h = ...] and [neighbor.f = ...]; the object is
    fresh and referenced by nothing else when they run. *)
Definition set_h (s : PuzzleState) (v : Z) : PuzzleState :=
  {| board := board s; parent := parent s; move := move s;
     g := g s; h := v; f := f s |}.

Definition set_f (s : PuzzleState) (v : Z) : PuzzleState :=
  {| board := board s; parent := parent s; move := move s;
     g := g s; h := h s; f := v |}.

(** [board.flat()] and [join(',')]; [pretty] prints an integer in decimal
    with a leading minus sign, as [String(n)] does. *)
Definition flat (b : Board) : list Z := concat b.

Definition join (sep : string) (l : list Z) : string :=
  String.concat sep (pretty <$> l).

Definition getId (s : PuzzleState) : string := join "," (flat (board s)).

Definition isGoal (s : PuzzleState) : bool :=
  bool_decide (getId s = "1,2,3,4,5,6,7,8,0").

(** [board[i][j]] for in-range indices.  [None] stands for what the source
    gets outside the 3x3 shape: a [TypeError] when the row is missing,
    [undefined] when only the cell is. *)
Definition index (i : Z) : option nat :=
  if 0 <=? i then Some (Z.to_nat i) else None.

Definition cell (b : Board) (i j : Z) : option Z :=
  ni ← index i; nj ← index j; row ← b !! ni; row !! nj.

(** [newBoard[i][j] = v] on an existing cell. *)
Definition setCell (b : Board) (i j : Z) (v : Z) : Board :=
  match index i, index j with
  | Some ni, Some nj =>
      match b !! ni with
      | Some row => <[ni := <[nj := v]> row]> b
      | None => b
      end
  | _, _ => b
  end.

(** [findZero]: the two nested loops over [i, j < 3].  A missing row raises
    a [TypeError]; when no cell holds 0 the function returns [undefined],
    and the destructuring in [getNeighbors] raises: both are [None]. *)
Fixpoint findZero_row (row : list Z) (i : Z) (js : list Z) : option (Z * Z) :=
  match js with
  | [] => None
  | j :: js' =>
      if decide (index j ≫= (row !!.) = Some 0) then Some (i, j)
      else findZero_row row i js'
  end.

Fixpoint findZero_rows (b : Board) (rows : list Z) : option (Z * Z) :=
  match rows with
  | [] => None
  | i :: rows' =>
      match index i ≫= (b !!.) with
      | None => None
      | Some row =>
          match findZero_row row i [0; 1; 2] with
          | Some r => Some r
          | None => findZero_rows b rows'
          end
      end
  end.

Definition findZero (s : PuzzleState) : option (Z * Z) :=
  findZero_rows (board s) [0; 1; 2].

Definition moves : list Move := [(0, 1); (1, 0); (0, -1); (-1, 0)].

Definition inBounds (x y : Z) : bool :=
  (0 <=? x) && (x <? 3) && (0 <=? y) && (y <? 3).

(** The destructuring swap: both cells are read first, then written. *)
Definition swapCells (b : Board) (x y newX newY : Z) : option Board :=
  a ← cell b newX newY;
  c ← cell b x y;
  Some (setCell (setCell b x y a) newX newY c).

(** The body of [for (const [dx, dy] of moves)]. *)
Fixpoint getNeighbors_loop (s : PuzzleState) (x y : Z) (ms : list Move)
    (neighbors : list PuzzleState) : option (list PuzzleState) :=
  match ms with
  | [] => Some neighbors
  | (dx, dy) :: ms' =>
      let newX := x + dx in
      let newY := y + dy in
      if inBounds newX newY then
        newBoard ← swapCells (board s) x y newX newY;
        getNeighbors_loop s x y ms'
          (neighbors ++ [new_PuzzleState newBoard (Some s) (Some (dx, dy))])
      else getNeighbors_loop s x y ms' neighbors
  end.

Definition getNeighbors (s : PuzzleState) : option (list PuzzleState) :=
  '(x, y) ← findZero s;
  getNeighbors_loop s x y moves [].

(** ** Heuristics *)

(** A heuristic returns a number; [None] stands for a run that leaves the
    integers (a missing cell makes the source compute with [undefined]). *)
Definition Heuristic := PuzzleState → option Z.

Definition hammingDistance : Heuristic := λ state,
  Some (Z.of_nat (length
    (filter (λ p : nat * Z, p.2 ≠ 0 ∧ p.2 ≠ Z.of_nat p.1 + 1)
            (imap pair (flat (board state)))))).

(** [x | 0]: conversion to a signed 32-bit integer. *)
Definition toInt32 (z : Z) : Z := (z + 2 ^ 31) `mod` 2 ^ 32 - 2 ^ 31.

(** [(tile - 1) / 3 | 0] truncates towards zero; [%] takes the sign of the
    dividend. *)
Definition goalX (tile : Z) : Z := toInt32 ((tile - 1) `quot` 3).
Definition goalY (tile : Z) : Z := (tile - 1) `rem` 3.

Fixpoint manhattan_row (b : Board) (i : Z) (js : list Z) (distance : Z)
    : option Z :=
  match js with
  | [] => Some distance
  | j :: js' =>
      tile ← cell b i j;
      if decide (tile ≠ 0) then
        manhattan_row b i js'
          (distance + (Z.abs (goalX tile - i) + Z.abs (goalY tile - j)))
      else manhattan_row b i js' distance
  end.

Fixpoint manhattan_rows (b : Board) (rows : list Z) (distance : Z) : option Z :=
  match rows with
  | [] => Some distance
  | i :: rows' =>
      d ← manhattan_row b i [0; 1; 2] distance;
      manhattan_rows b rows' d
  end.

Definition manhattanDistance : Heuristic := λ state,
  manhattan_rows (board state) [0; 1; 2] 0.

(** ** Path reconstruction *)

(** [reconstructPath]: [unshift] prepends, so the root's edge comes first. *)
Fixpoint reconstructPath (state : PuzzleState) : list (option Move) :=
  match state with
  | mkState _ (Some p) m _ _ _ => reconstructPath p ++ [m]
  | mkState _ None _ _ _ _ => []
  end.

(** ** Search drivers *)

(** What a driver returns: the move array, [null], or a run that leaves the
    modelled fragment (a [TypeError], or a heuristic value that is not an
    integer). *)
Inductive Outcome :=
  | Found (path : list (option Move))
  | NotFound
  | Fault.

(** The two local variables [frontier] and [explored] of a driver. *)
Record Config := mkConfig {
  frontier : list PuzzleState;
  explored : gset string
}.

(** The [while (frontier.length > 0)] loop: [iteration] is one pass through
    its body, which either returns or leaves a new configuration. *)
Fixpoint run (iteration : Config → Outcome + Config) (fuel : nat)
    (c : Config) : option Outcome :=
  match fuel with
  | O => None
  | S fuel' =>
      match iteration c with
      | inl o => Some o
      | inr c' => run iteration fuel' c'
      end
  end.

Definition start (initialState : PuzzleState) : Config :=
  {| frontier := [initialState]; explored := ∅ |}.

(** *** [bfs] *)

(** The body of [for (const neighbor of state.getNeighbors())]. *)
Definition bfs_visit (c : Config) (neighbor : PuzzleState) : Config :=
  if decide (getId neighbor ∈ explored c) then c
  else {| frontier := frontier c ++ [neighbor];
          explored := {[getId neighbor]} ∪ explored c |}.

Definition bfs_iteration (c : Config) : Outcome + Config :=
  match frontier c with
  | [] => inl NotFound
  | state :: rest =>
      if isGoal state then inl (Found (reconstructPath state))
      else
        let explored' := {[getId state]} ∪ explored c in
        match getNeighbors state with
        | None => inl Fault
        | Some neighbors =>
            inr (foldl bfs_visit
                   {| frontier := rest; explored := explored' |} neighbors)
        end
  end.

Definition bfs (fuel : nat) (initialState : PuzzleState) : option Outcome :=
  run bfs_iteration fuel (start initialState).

(** *** The ordered frontier of the informed searches *)

(** [frontier.findIndex(pred)]: the first index whose element satisfies
    [pred], [None] for -1. *)
Definition findIndex {A} (P : A → Prop) `{∀ x, Decision (P x)}
    (l : list A) : option nat :=
  fst <$> list_find P l.

(** [frontier.splice(index, 0, x)]. *)
Definition splice {A} (index : nat) (x : A) (l : list A) : list A :=
  take index l ++ x :: drop index l.

(** The [findIndex]/[push]/[splice] block, for the key [h] or [f]. *)
Definition insertBy (key : PuzzleState → Z) (frontier : list PuzzleState)
    (neighbor : PuzzleState) : list PuzzleState :=
  match findIndex (λ s, key s > key neighbor) frontier with
  | None => frontier ++ [neighbor]
  | Some index => splice index neighbor frontier
  end.

(** *** [bestFirstSearch] *)

Definition bestFirst_visit (heuristic : Heuristic) (explored : gset string)
    (acc : option (list PuzzleState)) (neighbor : PuzzleState)
    : option (list PuzzleState) :=
  frontier ← acc;
  if decide (getId neighbor ∈ explored) then Some frontier
  else
    v ← heuristic neighbor;
    let neighbor := set_h neighbor v in
    Some (insertBy h frontier neighbor).

Definition bestFirst_iteration (heuristic : Heuristic) (c : Config)
    : Outcome + Config :=
  match frontier c with
  | [] => inl NotFound
  | state :: rest =>
      if isGoal state then inl (Found (reconstructPath state))
      else
        let explored' := {[getId state]} ∪ explored c in
        match getNeighbors state with
        | None => inl Fault
        | Some neighbors =>
            match foldl (bestFirst_visit heuristic explored') (Some rest)
                    neighbors with
            | None => inl Fault
            | Some frontier' =>
                inr {| frontier := frontier'; explored := explored' |}
            end
        end
  end.

Definition bestFirstSearch (fuel : nat) (initialState : PuzzleState)
    (heuristic : Heuristic) : option Outcome :=
  run (bestFirst_iteration heuristic) fuel (start initialState).

(** *** [aStar] *)

Definition aStar_visit (heuristic : Heuristic) (explored : gset string)
    (acc : option (list PuzzleState)) (neighbor : PuzzleState)
    : option (list PuzzleState) :=
  frontier ← acc;
  if decide (getId neighbor ∈ explored) then Some frontier
  else
    v ← heuristic neighbor;
    let neighbor := set_h neighbor v in
    let neighbor := set_f neighbor (g neighbor + h neighbor) in
    Some (insertBy f frontier neighbor).

Definition aStar_iteration (heuristic : Heuristic) (c : Config)
    : Outcome + Config :=
  match frontier c with
  | [] => inl NotFound
  | state :: rest =>
      if isGoal state then inl (Found (reconstructPath state))
      else
        let explored' := {[getId state]} ∪ explored c in
        match getNeighbors state with
        | None => inl Fault
        | Some neighbors =>
            match foldl (aStar_visit heuristic explored') (Some rest)
                    neighbors with
            | None => inl Fault
            | Some frontier' =>
                inr {| frontier := frontier'; explored := explored' |}
            end
        end
  end.

Definition aStar (fuel : nat) (initialState : PuzzleState)
    (heuristic : Heuristic) : option Outcome :=
  run (aStar_iteration heuristic) fuel (start initialState).

(** *** The [/solve] handler: the root state and the dispatch *)

Definition selectHeuristic (heuristic : string) : Heuristic :=
  if decide (heuristic = "hamming") then hammingDistance
  else manhattanDistance.

(** [None] in the inner option is the 400 answer for an unknown
    algorithm. *)
Definition solve (fuel : nat) (puzzle : Board) (algorithm heuristic : string)
    : option (option Outcome) :=
  let initialState := new_PuzzleState puzzle None None in
  if decide (algorithm = "bfs") then Some <$> bfs fuel initialState
  else if decide (algorithm = "bestFirst") then
    Some <$> bestFirstSearch fuel initialState (selectHeuristic heuristic)
  else if decide (algorithm = "aStar") then
    Some <$> aStar fuel initialState (selectHeuristic heuristic)
  else Some None.

(** ** The vocabulary of the specification *)

(** A well-formed board: three rows of three cells holding 0..8, each
    once. *)
Definition wellFormed (b : Board) : Prop :=
  length b = 3%nat ∧ Forall (λ row, length row = 3%nat) b ∧
  flat b ≡ₚ [0; 1; 2; 3; 4; 5; 6; 7; 8].

Definition goalBoard : Board := [[1; 2; 3]; [4; 5; 6]; [7; 8; 0]].

(** The position of the blank, as the specification speaks of it: the cell
    (row, column) that holds 0. *)
Definition blankAt (b : Board) (x y : Z) : Prop := cell b x y = Some 0.

(** Applying a move [[dx, dy]]: the tile at (blankRow + dx, blankCol + dy)
    slides into the blank's cell, which leaves the blank where the tile
    was. *)
Definition blankPosition (b : Board) : option (Z * Z) :=
  head (omap (λ p : Z * Z, if decide (cell b p.1 p.2 = Some 0) then Some p
                            else None)
             (x ← [0; 1; 2]; y ← [0; 1; 2]; [(x, y)])).

Definition applyMove (b : Board) (m : Move) : option Board :=
  '(x, y) ← blankPosition b;
  tile ← cell b (x + m.1) (y + m.2);
  Some (setCell (setCell b x y tile) (x + m.1) (y + m.2) 0).

Fixpoint applyMoves (b : Board) (ms : list Move) : option Board :=
  match ms with
  | [] => Some b
  | m :: ms' => b' ← applyMove b m; applyMoves b' ms'
  end.

(** A solution of a board: cardinal slides that lead to the goal board. *)
Definition solution (b : Board) (ms : list Move) : Prop :=
  Forall (λ m, m ∈ moves) ms ∧ applyMoves b ms = Some goalBoard.

(** The goal board is reachable by blank slides. *)
Definition solvable (b : Board) : Prop := ∃ ms, solution b ms.

(** * Properties *)

(** ** Boards of the 3x3 shape *)

Definition shape3 (b : Board) : Prop :=
  length b = 3%nat ∧ Forall (λ row, length row = 3%nat) b.

Definition board9 (t0 t1 t2 t3 t4 t5 t6 t7 t8 : Z) : Board :=
  [[t0; t1; t2]; [t3; t4; t5]; [t6; t7; t8]].

(** The cells in row-major order, and the place of a cell in [flat]. *)
Definition positions : list (Z * Z) := x ← [0; 1; 2]; y ← [0; 1; 2]; [(x, y)].

Definition pos (x y : Z) : nat := Z.to_nat (3 * x + y).

Lemma wellFormed_shape3 b : wellFormed b → shape3 b.
Proof. intros (? & ? & _). by split. Qed.

Lemma shape3_inv b :
  shape3 b → ∃ t0 t1 t2 t3 t4 t5 t6 t7 t8, b = board9 t0 t1 t2 t3 t4 t5 t6 t7 t8.
Proof.
  intros [Hlen Hrows].
  destruct b as [|r0 [|r1 [|r2 [|]]]]; try discriminate Hlen.
  apply Forall_cons in Hrows as [H0 Hrows].
  apply Forall_cons in Hrows as [H1 Hrows].
  apply Forall_cons in Hrows as [H2 _].
  destruct r0 as [|? [|? [|? [|]]]]; try discriminate H0.
  destruct r1 as [|? [|? [|? [|]]]]; try discriminate H1.
  destruct r2 as [|? [|? [|? [|]]]]; try discriminate H2.
  unfold board9. eauto 12.
Qed.

Lemma shape3_board9 t0 t1 t2 t3 t4 t5 t6 t7 t8 :
  shape3 (board9 t0 t1 t2 t3 t4 t5 t6 t7 t8).
Proof. split; [done|]. by repeat constructor. Qed.

Lemma inBounds_spec x y :
  inBounds x y = true ↔ 0 ≤ x < 3 ∧ 0 ≤ y < 3.
Proof. unfold inBounds. rewrite !andb_true_iff. lia. Qed.

Lemma inBounds_positions x y : inBounds x y = true ↔ (x, y) ∈ positions.
Proof.
  rewrite inBounds_spec. change positions with
    [(0, 0); (0, 1); (0, 2); (1, 0); (1, 1); (1, 2); (2, 0); (2, 1); (2, 2)].
  rewrite !elem_of_cons, elem_of_nil. split.
  - intros [? ?].
    assert (x = 0 ∨ x = 1 ∨ x = 2) as [->|[->| ->]] by lia;
    assert (y = 0 ∨ y = 1 ∨ y = 2) as [->|[->| ->]] by lia; tauto.
  - intros H. repeat destruct H as [H|H]; try done; simplify_eq; lia.
Qed.

(** Case analysis on an in-bounds cell. *)
Ltac cell_cases H :=
  apply inBounds_positions in H;
  change positions with
    [(0, 0); (0, 1); (0, 2); (1, 0); (1, 1); (1, 2); (2, 0); (2, 1); (2, 2)]
    in H;
  rewrite !elem_of_cons, elem_of_nil in H;
  repeat destruct H as [H|H]; [simplify_eq H; intros; subst..|destruct H].

Lemma cell_flat b x y :
  shape3 b → inBounds x y = true → cell b x y = flat b !! pos x y.
Proof.
  intros (t0&t1&t2&t3&t4&t5&t6&t7&t8&->)%shape3_inv Hxy.
  cell_cases Hxy; reflexivity.
Qed.

Lemma cell_outside b x y :
  shape3 b → inBounds x y = false → cell b x y = None.
Proof.
  intros [Hlen Hrows] Hxy. unfold cell, index.
  destruct (Z.leb_spec 0 x); [|done]. destruct (Z.leb_spec 0 y); [|done].
  simpl. destruct (b !! Z.to_nat x) as [row|] eqn:Hrow; [|done]. simpl.
  apply lookup_ge_None.
  assert (Z.to_nat x < 3)%nat by (apply lookup_lt_Some in Hrow; lia).
  rewrite Forall_forall in Hrows.
  rewrite (Hrows row) by eauto using list_elem_of_lookup_2.
  apply not_true_iff_false in Hxy. rewrite inBounds_spec in Hxy. lia.
Qed.

Lemma cell_inside b x y :
  shape3 b → inBounds x y = true → is_Some (cell b x y).
Proof.
  intros (t0&t1&t2&t3&t4&t5&t6&t7&t8&->)%shape3_inv Hxy.
  cell_cases Hxy; by eexists.
Qed.

Lemma cell_Some_inBounds b x y v :
  shape3 b → cell b x y = Some v → inBounds x y = true.
Proof.
  intros Hb Hc. destruct (inBounds x y) eqn:Hxy; [done|].
  by rewrite cell_outside in Hc.
Qed.

Lemma flat_setCell b x y v :
  shape3 b → inBounds x y = true →
  flat (setCell b x y v) = <[pos x y := v]> (flat b).
Proof.
  intros (t0&t1&t2&t3&t4&t5&t6&t7&t8&->)%shape3_inv Hxy.
  cell_cases Hxy; reflexivity.
Qed.

Lemma shape3_setCell b x y v : shape3 b → shape3 (setCell b x y v).
Proof.
  intros Hb. destruct (inBounds x y) eqn:Hxy.
  - destruct (shape3_inv b Hb) as (t0&t1&t2&t3&t4&t5&t6&t7&t8&->).
    cell_cases Hxy; apply shape3_board9.
  - unfold setCell. pose proof (cell_outside b x y Hb Hxy) as Hc.
    unfold cell in Hc.
    destruct (index x) as [ni|]; [|done]. destruct (index y) as [nj|]; [|done].
    simpl in Hc. destruct (b !! ni) as [row|] eqn:Hrow; [|done].
    simpl in Hc. rewrite (list_insert_ge row) by by apply lookup_ge_None.
    by rewrite list_insert_id.
Qed.

Lemma shape3_flat_inj b1 b2 : shape3 b1 → shape3 b2 → flat b1 = flat b2 → b1 = b2.
Proof.
  intros (t0&t1&t2&t3&t4&t5&t6&t7&t8&->)%shape3_inv.
  intros (u0&u1&u2&u3&u4&u5&u6&u7&u8&->)%shape3_inv.
  unfold flat, board9; simpl. congruence.
Qed.

Lemma pos_inj x y x' y' :
  inBounds x y = true → inBounds x' y' = true → pos x y = pos x' y' →
  (x, y) = (x', y').
Proof. rewrite !inBounds_spec. unfold pos. intros. f_equal; lia. Qed.

(** ** The blank *)

Lemma blankPosition_Some b x y :
  blankPosition b = Some (x, y) → inBounds x y = true ∧ cell b x y = Some 0.
Proof.
  unfold blankPosition. fold positions. intros Hhd.
  apply head_Some in Hhd as [l' Hl'].
  assert (Hhd : (x, y) ∈ omap
    (λ p : Z * Z, if decide (cell b p.1 p.2 = Some 0) then Some p else None)
    positions) by (rewrite Hl'; left).
  apply list_elem_of_omap in Hhd as ([x' y'] & Hin & Hd).
  simpl in Hd. case_decide as Hc; [|done]. injection Hd as -> ->.
  split; [|done]. by apply inBounds_positions.
Qed.

Lemma wellFormed_NoDup b : wellFormed b → NoDup (flat b).
Proof. intros (_ & _ & ->). by apply (NoDup_seqZ 0 9). Qed.

Lemma wellFormed_range b v : wellFormed b → v ∈ flat b ↔ 0 ≤ v ≤ 8.
Proof.
  intros (_ & _ & ->). change [0; 1; 2; 3; 4; 5; 6; 7; 8] with (seqZ 0 9).
  rewrite elem_of_seqZ. lia.
Qed.

(** On a well-formed board a tile sits on one cell only. *)
Lemma cell_unique b x y x' y' v :
  wellFormed b → cell b x y = Some v → cell b x' y' = Some v →
  (x, y) = (x', y').
Proof.
  intros Hwf H1 H2. pose proof (wellFormed_shape3 _ Hwf) as Hb.
  pose proof (cell_Some_inBounds _ _ _ _ Hb H1).
  pose proof (cell_Some_inBounds _ _ _ _ Hb H2).
  rewrite cell_flat in H1, H2 by done.
  apply pos_inj; [done..|].
  eapply NoDup_lookup; eauto using wellFormed_NoDup.
Qed.

(** Every tile 0..8 is somewhere on a well-formed board. *)
Lemma cell_exists b v :
  wellFormed b → 0 ≤ v ≤ 8 → ∃ x y, cell b x y = Some v.
Proof.
  intros Hwf Hv. pose proof (wellFormed_shape3 _ Hwf) as Hb.
  apply (wellFormed_range b v Hwf), list_elem_of_lookup in Hv as [k Hk].
  assert (k < 9)%nat.
  { apply lookup_lt_Some in Hk. destruct Hwf as (_ & _ & Hp).
    by rewrite Hp in Hk. }
  exists (Z.of_nat k `div` 3), (Z.of_nat k `mod` 3).
  rewrite cell_flat; [|done|].
  2:{ apply inBounds_spec.
      pose proof (Z.mod_pos_bound (Z.of_nat k) 3).
      pose proof (Z.div_pos (Z.of_nat k) 3).
      pose proof (Z.div_lt_upper_bound (Z.of_nat k) 3 3). lia. }
  rewrite <- Hk. f_equal. unfold pos.
  rewrite <- Z.div_mod by lia. apply Nat2Z.id.
Qed.

Lemma blankPosition_None b :
  blankPosition b = None → ∀ x y, cell b x y = Some 0 → inBounds x y = false.
Proof.
  unfold blankPosition. fold positions. intros Hhd x y Hc.
  apply head_None in Hhd.
  destruct (inBounds x y) eqn:Hxy; [|done].
  apply inBounds_positions in Hxy.
  assert (Hin : (x, y) ∈ omap
    (λ p : Z * Z, if decide (cell b p.1 p.2 = Some 0) then Some p else None)
    positions).
  { apply list_elem_of_omap. exists (x, y). split; [done|]. simpl.
    by rewrite decide_True. }
  rewrite Hhd in Hin. by apply elem_of_nil in Hin.
Qed.

Lemma blankPosition_wf b :
  wellFormed b → ∃ x y, blankPosition b = Some (x, y).
Proof.
  intros Hwf. destruct (blankPosition b) as [[x y]|] eqn:Hbl; [eauto|].
  destruct (cell_exists b 0 Hwf) as (x & y & Hc); [lia|].
  pose proof (blankPosition_None b Hbl x y Hc) as Hout.
  rewrite cell_outside in Hc by eauto using wellFormed_shape3. done.
Qed.

Lemma blankPosition_cell b x y :
  wellFormed b → cell b x y = Some 0 → blankPosition b = Some (x, y).
Proof.
  intros Hwf Hc. destruct (blankPosition_wf b Hwf) as (x' & y' & Hbl).
  rewrite Hbl. f_equal.
  apply blankPosition_Some in Hbl as [_ Hc'].
  eauto using cell_unique.
Qed.

(** [findZero] scans the cells in the order of [positions], so it finds the
    blank the specification speaks of. *)
Lemma findZero_rows_board9 t0 t1 t2 t3 t4 t5 t6 t7 t8 :
  findZero_rows (board9 t0 t1 t2 t3 t4 t5 t6 t7 t8) [0; 1; 2] =
  blankPosition (board9 t0 t1 t2 t3 t4 t5 t6 t7 t8).
Proof.
  cbv [findZero_rows findZero_row blankPosition board9 cell index
       mbind option_bind list_bind mret list_ret app omap list_omap head
       lookup list_lookup fst snd
       Z.leb Z.compare Z.to_nat Pos.to_nat Pos.iter_op Init.Nat.add].
  repeat (case_decide; [done|]). done.
Qed.

Lemma findZero_blankPosition s :
  shape3 (board s) → findZero s = blankPosition (board s).
Proof.
  intros (t0&t1&t2&t3&t4&t5&t6&t7&t8&Hb)%shape3_inv.
  unfold findZero. rewrite Hb. apply findZero_rows_board9.
Qed.

(** ** Sliding a tile *)

Lemma cell_setCell b x y v i j :
  shape3 b → inBounds x y = true →
  cell (setCell b x y v) i j =
    if decide ((i, j) = (x, y)) then Some v else cell b i j.
Proof.
  intros Hb Hxy. pose proof (shape3_setCell b x y v Hb) as Hb'.
  destruct (inBounds i j) eqn:Hij.
  - rewrite !cell_flat, flat_setCell by done.
    assert (pos x y < length (flat b))%nat.
    { destruct (shape3_inv b Hb) as (t0&t1&t2&t3&t4&t5&t6&t7&t8&->).
      apply inBounds_spec in Hxy. unfold pos. simpl. lia. }
    case_decide as Heq.
    + injection Heq as -> ->. by apply list_lookup_insert_eq.
    + apply list_lookup_insert_ne. intros Hp. apply Heq.
      symmetry. by apply pos_inj.
  - rewrite !cell_outside by done. case_decide; [|done]. congruence.
Qed.

Lemma applyMove_unfold b x y m :
  blankPosition b = Some (x, y) →
  applyMove b m =
    tile ← cell b (x + m.1) (y + m.2);
    Some (setCell (setCell b x y tile) (x + m.1) (y + m.2) 0).
Proof. intros Hbl. unfold applyMove. by rewrite Hbl. Qed.

Lemma applyMove_Some b m b' :
  applyMove b m = Some b' →
  ∃ x y tile, blankPosition b = Some (x, y) ∧
    cell b (x + m.1) (y + m.2) = Some tile ∧
    b' = setCell (setCell b x y tile) (x + m.1) (y + m.2) 0.
Proof.
  unfold applyMove. intros Hm.
  destruct (blankPosition b) as [[x y]|]; [|done]. simpl in Hm.
  destruct (cell b (x + m.1) (y + m.2)) as [tile|] eqn:Htile; [|done].
  simpl in Hm. exists x, y, tile. by inversion Hm.
Qed.

Lemma applyMove_wellFormed b m b' :
  wellFormed b → applyMove b m = Some b' → wellFormed b'.
Proof.
  intros Hwf (x & y & tile & Hbl & Htile & ->)%applyMove_Some.
  pose proof (wellFormed_shape3 _ Hwf) as Hb.
  apply blankPosition_Some in Hbl as [Hxy Hzero].
  pose proof (cell_Some_inBounds _ _ _ _ Hb Htile) as Hnew.
  destruct (shape3_setCell (setCell b x y tile) (x + m.1) (y + m.2) 0)
    as [? ?]; [by apply shape3_setCell|].
  split_and!; [done..|].
  rewrite !flat_setCell by auto using shape3_setCell.
  rewrite cell_flat in Hzero, Htile by done.
  rewrite (Permutation_insert_swap _ _ _ _ _ Hzero Htile).
  by destruct Hwf as (_ & _ & ?).
Qed.

Lemma applyMove_blank b m b' x y :
  wellFormed b → applyMove b m = Some b' → blankPosition b = Some (x, y) →
  blankPosition b' = Some (x + m.1, y + m.2).
Proof.
  intros Hwf Hm Hbl.
  pose proof (applyMove_wellFormed _ _ _ Hwf Hm) as Hwf'.
  apply applyMove_Some in Hm as (x' & y' & tile & Hbl' & Htile & ->).
  rewrite Hbl in Hbl'. injection Hbl' as <- <-.
  pose proof (wellFormed_shape3 _ Hwf) as Hb.
  apply blankPosition_Some in Hbl as [Hxy Hzero].
  apply blankPosition_cell; [done|].
  rewrite cell_setCell; eauto using shape3_setCell, cell_Some_inBounds.
  by rewrite decide_True.
Qed.

(** The board after a slide, cell by cell: the blank and the moved-onto
    cell have exchanged their contents. *)
Definition swapped (b b' : Board) (p q : Z * Z) : Prop :=
  ∀ i j, cell b' i j =
    if decide ((i, j) = p) then cell b q.1 q.2
    else if decide ((i, j) = q) then cell b p.1 p.2
    else cell b i j.

Lemma applyMove_swapped b m b' x y :
  shape3 b → m ∈ moves → blankPosition b = Some (x, y) →
  applyMove b m = Some b' →
  swapped b b' (x, y) (x + m.1, y + m.2).
Proof.
  intros Hb Hmv Hbl Hm i j.
  apply applyMove_Some in Hm as (x' & y' & tile & Hbl' & Htile & ->).
  rewrite Hbl in Hbl'. injection Hbl' as <- <-.
  apply blankPosition_Some in Hbl as [Hxy Hzero].
  rewrite !cell_setCell; eauto using shape3_setCell, cell_Some_inBounds.
  simpl. rewrite Htile, Hzero.
  assert ((x, y) ≠ (x + m.1, y + m.2)).
  { unfold moves in Hmv. rewrite !elem_of_cons, elem_of_nil in Hmv.
    intros [= ? ?]. destruct Hmv as [->|[->|[->|[->|[]]]]]; simpl in *; lia. }
  repeat case_decide; congruence.
Qed.

(** ** Successor generation *)

(** The child the specification describes for the move [m], when the slide
    is possible. *)
Definition child (s : PuzzleState) (m : Move) : option PuzzleState :=
  b' ← applyMove (board s) m;
  Some (new_PuzzleState b' (Some s) (Some m)).

Lemma getNeighbors_loop_spec s x y ms acc :
  shape3 (board s) → blankPosition (board s) = Some (x, y) →
  getNeighbors_loop s x y ms acc = Some (acc ++ omap (child s) ms).
Proof.
  intros Hb Hbl. revert acc.
  induction ms as [|[dx dy] ms IH]; intros acc; simpl.
  { by rewrite app_nil_r. }
  unfold child at 1. rewrite (applyMove_unfold _ x y) by done. simpl.
  pose proof (blankPosition_Some _ _ _ Hbl) as [Hxy Hzero].
  unfold swapCells. rewrite Hzero.
  destruct (inBounds (x + dx) (y + dy)) eqn:Hnew.
  - destruct (cell_inside _ _ _ Hb Hnew) as [tile Htile]. rewrite Htile.
    simpl. rewrite IH, <- app_assoc. done.
  - rewrite (cell_outside _ _ _ Hb Hnew). simpl. apply IH.
Qed.

Lemma getNeighbors_wf s :
  wellFormed (board s) → getNeighbors s = Some (omap (child s) moves).
Proof.
  intros Hwf. pose proof (wellFormed_shape3 _ Hwf) as Hb.
  destruct (blankPosition_wf _ Hwf) as (x & y & Hbl).
  unfold getNeighbors. rewrite findZero_blankPosition, Hbl by done.
  cbn [mbind option_bind].
  by rewrite (getNeighbors_loop_spec s x y moves []).
Qed.

Lemma elem_of_neighbors s n :
  n ∈ omap (child s) moves ↔
  ∃ m b', m ∈ moves ∧ applyMove (board s) m = Some b' ∧
          n = new_PuzzleState b' (Some s) (Some m).
Proof.
  rewrite list_elem_of_omap. unfold child. split.
  - intros (m & Hm & Hc). destruct (applyMove (board s) m) as [b'|] eqn:Ha;
      simplify_eq/=. eauto.
  - intros (m & b' & Hm & Ha & ->). exists m. by rewrite Ha.
Qed.

Lemma child_Some s m n :
  child s m = Some n →
  ∃ b', applyMove (board s) m = Some b' ∧
        n = new_PuzzleState b' (Some s) (Some m).
Proof.
  unfold child. destruct (applyMove (board s) m) as [b'|]; [|done].
  intros [= <-]. eauto.
Qed.

Lemma child_inBounds s m x y :
  shape3 (board s) → blankPosition (board s) = Some (x, y) →
  is_Some (child s m) ↔ inBounds (x + m.1) (y + m.2) = true.
Proof.
  intros Hb Hbl. unfold child. rewrite (applyMove_unfold _ x y) by done.
  destruct (inBounds (x + m.1) (y + m.2)) eqn:Hnew.
  - destruct (cell_inside _ _ _ Hb Hnew) as [tile ->]. simpl. split; eauto.
  - rewrite (cell_outside _ _ _ Hb Hnew). simpl. split; [|done].
    by intros [? ?].
Qed.

Lemma children_moves s x y (ms : list Move) :
  shape3 (board s) → blankPosition (board s) = Some (x, y) →
  move <$> omap (child s) ms =
  Some <$> filter (λ m, inBounds (x + m.1) (y + m.2) = true) ms.
Proof.
  intros Hb Hbl. induction ms as [|m ms IH]; [done|].
  rewrite filter_cons.
  pose proof (child_inBounds s m x y Hb Hbl) as Hin.
  change (omap (child s) (m :: ms)) with
    (match child s m with
     | Some n => n :: omap (child s) ms
     | None => omap (child s) ms
     end).
  destruct (child s m) as [n|] eqn:Hc.
  - rewrite decide_True by (apply Hin; eauto).
    apply child_Some in Hc as (b' & _ & ->).
    rewrite !fmap_cons, IH. done.
  - rewrite decide_False; [done|].
    intros [? ?]%Hin. done.
Qed.

(** How many children the blank's cell allows. *)
Definition isCorner (x y : Z) : bool := bool_decide (x ≠ 1 ∧ y ≠ 1).
Definition isCenter (x y : Z) : bool := bool_decide (x = 1 ∧ y = 1).
Definition expectedChildren (x y : Z) : nat :=
  if isCorner x y then 2 else if isCenter x y then 4 else 3.

Lemma moves_inBounds_count x y :
  inBounds x y = true →
  length (filter (λ m : Move, inBounds (x + m.1) (y + m.2) = true) moves) =
  expectedChildren x y.
Proof. intros Hxy. cell_cases Hxy; reflexivity. Qed.

(** ** States made by successor generation *)

(** [descends root s]: [s] is [root] or was returned by [getNeighbors] on
    such a state, possibly scored afterwards ([h] and [f] assigned). *)
Inductive descends (root : PuzzleState) : PuzzleState → Prop :=
  | descends_root : descends root root
  | descends_child p neighbors n v w :
      descends root p → getNeighbors p = Some neighbors → n ∈ neighbors →
      descends root (set_f (set_h n v) w).

Definition generated (s : PuzzleState) : Prop :=
  ∃ b, wellFormed b ∧ descends (new_PuzzleState b None None) s.

Lemma descends_unscored root p neighbors n :
  wellFormed (board p) →
  descends root p → getNeighbors p = Some neighbors → n ∈ neighbors →
  descends root n.
Proof.
  intros Hwf Hp Hns Hn.
  pose proof (descends_child root p neighbors n 0 0 Hp Hns Hn) as Hd.
  rewrite getNeighbors_wf in Hns by done. injection Hns as <-.
  apply elem_of_neighbors in Hn as (m & b' & _ & _ & ->). exact Hd.
Qed.

Lemma descends_wellFormed root s :
  wellFormed (board root) → descends root s → wellFormed (board s).
Proof.
  intros Hroot. induction 1 as [|p neighbors n v w Hp IH Hns Hn]; [done|].
  rewrite getNeighbors_wf in Hns by done. injection Hns as <-.
  apply elem_of_neighbors in Hn as (m & b' & _ & Ha & ->). simpl.
  eauto using applyMove_wellFormed.
Qed.

Lemma descends_inv root s :
  wellFormed (board root) → descends root s →
  s = root ∨
  ∃ p m, descends root p ∧ m ∈ moves ∧
    applyMove (board p) m = Some (board s) ∧
    parent s = Some p ∧ move s = Some m ∧ g s = g p + 1.
Proof.
  intros Hroot. destruct 1 as [|p neighbors n v w Hp Hns Hn]; [by left|].
  right. pose proof (descends_wellFormed _ _ Hroot Hp) as Hwf.
  rewrite getNeighbors_wf in Hns by done. injection Hns as <-.
  apply elem_of_neighbors in Hn as (m & b' & Hm & Ha & ->).
  by exists p, m.
Qed.

Global Instance wellFormed_dec b : Decision (wellFormed b).
Proof. unfold wellFormed. apply _. Defined.

(** A scratch root used by the examples: the blank is one slide from home. *)
Definition nearGoal : PuzzleState :=
  new_PuzzleState [[1; 2; 3]; [4; 5; 0]; [7; 8; 6]] None None.

(** C7: on a well-formed board [getNeighbors] returns one child per in-bounds
    cardinal move of the blank, in the order of [moves]: two children in a
    corner, three on an edge, four in the center.  The board of a child is
    the parent's with the blank and the moved-onto cell exchanged; its
    parent is the input state, its move the delta used, its [g] the
    parent's plus one, and its [h] and [f] are 0. *)
Theorem getNeighbors_children s :
  wellFormed (board s) →
  ∃ x y neighbors,
    blankAt (board s) x y ∧ inBounds x y = true ∧
    getNeighbors s = Some neighbors ∧
    move <$> neighbors =
      Some <$> filter (λ m, inBounds (x + m.1) (y + m.2) = true) moves ∧
    length neighbors = expectedChildren x y ∧
    Forall (λ n, ∃ m,
      move n = Some m ∧
      swapped (board s) (board n) (x, y) (x + m.1, y + m.2) ∧
      wellFormed (board n) ∧
      parent n = Some s ∧ g n = g s + 1 ∧ h n = 0 ∧ f n = 0) neighbors.
Proof.
  intros Hwf. pose proof (wellFormed_shape3 _ Hwf) as Hb.
  destruct (blankPosition_wf _ Hwf) as (x & y & Hbl).
  pose proof (blankPosition_Some _ _ _ Hbl) as [Hxy Hzero].
  exists x, y, (omap (child s) moves).
  split_and!; [done|done|by apply getNeighbors_wf|by apply children_moves| |].
  - rewrite <- (length_fmap move), (children_moves s x y) by done.
    rewrite length_fmap. by apply moves_inBounds_count.
  - apply Forall_forall. intros n (m & b' & Hm & Ha & ->)%elem_of_neighbors.
    exists m. simpl.
    split_and!; eauto using applyMove_swapped, applyMove_wellFormed.
Qed.

Lemma getNeighbors_children_witness :
  ∃ x y neighbors,
    blankAt (board nearGoal) x y ∧ inBounds x y = true ∧
    getNeighbors nearGoal = Some neighbors ∧
    move <$> neighbors =
      Some <$> filter (λ m, inBounds (x + m.1) (y + m.2) = true) moves ∧
    length neighbors = expectedChildren x y ∧
    Forall (λ n, ∃ m,
      move n = Some m ∧
      swapped (board nearGoal) (board n) (x, y) (x + m.1, y + m.2) ∧
      wellFormed (board n) ∧
      parent n = Some nearGoal ∧ g n = g nearGoal + 1 ∧ h n = 0 ∧ f n = 0)
      neighbors.
Proof.
  apply (getNeighbors_children nearGoal).
  apply (bool_decide_eq_true_1 (wellFormed _)). vm_compute. reflexivity.
Defined.

Lemma moves_odd m : m ∈ moves → m.1 + m.2 = 1 ∨ m.1 + m.2 = -1.
Proof.
  unfold moves. rewrite !elem_of_cons, elem_of_nil.
  intros [->|[->|[->|[->|[]]]]]; simpl; lia.
Qed.

(** C8: let [s] be a generated state whose parent [p] has a parent [gp].
    No element of [s.getNeighbors()] has the flattened board of [gp]: the
    blank of such a neighbor is an odd number of slides away from the blank
    of [gp]. *)
Theorem neighbors_never_grandparent s p gp neighbors n :
  generated s → parent s = Some p → parent p = Some gp →
  getNeighbors s = Some neighbors → n ∈ neighbors →
  flat (board n) ≠ flat (board gp).
Proof.
  intros (b0 & Hwf0 & Hs) Hp Hgp Hns Hn Hflat.
  set (root := new_PuzzleState b0 None None) in *.
  assert (Hroot : wellFormed (board root)) by done.
  pose proof (descends_wellFormed _ _ Hroot Hs) as Hwfs.
  destruct (descends_inv _ _ Hroot Hs) as [->|(p' & m2 & Hp' & Hm2 & Ha2 & Hpar & _)];
    [done|].
  rewrite Hp in Hpar. injection Hpar as <-.
  pose proof (descends_wellFormed _ _ Hroot Hp') as Hwfp.
  destruct (descends_inv _ _ Hroot Hp') as [->|(gp' & m1 & Hgp' & Hm1 & Ha1 & Hpar & _)];
    [done|].
  rewrite Hgp in Hpar. injection Hpar as <-.
  pose proof (descends_wellFormed _ _ Hroot Hgp') as Hwfg.
  rewrite getNeighbors_wf in Hns by done. injection Hns as <-.
  apply elem_of_neighbors in Hn as (m3 & b' & Hm3 & Ha3 & ->).
  simpl in Hflat.
  pose proof (applyMove_wellFormed _ _ _ Hwfs Ha3) as Hwfn.
  apply shape3_flat_inj in Hflat; [|by apply wellFormed_shape3..]. subst b'.
  destruct (blankPosition_wf _ Hwfg) as (x & y & Hbl).
  pose proof (applyMove_blank _ _ _ _ _ Hwfg Ha1 Hbl) as Hbl1.
  pose proof (applyMove_blank _ _ _ _ _ Hwfp Ha2 Hbl1) as Hbl2.
  pose proof (applyMove_blank _ _ _ _ _ Hwfs Ha3 Hbl2) as Hbl3.
  rewrite Hbl in Hbl3. injection Hbl3 as Hx Hy.
  apply moves_odd in Hm1, Hm2, Hm3. lia.
Qed.

(** The chain goal <- [nearGoal] <- ... used by the example of C8. *)
Definition grandchild : PuzzleState :=
  let p := new_PuzzleState [[1; 2; 3]; [4; 5; 6]; [7; 8; 0]]
             (Some nearGoal) (Some (1, 0)) in
  new_PuzzleState [[1; 2; 3]; [4; 5; 6]; [7; 0; 8]] (Some p) (Some (0, -1)).

Lemma neighbors_never_grandparent_witness :
  flat [[1; 2; 3]; [4; 5; 6]; [0; 7; 8]] ≠ flat (board nearGoal).
Proof.
  set (p := new_PuzzleState [[1; 2; 3]; [4; 5; 6]; [7; 8; 0]]
              (Some nearGoal) (Some (1, 0))).
  apply (neighbors_never_grandparent grandchild p nearGoal
           (default [] (getNeighbors grandchild))
           (new_PuzzleState [[1; 2; 3]; [4; 5; 6]; [0; 7; 8]]
              (Some grandchild) (Some (0, -1)))).
  - exists (board nearGoal). split.
    + apply (bool_decide_eq_true_1 (wellFormed _)). vm_compute. reflexivity.
    + apply (descends_child _ p (default [] (getNeighbors p))
               (new_PuzzleState [[1; 2; 3]; [4; 5; 6]; [7; 0; 8]]
                  (Some p) (Some (0, -1))) 0 0).
      * apply (descends_child _ nearGoal (default [] (getNeighbors nearGoal))
                 (new_PuzzleState [[1; 2; 3]; [4; 5; 6]; [7; 8; 0]]
                    (Some nearGoal) (Some (1, 0))) 0 0).
        -- apply descends_root.
        -- vm_compute. reflexivity.
        -- vm_compute. apply list_elem_of_here.
      * vm_compute. reflexivity.
      * vm_compute. apply list_elem_of_here.
  - reflexivity.
  - reflexivity.
  - vm_compute. reflexivity.
  - vm_compute. apply list_elem_of_further, list_elem_of_here.
Defined.

(** ** Heuristics *)

(** The words of the specification: the cell a tile occupies, its goal
    cell, and the two scores as counts and sums over the non-blank tiles. *)
Definition tiles : list Z := [1; 2; 3; 4; 5; 6; 7; 8].

Definition tilePosition (b : Board) (v : Z) : option (Z * Z) :=
  head (filter (λ p : Z * Z, cell b p.1 p.2 = Some v) positions).

Definition goalCell (v : Z) : Z * Z := ((v - 1) `div` 3, (v - 1) `mod` 3).

Definition sumZ (l : list Z) : Z := foldr Z.add 0 l.

Definition misplacedTiles (b : Board) : Z :=
  Z.of_nat (length
    (filter (λ v, tilePosition b v ≠ Some (goalCell v)) tiles)).

Definition manhattanSum (b : Board) : Z :=
  sumZ ((λ v,
           match tilePosition b v with
           | Some (x, y) =>
               Z.abs (x - (goalCell v).1) + Z.abs (y - (goalCell v).2)
           | None => 0
           end) <$> tiles).

Global Instance sumZ_Permutation : Proper ((≡ₚ) ==> (=)) sumZ.
Proof. induction 1; simpl; lia. Qed.

Lemma sumZ_cons z l : sumZ (z :: l) = z + sumZ l.
Proof. done. Qed.

Lemma sumZ_nonneg l : Forall (λ z, 0 ≤ z) l → 0 ≤ sumZ l.
Proof. induction 1; simpl; lia. Qed.

Lemma sumZ_zero l : Forall (λ z, 0 ≤ z) l → sumZ l = 0 → Forall (λ z, z = 0) l.
Proof.
  induction 1 as [|z l Hz Hl IH]; simpl; intros Hs; [done|].
  pose proof (sumZ_nonneg l Hl). constructor; [lia|]. apply IH. lia.
Qed.

Lemma length_filter_sumZ {A} (P : A → Prop) `{∀ x, Decision (P x)} (l : list A) :
  Z.of_nat (length (filter P l)) =
  sumZ ((λ x, if decide (P x) then 1 else 0) <$> l).
Proof.
  induction l as [|x l IH]; [done|].
  rewrite filter_cons, fmap_cons. simpl. case_decide; simpl; lia.
Qed.

Lemma tilePosition_cell b x y v :
  wellFormed b → cell b x y = Some v → tilePosition b v = Some (x, y).
Proof.
  intros Hwf Hc. unfold tilePosition.
  destruct (head _) as [[x' y']|] eqn:Hhd.
  - apply head_Some in Hhd as [l' Hl'].
    assert (Hin : (x', y') ∈ filter (λ p : Z * Z, cell b p.1 p.2 = Some v)
                               positions) by (rewrite Hl'; left).
    apply list_elem_of_filter in Hin as [Hc' _]. simpl in Hc'.
    f_equal. eauto using cell_unique.
  - apply head_None in Hhd.
    assert (Hin : (x, y) ∈ filter (λ p : Z * Z, cell b p.1 p.2 = Some v)
                             positions).
    { apply list_elem_of_filter. split; [done|].
      apply inBounds_positions.
      eauto using cell_Some_inBounds, wellFormed_shape3. }
    rewrite Hhd in Hin. by apply elem_of_nil in Hin.
Qed.

(** Tile by tile or cell by cell: a sum over the tiles 0..8 of a
    well-formed board is the sum over its cells in row-major order. *)
Definition tileTerm (F : Z → Z * Z → Z) (b : Board) (v : Z) : Z :=
  match tilePosition b v with Some p => F v p | None => 0 end.

Lemma sum_tiles_cells F t0 t1 t2 t3 t4 t5 t6 t7 t8 :
  let b := board9 t0 t1 t2 t3 t4 t5 t6 t7 t8 in
  wellFormed b →
  sumZ (tileTerm F b <$> 0 :: tiles) =
  F t0 (0, 0) + (F t1 (0, 1) + (F t2 (0, 2) + (F t3 (1, 0) + (F t4 (1, 1) +
  (F t5 (1, 2) + (F t6 (2, 0) + (F t7 (2, 1) + (F t8 (2, 2) + 0)))))))).
Proof.
  intros b Hwf.
  assert (Hp : 0 :: tiles ≡ₚ flat b) by (by destruct Hwf as (_ & _ & ->)).
  rewrite Hp. unfold flat, b, board9, tileTerm. simpl.
  fold (board9 t0 t1 t2 t3 t4 t5 t6 t7 t8). fold b.
  rewrite (tilePosition_cell b 0 0 t0), (tilePosition_cell b 0 1 t1),
    (tilePosition_cell b 0 2 t2), (tilePosition_cell b 1 0 t3),
    (tilePosition_cell b 1 1 t4), (tilePosition_cell b 1 2 t5),
    (tilePosition_cell b 2 0 t6), (tilePosition_cell b 2 1 t7),
    (tilePosition_cell b 2 2 t8) by done.
  done.
Qed.

Lemma tilePosition_wf b v :
  wellFormed b → 0 ≤ v ≤ 8 → ∃ x y, tilePosition b v = Some (x, y) ∧
    inBounds x y = true ∧ cell b x y = Some v.
Proof.
  intros Hwf Hv. destruct (cell_exists b v Hwf Hv) as (x & y & Hc).
  exists x, y.
  split_and!; eauto using tilePosition_cell, cell_Some_inBounds,
    wellFormed_shape3.
Qed.

(** One term of each score, as the code computes it for the tile [t] found
    at flat index [k], respectively at the cell (i, j). *)
Definition hammingTerm (t : Z) (k : nat) : Z :=
  if decide (t ≠ 0 ∧ t ≠ Z.of_nat k + 1) then 1 else 0.

Definition manhattanTerm (t i j : Z) : Z :=
  if decide (t ≠ 0) then Z.abs (goalX t - i) + Z.abs (goalY t - j) else 0.

(** The same terms in the words of the specification. *)
Definition misplaced (v : Z) (p : Z * Z) : Z :=
  if decide (v ≠ 0 ∧ p ≠ goalCell v) then 1 else 0.

Definition gridDistance (v : Z) (p : Z * Z) : Z :=
  if decide (v ≠ 0) then
    Z.abs (p.1 - (goalCell v).1) + Z.abs (p.2 - (goalCell v).2)
  else 0.

Ltac tile_cases t :=
  let H := fresh in
  assert (H : t = 0 ∨ t = 1 ∨ t = 2 ∨ t = 3 ∨ t = 4 ∨ t = 5 ∨ t = 6 ∨
              t = 7 ∨ t = 8) by lia;
  destruct H as [->|[->|[->|[->|[->|[->|[->|[->| ->]]]]]]]].

Lemma hammingTerm_misplaced t x y :
  0 ≤ t ≤ 8 → inBounds x y = true →
  hammingTerm t (pos x y) = misplaced t (x, y).
Proof.
  intros Ht Hxy. tile_cases t; cell_cases Hxy; reflexivity.
Qed.

Lemma manhattanTerm_gridDistance t x y :
  0 ≤ t ≤ 8 → inBounds x y = true →
  manhattanTerm t x y = gridDistance t (x, y).
Proof.
  intros Ht Hxy. tile_cases t; cell_cases Hxy; reflexivity.
Qed.

Lemma misplaced_nonneg v p : 0 ≤ misplaced v p.
Proof. unfold misplaced. case_decide; lia. Qed.

Lemma gridDistance_nonneg v p : 0 ≤ gridDistance v p.
Proof. unfold gridDistance. case_decide; lia. Qed.

Lemma misplaced_zero t x y :
  0 ≤ t ≤ 8 → inBounds x y = true → misplaced t (x, y) = 0 →
  t = 0 ∨ t = 3 * x + y + 1.
Proof.
  intros Ht Hxy Hz. tile_cases t; cell_cases Hxy; vm_compute in Hz; lia.
Qed.

Lemma gridDistance_zero t x y :
  0 ≤ t ≤ 8 → inBounds x y = true → gridDistance t (x, y) = 0 →
  t = 0 ∨ t = 3 * x + y + 1.
Proof.
  intros Ht Hxy Hz. tile_cases t; cell_cases Hxy; vm_compute in Hz; lia.
Qed.

(** The loops of [manhattanDistance], unrolled. *)
Lemma manhattan_row_step b i j js d t :
  cell b i j = Some t →
  manhattan_row b i (j :: js) d = manhattan_row b i js (d + manhattanTerm t i j).
Proof.
  intros Hc. simpl. rewrite Hc. simpl. unfold manhattanTerm.
  case_decide; [done|]. by rewrite Z.add_0_r.
Qed.

Lemma manhattan_row_full b i d u0 u1 u2 :
  cell b i 0 = Some u0 → cell b i 1 = Some u1 → cell b i 2 = Some u2 →
  manhattan_row b i [0; 1; 2] d =
  Some (d + manhattanTerm u0 i 0 + manhattanTerm u1 i 1 + manhattanTerm u2 i 2).
Proof.
  intros H0 H1 H2.
  by rewrite (manhattan_row_step b i 0 _ _ u0),
    (manhattan_row_step b i 1 _ _ u1), (manhattan_row_step b i 2 _ _ u2).
Qed.

Lemma manhattanDistance_board9 s t0 t1 t2 t3 t4 t5 t6 t7 t8 :
  board s = board9 t0 t1 t2 t3 t4 t5 t6 t7 t8 →
  manhattanDistance s = Some
    (manhattanTerm t0 0 0 + (manhattanTerm t1 0 1 + (manhattanTerm t2 0 2 +
    (manhattanTerm t3 1 0 + (manhattanTerm t4 1 1 + (manhattanTerm t5 1 2 +
    (manhattanTerm t6 2 0 + (manhattanTerm t7 2 1 + (manhattanTerm t8 2 2 +
     0))))))))).
Proof.
  intros Hb. unfold manhattanDistance. rewrite Hb.
  set (b := board9 t0 t1 t2 t3 t4 t5 t6 t7 t8).
  cbn [manhattan_rows].
  rewrite (manhattan_row_full b 0 _ t0 t1 t2) by done.
  cbn [mbind option_bind].
  rewrite (manhattan_row_full b 1 _ t3 t4 t5) by done.
  cbn [mbind option_bind].
  rewrite (manhattan_row_full b 2 _ t6 t7 t8) by done.
  cbn [mbind option_bind]. f_equal. lia.
Qed.

Lemma hammingDistance_board9 s t0 t1 t2 t3 t4 t5 t6 t7 t8 :
  board s = board9 t0 t1 t2 t3 t4 t5 t6 t7 t8 →
  hammingDistance s = Some
    (hammingTerm t0 0 + (hammingTerm t1 1 + (hammingTerm t2 2 +
    (hammingTerm t3 3 + (hammingTerm t4 4 + (hammingTerm t5 5 +
    (hammingTerm t6 6 + (hammingTerm t7 7 + (hammingTerm t8 8 + 0))))))))).
Proof.
  intros Hb. unfold hammingDistance. rewrite Hb, length_filter_sumZ. done.
Qed.

(** The scores of the specification as sums over the tiles 0..8. *)
Lemma misplacedTiles_sum b :
  wellFormed b → misplacedTiles b = sumZ (tileTerm misplaced b <$> 0 :: tiles).
Proof.
  intros Hwf. unfold misplacedTiles. rewrite length_filter_sumZ, fmap_cons.
  assert (H0 : tileTerm misplaced b 0 = 0).
  { unfold tileTerm. by destruct (tilePosition b 0). }
  rewrite sumZ_cons, H0, Z.add_0_l. f_equal.
  apply Forall_fmap_ext, Forall_forall. intros v Hv.
  destruct (tilePosition_wf b v Hwf) as (x & y & Hp & _).
  { unfold tiles in Hv. rewrite !elem_of_cons, elem_of_nil in Hv. lia. }
  unfold tileTerm, misplaced. rewrite Hp.
  assert (v ≠ 0).
  { unfold tiles in Hv. rewrite !elem_of_cons, elem_of_nil in Hv. lia. }
  destruct (decide (Some (x, y) ≠ Some (goalCell v))) as [Hd|Hd];
    destruct (decide (v ≠ 0 ∧ (x, y) ≠ goalCell v)) as [Hd'|Hd']; try done.
  - exfalso. apply Hd'. split; [done|]. congruence.
  - exfalso. apply Hd. destruct Hd' as [_ Hd']. congruence.
Qed.

Lemma manhattanSum_sum b :
  wellFormed b →
  manhattanSum b = sumZ (tileTerm gridDistance b <$> 0 :: tiles).
Proof.
  intros Hwf. unfold manhattanSum. rewrite fmap_cons.
  assert (H0 : tileTerm gridDistance b 0 = 0).
  { unfold tileTerm. by destruct (tilePosition b 0). }
  rewrite sumZ_cons, H0, Z.add_0_l. f_equal.
  apply Forall_fmap_ext, Forall_forall. intros v Hv.
  assert (v ≠ 0).
  { unfold tiles in Hv. rewrite !elem_of_cons, elem_of_nil in Hv. lia. }
  unfold tileTerm, gridDistance.
  destruct (tilePosition b v) as [[x y]|]; [|done].
  by rewrite decide_True.
Qed.

Lemma tiles_range s t0 t1 t2 t3 t4 t5 t6 t7 t8 :
  wellFormed (board s) → board s = board9 t0 t1 t2 t3 t4 t5 t6 t7 t8 →
  Forall (λ t, 0 ≤ t ≤ 8) [t0; t1; t2; t3; t4; t5; t6; t7; t8].
Proof.
  intros Hwf Hb. apply Forall_forall. intros t Ht.
  apply (wellFormed_range _ t Hwf). by rewrite Hb.
Qed.

Lemma hammingDistance_spec s :
  wellFormed (board s) → hammingDistance s = Some (misplacedTiles (board s)).
Proof.
  intros Hwf.
  destruct (shape3_inv _ (wellFormed_shape3 _ Hwf))
    as (t0&t1&t2&t3&t4&t5&t6&t7&t8&Hb).
  pose proof (tiles_range s _ _ _ _ _ _ _ _ _ Hwf Hb) as Hr.
  rewrite !Forall_cons in Hr. destruct_and!.
  rewrite misplacedTiles_sum by done.
  rewrite (hammingDistance_board9 s _ _ _ _ _ _ _ _ _ Hb).
  rewrite Hb in Hwf |- *. rewrite sum_tiles_cells by done.
  rewrite <- !hammingTerm_misplaced by done. reflexivity.
Qed.

Lemma manhattanDistance_spec s :
  wellFormed (board s) → manhattanDistance s = Some (manhattanSum (board s)).
Proof.
  intros Hwf.
  destruct (shape3_inv _ (wellFormed_shape3 _ Hwf))
    as (t0&t1&t2&t3&t4&t5&t6&t7&t8&Hb).
  pose proof (tiles_range s _ _ _ _ _ _ _ _ _ Hwf Hb) as Hr.
  rewrite !Forall_cons in Hr. destruct_and!.
  rewrite manhattanSum_sum by done.
  rewrite (manhattanDistance_board9 s _ _ _ _ _ _ _ _ _ Hb).
  rewrite Hb in Hwf |- *. rewrite sum_tiles_cells by done.
  rewrite <- !manhattanTerm_gridDistance by done. reflexivity.
Qed.

Lemma misplacedTiles_nonneg b : 0 ≤ misplacedTiles b.
Proof. unfold misplacedTiles. lia. Qed.

Lemma manhattanSum_nonneg b : 0 ≤ manhattanSum b.
Proof.
  unfold manhattanSum. apply sumZ_nonneg, Forall_fmap, Forall_forall.
  intros v _. simpl. destruct (tilePosition b v) as [[x y]|]; lia.
Qed.

(** C9: on a well-formed board [hammingDistance] is the number of non-blank
    tiles that are not on their goal cell, and [manhattanDistance] is the
    sum over the non-blank tiles [v] of
    |row - (v-1) div 3| + |col - (v-1) mod 3|; both are non-negative. *)
Theorem heuristics_meet_spec s :
  wellFormed (board s) →
  hammingDistance s = Some (misplacedTiles (board s)) ∧
  manhattanDistance s = Some (manhattanSum (board s)) ∧
  0 ≤ misplacedTiles (board s) ∧ 0 ≤ manhattanSum (board s).
Proof.
  intros Hwf.
  split_and!;
    auto using hammingDistance_spec, manhattanDistance_spec,
      misplacedTiles_nonneg, manhattanSum_nonneg.
Qed.

Lemma heuristics_meet_spec_witness :
  hammingDistance nearGoal = Some (misplacedTiles (board nearGoal)) ∧
  manhattanDistance nearGoal = Some (manhattanSum (board nearGoal)) ∧
  0 ≤ misplacedTiles (board nearGoal) ∧ 0 ≤ manhattanSum (board nearGoal).
Proof.
  apply (heuristics_meet_spec nearGoal).
  apply (bool_decide_eq_true_1 (wellFormed _)). vm_compute. reflexivity.
Defined.

(** ** Board identities *)

Definition boardId (b : Board) : string := join "," (flat b).

Lemma pretty_digit t : 0 ≤ t ≤ 8 → ∃ c, pretty t = String c "".
Proof. intros Ht. tile_cases t; by eexists. Qed.

Lemma join_cons t l :
  join "," (t :: l) =
  match l with
  | [] => pretty t
  | _ => pretty t +:+ "," +:+ join "," l
  end.
Proof. by destruct l. Qed.

Lemma join_digits_inj l1 l2 :
  Forall (λ t, 0 ≤ t ≤ 8) l1 → Forall (λ t, 0 ≤ t ≤ 8) l2 →
  join "," l1 = join "," l2 → l1 = l2.
Proof.
  intros H1. revert l2.
  induction H1 as [|t l1 Ht H1 IH]; intros l2 H2 Heq.
  - destruct H2 as [|u l2 Hu H2]; [done|]. exfalso.
    rewrite join_cons in Heq. destruct (pretty_digit u Hu) as [c Hc].
    rewrite Hc in Heq. by destruct l2.
  - destruct H2 as [|u l2 Hu H2].
    { exfalso. rewrite join_cons in Heq.
      destruct (pretty_digit t Ht) as [c Hc]. rewrite Hc in Heq.
      by destruct l1. }
    rewrite !join_cons in Heq.
    destruct (pretty_digit t Ht) as [c Hc], (pretty_digit u Hu) as [d Hd].
    rewrite Hc, Hd in Heq.
    assert (t = u ∧ l1 = l2) as [-> ->]; [|done].
    destruct l1 as [|t' l1], l2 as [|u' l2]; simpl in Heq.
    + split; [|done]. apply (inj pretty). congruence.
    + discriminate.
    + discriminate.
    + injection Heq as -> Heq. split.
      * apply (inj pretty). congruence.
      * by apply IH.
Qed.

Lemma boardId_inj b1 b2 :
  wellFormed b1 → wellFormed b2 → boardId b1 = boardId b2 → b1 = b2.
Proof.
  intros Hwf1 Hwf2 Heq.
  apply shape3_flat_inj; [by apply wellFormed_shape3..|].
  apply join_digits_inj; [| |done]; apply Forall_forall; intros t Ht.
  - by apply (wellFormed_range b1).
  - by apply (wellFormed_range b2).
Qed.

Lemma wellFormed_goalBoard : wellFormed goalBoard.
Proof. apply (bool_decide_eq_true_1 (wellFormed _)). by vm_compute. Qed.

Lemma isGoal_boardId s : isGoal s = true ↔ getId s = boardId goalBoard.
Proof. unfold isGoal. by rewrite bool_decide_eq_true. Qed.

Lemma isGoal_spec s :
  wellFormed (board s) → isGoal s = true ↔ board s = goalBoard.
Proof.
  intros Hwf. rewrite isGoal_boardId. split.
  - apply boardId_inj; [done|apply wellFormed_goalBoard].
  - unfold getId. by intros ->.
Qed.

(** When every tile of a well-formed board is the blank or at home, the
    board is the goal board. *)
Lemma all_home_goalBoard t0 t1 t2 t3 t4 t5 t6 t7 t8 :
  wellFormed (board9 t0 t1 t2 t3 t4 t5 t6 t7 t8) →
  (t0 = 0 ∨ t0 = 1) → (t1 = 0 ∨ t1 = 2) → (t2 = 0 ∨ t2 = 3) →
  (t3 = 0 ∨ t3 = 4) → (t4 = 0 ∨ t4 = 5) → (t5 = 0 ∨ t5 = 6) →
  (t6 = 0 ∨ t6 = 7) → (t7 = 0 ∨ t7 = 8) → (t8 = 0 ∨ t8 = 9) →
  board9 t0 t1 t2 t3 t4 t5 t6 t7 t8 = goalBoard.
Proof.
  intros Hwf H0 H1 H2 H3 H4 H5 H6 H7 H8.
  set (b := board9 t0 t1 t2 t3 t4 t5 t6 t7 t8) in *.
  assert (t8 = 0) as ->.
  { assert (0 ≤ t8 ≤ 8); [|lia].
    apply (wellFormed_range b t8 Hwf). unfold b, flat, board9. simpl.
    do 8 apply list_elem_of_further. apply list_elem_of_here. }
  assert (Hne : ∀ x y, (x, y) ≠ (2, 2) → cell b x y ≠ Some 0).
  { intros x y Hxy Hc. apply Hxy. by apply (cell_unique b x y 2 2 0). }
  destruct H0 as [->| ->]; [by destruct (Hne 0 0)|].
  destruct H1 as [->| ->]; [by destruct (Hne 0 1)|].
  destruct H2 as [->| ->]; [by destruct (Hne 0 2)|].
  destruct H3 as [->| ->]; [by destruct (Hne 1 0)|].
  destruct H4 as [->| ->]; [by destruct (Hne 1 1)|].
  destruct H5 as [->| ->]; [by destruct (Hne 1 2)|].
  destruct H6 as [->| ->]; [by destruct (Hne 2 0)|].
  destruct H7 as [->| ->]; [by destruct (Hne 2 1)|].
  done.
Qed.

(** C10: on a well-formed board each heuristic is 0 exactly on the goal
    board, which is also where [isGoal] holds; so a state scored [h = 0] by
    an informed search is a goal state. *)
Theorem heuristic_zero_iff_goal s :
  wellFormed (board s) →
  (hammingDistance s = Some 0 ↔ board s = goalBoard) ∧
  (manhattanDistance s = Some 0 ↔ board s = goalBoard) ∧
  (isGoal s = true ↔ board s = goalBoard).
Proof.
  intros Hwf. split_and!; [| |by apply isGoal_spec].
  - split.
    + destruct (shape3_inv _ (wellFormed_shape3 _ Hwf))
        as (t0&t1&t2&t3&t4&t5&t6&t7&t8&Hb).
      assert (Hr : Forall (λ t, 0 ≤ t ≤ 8) [t0; t1; t2; t3; t4; t5; t6; t7; t8]).
      { apply Forall_forall. intros t Ht. apply (wellFormed_range _ t Hwf).
        by rewrite Hb. }
      rewrite !Forall_cons in Hr. destruct_and!.
      rewrite (hammingDistance_board9 s _ _ _ _ _ _ _ _ _ Hb).
      intros [= Hsum]. rewrite Hb in Hwf |- *.
      change (sumZ [hammingTerm t0 (pos 0 0); hammingTerm t1 (pos 0 1);
        hammingTerm t2 (pos 0 2); hammingTerm t3 (pos 1 0);
        hammingTerm t4 (pos 1 1); hammingTerm t5 (pos 1 2);
        hammingTerm t6 (pos 2 0); hammingTerm t7 (pos 2 1);
        hammingTerm t8 (pos 2 2)] = 0) in Hsum.
      rewrite !hammingTerm_misplaced in Hsum by done.
      apply sumZ_zero in Hsum;
        [|repeat constructor; apply misplaced_nonneg].
      rewrite !Forall_cons in Hsum. destruct_and!.
      apply all_home_goalBoard; [done|..];
        match goal with
        | H : misplaced ?t (?x, ?y) = 0 |- ?t = 0 ∨ _ =>
            by apply (misplaced_zero t x y) in H
        end.
    + intros Hb. by rewrite (hammingDistance_board9 s _ _ _ _ _ _ _ _ _ Hb).
  - split.
    + destruct (shape3_inv _ (wellFormed_shape3 _ Hwf))
        as (t0&t1&t2&t3&t4&t5&t6&t7&t8&Hb).
      assert (Hr : Forall (λ t, 0 ≤ t ≤ 8) [t0; t1; t2; t3; t4; t5; t6; t7; t8]).
      { apply Forall_forall. intros t Ht. apply (wellFormed_range _ t Hwf).
        by rewrite Hb. }
      rewrite !Forall_cons in Hr. destruct_and!.
      rewrite (manhattanDistance_board9 s _ _ _ _ _ _ _ _ _ Hb).
      intros [= Hsum]. rewrite Hb in Hwf |- *.
      change (sumZ [manhattanTerm t0 0 0; manhattanTerm t1 0 1;
        manhattanTerm t2 0 2; manhattanTerm t3 1 0; manhattanTerm t4 1 1;
        manhattanTerm t5 1 2; manhattanTerm t6 2 0; manhattanTerm t7 2 1;
        manhattanTerm t8 2 2] = 0) in Hsum.
      rewrite !manhattanTerm_gridDistance in Hsum by done.
      apply sumZ_zero in Hsum;
        [|repeat constructor; apply gridDistance_nonneg].
      rewrite !Forall_cons in Hsum. destruct_and!.
      apply all_home_goalBoard; [done|..];
        match goal with
        | H : gridDistance ?t (?x, ?y) = 0 |- ?t = 0 ∨ _ =>
            by apply (gridDistance_zero t x y) in H
        end.
    + intros Hb. by rewrite (manhattanDistance_board9 s _ _ _ _ _ _ _ _ _ Hb).
Qed.

Lemma heuristic_zero_iff_goal_witness :
  (hammingDistance nearGoal = Some 0 ↔ board nearGoal = goalBoard) ∧
  (manhattanDistance nearGoal = Some 0 ↔ board nearGoal = goalBoard) ∧
  (isGoal nearGoal = true ↔ board nearGoal = goalBoard).
Proof.
  apply (heuristic_zero_iff_goal nearGoal).
  apply (bool_decide_eq_true_1 (wellFormed _)). vm_compute. reflexivity.
Defined.

(** ** The search loop *)

Lemma run_mono iteration fuel fuel' c o :
  run iteration fuel c = Some o → (fuel ≤ fuel')%nat →
  run iteration fuel' c = Some o.
Proof.
  revert fuel' c. induction fuel as [|fuel IH]; intros fuel' c Hrun Hle;
    [done|].
  destruct fuel' as [|fuel']; [lia|]. simpl in *.
  destruct (iteration c) as [o'|c']; [done|]. apply IH; [done|lia].
Qed.

Lemma run_deterministic iteration fuel1 fuel2 c o1 o2 :
  run iteration fuel1 c = Some o1 → run iteration fuel2 c = Some o2 →
  o1 = o2.
Proof.
  intros H1 H2.
  apply (run_mono _ _ (fuel1 `max` fuel2)) in H1; [|lia].
  apply (run_mono _ _ (fuel1 `max` fuel2)) in H2; [|lia].
  congruence.
Qed.

Lemma run_ext iteration1 iteration2 fuel c :
  (∀ c', iteration1 c' = iteration2 c') →
  run iteration1 fuel c = run iteration2 fuel c.
Proof.
  intros Hext. revert c. induction fuel as [|fuel IH]; intros c; [done|].
  simpl. rewrite Hext. destruct (iteration2 c); [done|]. apply IH.
Qed.

(** An invariant of the loop body holds when the loop returns. *)
Lemma run_invariant iteration (Inv : Config → Prop) (Post : Outcome → Prop) :
  (∀ c c', Inv c → iteration c = inr c' → Inv c') →
  (∀ c o, Inv c → iteration c = inl o → Post o) →
  ∀ fuel c o, Inv c → run iteration fuel c = Some o → Post o.
Proof.
  intros Hstep Hexit fuel. induction fuel as [|fuel IH]; intros c o HI Hrun;
    [done|].
  simpl in Hrun. destruct (iteration c) as [o'|c'] eqn:Hit.
  - injection Hrun as <-. eauto.
  - eauto.
Qed.

(** The loop returns when the body decreases a well-founded order. *)
Lemma run_terminates {A} (R : relation A) (measure : Config → A)
    iteration (Inv : Config → Prop) :
  well_founded R →
  (∀ c c', Inv c → iteration c = inr c' →
     Inv c' ∧ R (measure c') (measure c)) →
  ∀ c, Inv c → ∃ fuel o, run iteration fuel c = Some o.
Proof.
  intros Hwf Hstep c. generalize (eq_refl (measure c)).
  generalize (measure c) at 1. intros a. revert c.
  induction (Hwf a) as [a _ IH]. intros c -> HI.
  destruct (iteration c) as [o|c'] eqn:Hit.
  - exists 1%nat, o. simpl. by rewrite Hit.
  - destruct (Hstep c c' HI Hit) as [HI' HR].
    destruct (IH _ HR c' eq_refl HI') as (fuel & o & Hrun).
    exists (S fuel), o. simpl. by rewrite Hit.
Qed.

(** The configurations at the head of the loop in a run from [c0]. *)
Inductive reachable (iteration : Config → Outcome + Config) (c0 : Config)
    : Config → Prop :=
  | reachable_start : reachable iteration c0 c0
  | reachable_step c c' :
      reachable iteration c0 c → iteration c = inr c' →
      reachable iteration c0 c'.

Lemma reachable_invariant iteration (Inv : Config → Prop) c0 c :
  (∀ c c', Inv c → iteration c = inr c' → Inv c') →
  Inv c0 → reachable iteration c0 c → Inv c.
Proof. intros Hstep H0. induction 1; eauto. Qed.

(** ** The ordered frontier *)

(** Ascending order of a key along a list. *)
Definition ascending (key : PuzzleState → Z) (l : list PuzzleState) : Prop :=
  StronglySorted (λ s t, key s ≤ key t) l.

Lemma findIndex_Some {A} (P : A → Prop) `{∀ x, Decision (P x)} (l : list A) i :
  findIndex P l = Some i →
  ∃ x, l !! i = Some x ∧ P x ∧ Forall (λ y, ¬ P y) (take i l).
Proof.
  unfold findIndex. intros Hf.
  destruct (list_find P l) as [[j x]|] eqn:Hfind; [|done].
  injection Hf as ->. apply list_find_Some in Hfind as (Hx & HP & Hlt).
  exists x. split_and!; [done..|].
  apply Forall_lookup. intros j y [Hy Hj]%lookup_take_Some. eauto.
Qed.

Lemma findIndex_None {A} (P : A → Prop) `{∀ x, Decision (P x)} (l : list A) :
  findIndex P l = None → Forall (λ y, ¬ P y) l.
Proof.
  unfold findIndex. intros Hf.
  destruct (list_find P l) as [[j x]|] eqn:Hfind; [done|].
  by rewrite list_find_None in Hfind.
Qed.

Lemma filter_none {A} (P : A → Prop) `{∀ x, Decision (P x)} (l : list A) :
  Forall (λ x, ¬ P x) l → filter P l = [].
Proof.
  induction 1 as [|x l Hx Hl IH]; [done|]. by rewrite filter_cons_False.
Qed.

(** Where [insertBy] puts the new state: after the longest prefix of states
    whose key does not exceed its own, so immediately before the first
    state with a strictly greater key, or at the back. *)
Lemma insertBy_split key frontier neighbor :
  ∃ l1 l2,
    frontier = l1 ++ l2 ∧
    insertBy key frontier neighbor = l1 ++ neighbor :: l2 ∧
    Forall (λ s, key s ≤ key neighbor) l1 ∧
    match l2 with [] => True | s :: _ => key neighbor < key s end.
Proof.
  unfold insertBy.
  destruct (findIndex _ frontier) as [i|] eqn:Hfind.
  - apply findIndex_Some in Hfind as (x & Hx & HP & Hlt).
    exists (take i frontier), (drop i frontier).
    split_and!; [by rewrite take_drop|done| |].
    + eapply Forall_impl; [exact Hlt|]. simpl. intros; lia.
    + rewrite (drop_S _ x) by done. lia.
  - apply findIndex_None in Hfind. exists frontier, [].
    split_and!; [by rewrite app_nil_r|done| |done].
    eapply Forall_impl; [exact Hfind|]. simpl. intros; lia.
Qed.

Lemma elem_of_insertBy key frontier neighbor s :
  s ∈ insertBy key frontier neighbor ↔ s = neighbor ∨ s ∈ frontier.
Proof.
  destruct (insertBy_split key frontier neighbor) as (l1 & l2 & -> & -> & _).
  rewrite !elem_of_app, elem_of_cons. tauto.
Qed.

Lemma insertBy_Permutation key frontier neighbor :
  insertBy key frontier neighbor ≡ₚ neighbor :: frontier.
Proof.
  destruct (insertBy_split key frontier neighbor) as (l1 & l2 & -> & -> & _).
  by rewrite Permutation_middle.
Qed.

Lemma ascending_insertBy key frontier neighbor :
  ascending key frontier → ascending key (insertBy key frontier neighbor).
Proof.
  unfold ascending.
  destruct (insertBy_split key frontier neighbor)
    as (l1 & l2 & -> & -> & Hl1 & Hl2).
  rewrite !StronglySorted_app. intros (H12 & Hs1 & Hs2).
  assert (Hl2' : Forall (λ s, key neighbor < key s) l2).
  { destruct l2 as [|s l2]; [done|].
    apply StronglySorted_cons in Hs2 as [Hs _].
    constructor; [done|]. eapply Forall_impl; [exact Hs|]. simpl. lia. }
  rewrite Forall_forall in Hl1, Hl2'.
  split_and!; [|done|].
  - intros x1 x2 Hx1 [->|Hx2]%elem_of_cons; [by apply Hl1|by apply H12].
  - apply StronglySorted_cons. split; [|done].
    apply Forall_forall. intros s Hs. specialize (Hl2' s Hs). lia.
Qed.

(** Among the states of one key the frontier keeps the order of insertion:
    [log] lists the states in the order they were inserted. *)
Definition stable (key : PuzzleState → Z) (log frontier : list PuzzleState)
    : Prop :=
  ∀ k, filter (λ s, key s = k) frontier `sublist_of` log.

Lemma stable_insertBy key log frontier neighbor :
  ascending key frontier → stable key log frontier →
  stable key (log ++ [neighbor]) (insertBy key frontier neighbor).
Proof.
  unfold ascending, stable.
  destruct (insertBy_split key frontier neighbor)
    as (l1 & l2 & -> & -> & Hl1 & Hl2).
  rewrite StronglySorted_app. intros (H12 & Hs1 & Hs2) Hst k.
  assert (Hl2' : Forall (λ s, key neighbor < key s) l2).
  { destruct l2 as [|s l2]; [done|].
    apply StronglySorted_cons in Hs2 as [Hs _].
    constructor; [done|]. eapply Forall_impl; [exact Hs|]. simpl. lia. }
  specialize (Hst k). rewrite filter_app in Hst.
  rewrite filter_app, filter_cons.
  destruct (decide (key neighbor = k)) as [Hk|Hk].
  - assert (Hnil : filter (λ s, key s = k) l2 = []).
    { apply filter_none. eapply Forall_impl; [exact Hl2'|].
      simpl. lia. }
    rewrite Hnil in Hst |- *. rewrite app_nil_r in Hst.
    by apply sublist_app.
  - by apply sublist_inserts_r.
Qed.

Lemma stable_tail key log s frontier :
  stable key log (s :: frontier) → stable key log frontier.
Proof.
  intros Hst k. specialize (Hst k). rewrite filter_cons in Hst.
  case_decide; [|done].
  etransitivity; [|exact Hst]. by apply sublist_cons.
Qed.

(** The head of an ascending frontier has a minimal key, and nothing in the
    frontier precedes it. *)
Lemma ascending_head key s frontier :
  ascending key (s :: frontier) → Forall (λ t, key s ≤ key t) frontier.
Proof. by intros [? _]%StronglySorted_cons. Qed.

Lemma elem_of_foldl_insertBy key frontier l s :
  s ∈ foldl (insertBy key) frontier l ↔ s ∈ frontier ∨ s ∈ l.
Proof.
  revert frontier. induction l as [|n l IH]; intros frontier; simpl.
  - rewrite elem_of_nil. tauto.
  - rewrite IH, elem_of_insertBy, elem_of_cons. tauto.
Qed.

Lemma foldl_insertBy_Permutation key frontier l :
  foldl (insertBy key) frontier l ≡ₚ frontier ++ l.
Proof.
  revert frontier. induction l as [|n l IH]; intros frontier; simpl.
  - by rewrite app_nil_r.
  - rewrite IH, insertBy_Permutation. simpl. apply Permutation_middle.
Qed.

Lemma ascending_foldl_insertBy key frontier l :
  ascending key frontier → ascending key (foldl (insertBy key) frontier l).
Proof.
  revert frontier. induction l as [|n l IH]; intros frontier; simpl;
    auto using ascending_insertBy.
Qed.

Lemma stable_foldl_insertBy key log frontier l :
  ascending key frontier → stable key log frontier →
  stable key (log ++ l) (foldl (insertBy key) frontier l).
Proof.
  revert log frontier. induction l as [|n l IH]; intros log frontier; simpl.
  - by rewrite app_nil_r.
  - intros Hasc Hst. rewrite (assoc_L (++) log [n] l : log ++ n :: l = _).
    apply IH; auto using ascending_insertBy, stable_insertBy.
Qed.

(** ** The informed drivers as one loop *)

(** What [bestFirstSearch] and [aStar] do to a fresh neighbor before they
    insert it. *)
Definition scoreH (heuristic : Heuristic) (n : PuzzleState)
    : option PuzzleState :=
  v ← heuristic n; Some (set_h n v).

Definition scoreF (heuristic : Heuristic) (n : PuzzleState)
    : option PuzzleState :=
  v ← heuristic n;
  let n' := set_h n v in Some (set_f n' (g n' + h n')).

(** The body shared by the two informed drivers, for a key and a scoring
    step. *)
Definition informed_visit (key : PuzzleState → Z)
    (score : PuzzleState → option PuzzleState) (explored : gset string)
    (acc : option (list PuzzleState)) (neighbor : PuzzleState)
    : option (list PuzzleState) :=
  frontier ← acc;
  if decide (getId neighbor ∈ explored) then Some frontier
  else n' ← score neighbor; Some (insertBy key frontier n').

Definition informed_iteration (key : PuzzleState → Z)
    (score : PuzzleState → option PuzzleState) (c : Config)
    : Outcome + Config :=
  match frontier c with
  | [] => inl NotFound
  | state :: rest =>
      if isGoal state then inl (Found (reconstructPath state))
      else
        let explored' := {[getId state]} ∪ explored c in
        match getNeighbors state with
        | None => inl Fault
        | Some neighbors =>
            match foldl (informed_visit key score explored') (Some rest)
                    neighbors with
            | None => inl Fault
            | Some frontier' =>
                inr {| frontier := frontier'; explored := explored' |}
            end
        end
  end.

Lemma foldl_ext {A B} (f1 f2 : A → B → A) a l :
  (∀ a' x, f1 a' x = f2 a' x) → foldl f1 a l = foldl f2 a l.
Proof.
  intros Hext. revert a. induction l as [|x l IH]; intros a; [done|].
  simpl. by rewrite Hext, IH.
Qed.

Lemma bestFirst_visit_informed heuristic explored acc n :
  bestFirst_visit heuristic explored acc n =
  informed_visit h (scoreH heuristic) explored acc n.
Proof.
  destruct acc as [frontier|]; [|done]. unfold bestFirst_visit, informed_visit.
  simpl. case_decide; [done|]. unfold scoreH. by destruct (heuristic n).
Qed.

Lemma aStar_visit_informed heuristic explored acc n :
  aStar_visit heuristic explored acc n =
  informed_visit f (scoreF heuristic) explored acc n.
Proof.
  destruct acc as [frontier|]; [|done]. unfold aStar_visit, informed_visit.
  simpl. case_decide; [done|]. unfold scoreF. by destruct (heuristic n).
Qed.

Lemma bestFirst_informed heuristic c :
  bestFirst_iteration heuristic c =
  informed_iteration h (scoreH heuristic) c.
Proof.
  unfold bestFirst_iteration, informed_iteration.
  destruct (frontier c) as [|state rest]; [done|].
  destruct (isGoal state); [done|].
  destruct (getNeighbors state) as [neighbors|]; [|done].
  by rewrite (foldl_ext _ _ _ _
                (bestFirst_visit_informed heuristic
                   ({[getId state]} ∪ explored c))).
Qed.

Lemma aStar_informed heuristic c :
  aStar_iteration heuristic c = informed_iteration f (scoreF heuristic) c.
Proof.
  unfold aStar_iteration, informed_iteration.
  destruct (frontier c) as [|state rest]; [done|].
  destruct (isGoal state); [done|].
  destruct (getNeighbors state) as [neighbors|]; [|done].
  by rewrite (foldl_ext _ _ _ _
                (aStar_visit_informed heuristic
                   ({[getId state]} ∪ explored c))).
Qed.

(** A scored state is the neighbor with [h] and [f] assigned. *)
Definition scoring (score : PuzzleState → option PuzzleState) : Prop :=
  ∀ n n', score n = Some n' → ∃ v w, n' = set_f (set_h n v) w.

Lemma scoreH_scoring heuristic : scoring (scoreH heuristic).
Proof.
  intros n n'. unfold scoreH. destruct (heuristic n) as [v|]; [|done].
  intros [= <-]. exists v, (f n). by destruct n.
Qed.

Lemma scoreF_scoring heuristic : scoring (scoreF heuristic).
Proof.
  intros n n'. unfold scoreF. destruct (heuristic n) as [v|]; [|done].
  intros [= <-]. by eexists _, _.
Qed.

Section informed.
Context (key : PuzzleState → Z) (score : PuzzleState → option PuzzleState).

Lemma informed_visit_None explored neighbors :
  foldl (informed_visit key score explored) None neighbors = None.
Proof. by induction neighbors. Qed.

(** The inner loop inserts, in order, the scored neighbors whose identity
    is not explored. *)
Lemma informed_visit_fold explored frontier neighbors :
  foldl (informed_visit key score explored) (Some frontier) neighbors =
  scored ← mapM score (filter (λ n, getId n ∉ explored) neighbors);
  Some (foldl (insertBy key) frontier scored).
Proof.
  revert frontier. induction neighbors as [|n ns IH]; intros frontier;
    [done|].
  rewrite filter_cons. simpl. destruct (decide (getId n ∈ explored)).
  - rewrite decide_False by tauto. apply IH.
  - rewrite decide_True by done. simpl.
    destruct (score n) as [n'|]; simpl.
    + rewrite IH. by destruct (mapM score _).
    + apply informed_visit_None.
Qed.

Lemma informed_iteration_inr c c' :
  informed_iteration key score c = inr c' →
  ∃ state rest neighbors scored,
    frontier c = state :: rest ∧ isGoal state = false ∧
    getNeighbors state = Some neighbors ∧
    mapM score (filter (λ n, getId n ∉ {[getId state]} ∪ explored c)
                  neighbors) = Some scored ∧
    c' = {| frontier := foldl (insertBy key) rest scored;
            explored := {[getId state]} ∪ explored c |}.
Proof.
  unfold informed_iteration. intros Hit.
  destruct (frontier c) as [|state rest]; [done|].
  destruct (isGoal state) eqn:Hgoal; [done|].
  destruct (getNeighbors state) as [neighbors|] eqn:Hns; [|done].
  rewrite informed_visit_fold in Hit.
  destruct (mapM score _) as [scored|] eqn:Hscored; [|done].
  simpl in Hit. exists state, rest, neighbors, scored.
  split_and!; [done..|]. congruence.
Qed.

Lemma informed_iteration_inl c o :
  informed_iteration key score c = inl o →
  (frontier c = [] ∧ o = NotFound) ∨
  (∃ state rest, frontier c = state :: rest ∧ isGoal state = true ∧
     o = Found (reconstructPath state)) ∨
  (∃ state rest, frontier c = state :: rest ∧ isGoal state = false ∧
     o = Fault ∧
     (getNeighbors state = None ∨
      ∃ neighbors, getNeighbors state = Some neighbors ∧
        mapM score (filter (λ n, getId n ∉ {[getId state]} ∪ explored c)
                      neighbors) = None)).
Proof.
  unfold informed_iteration. intros Hit.
  destruct (frontier c) as [|state rest]; [left; split; congruence|].
  right. destruct (isGoal state) eqn:Hgoal.
  { left. exists state, rest. split_and!; congruence. }
  right. exists state, rest.
  destruct (getNeighbors state) as [neighbors|] eqn:Hns.
  - rewrite informed_visit_fold in Hit.
    destruct (mapM score _) as [scored|] eqn:Hscored; [done|].
    simpl in Hit. split_and!; [done|done|congruence|]. right.
    by exists neighbors.
  - split_and!; [done|done|congruence|]. by left.
Qed.

End informed.

(** ** The loop of [bfs] *)

(** The neighbors [bfs] enqueues: those whose identity is neither explored
    nor the identity of a neighbor enqueued before. *)
Fixpoint fresh (explored : gset string) (neighbors : list PuzzleState)
    : list PuzzleState :=
  match neighbors with
  | [] => []
  | n :: ns =>
      if decide (getId n ∈ explored) then fresh explored ns
      else n :: fresh ({[getId n]} ∪ explored) ns
  end.

(** The identities of a list of states. *)
Definition ids (l : list PuzzleState) : gset string :=
  list_to_set (getId <$> l).

Lemma elem_of_ids l i : i ∈ ids l ↔ ∃ s, s ∈ l ∧ getId s = i.
Proof.
  unfold ids. rewrite elem_of_list_to_set, list_elem_of_fmap. naive_solver.
Qed.

Lemma bfs_visit_fold frontier explored neighbors :
  foldl bfs_visit {| frontier := frontier; explored := explored |} neighbors =
  {| frontier := frontier ++ fresh explored neighbors;
     explored := ids (fresh explored neighbors) ∪ explored |}.
Proof.
  revert frontier explored.
  induction neighbors as [|n ns IH]; intros frontier explored; simpl.
  - rewrite app_nil_r. f_equal. unfold ids. set_solver.
  - unfold bfs_visit at 2. simpl. case_decide; [apply IH|].
    rewrite IH, <- app_assoc. f_equal. unfold ids. simpl. set_solver.
Qed.

Lemma fresh_sublist explored neighbors :
  fresh explored neighbors `sublist_of` neighbors.
Proof.
  revert explored. induction neighbors as [|n ns IH]; intros explored; simpl;
    [done|].
  case_decide; [by apply sublist_cons|by apply sublist_skip].
Qed.

Lemma fresh_not_explored explored neighbors n :
  n ∈ fresh explored neighbors → getId n ∉ explored.
Proof.
  revert explored. induction neighbors as [|n' ns IH]; intros explored; simpl.
  { by intros ?%elem_of_nil. }
  case_decide; [by apply IH|].
  intros [->|Hn]%elem_of_cons; [done|]. apply IH in Hn. set_solver.
Qed.

Lemma fresh_NoDup explored neighbors :
  NoDup (getId <$> fresh explored neighbors).
Proof.
  revert explored. induction neighbors as [|n ns IH]; intros explored; simpl.
  { constructor. }
  case_decide; [by apply IH|]. rewrite fmap_cons. constructor; [|by apply IH].
  intros (n' & Hid & Hn')%list_elem_of_fmap.
  apply fresh_not_explored in Hn'. set_solver.
Qed.

Lemma fresh_covers explored neighbors n :
  n ∈ neighbors → getId n ∈ ids (fresh explored neighbors) ∪ explored.
Proof.
  revert explored. induction neighbors as [|n' ns IH]; intros explored; simpl.
  { by intros ?%elem_of_nil. }
  intros [->|Hn]%elem_of_cons.
  - case_decide; [set_solver|]. unfold ids. simpl. set_solver.
  - case_decide; [by apply IH|].
    specialize (IH ({[getId n']} ∪ explored) Hn).
    unfold ids in *. simpl. set_solver.
Qed.

Lemma bfs_iteration_inr c c' :
  bfs_iteration c = inr c' →
  ∃ state rest neighbors,
    frontier c = state :: rest ∧ isGoal state = false ∧
    getNeighbors state = Some neighbors ∧
    c' = {| frontier :=
              rest ++ fresh ({[getId state]} ∪ explored c) neighbors;
            explored :=
              ids (fresh ({[getId state]} ∪ explored c) neighbors) ∪
              ({[getId state]} ∪ explored c) |}.
Proof.
  unfold bfs_iteration. intros Hit.
  destruct (frontier c) as [|state rest]; [done|].
  destruct (isGoal state) eqn:Hgoal; [done|].
  destruct (getNeighbors state) as [neighbors|] eqn:Hns; [|done].
  rewrite bfs_visit_fold in Hit. exists state, rest, neighbors.
  split_and!; [done..|]. congruence.
Qed.

Lemma bfs_iteration_inl c o :
  bfs_iteration c = inl o →
  (frontier c = [] ∧ o = NotFound) ∨
  (∃ state rest, frontier c = state :: rest ∧ isGoal state = true ∧
     o = Found (reconstructPath state)) ∨
  (∃ state rest, frontier c = state :: rest ∧ isGoal state = false ∧
     o = Fault ∧ getNeighbors state = None).
Proof.
  unfold bfs_iteration. intros Hit.
  destruct (frontier c) as [|state rest]; [left; split; congruence|].
  right. destruct (isGoal state) eqn:Hgoal.
  { left. exists state, rest. split_and!; congruence. }
  right. exists state, rest.
  destruct (getNeighbors state) as [neighbors|] eqn:Hns; [done|].
  split_and!; [done|done|congruence|done].
Qed.

(** ** Paths *)

Lemma reconstructPath_child s p :
  parent s = Some p → reconstructPath s = reconstructPath p ++ [move s].
Proof. destruct s as [b [q|] m gs hs fs]; simpl; congruence. Qed.

Lemma reconstructPath_root s : parent s = None → reconstructPath s = [].
Proof. destruct s as [b [q|] m gs hs fs]; simpl; congruence. Qed.

Lemma applyMoves_app b ms1 ms2 :
  applyMoves b (ms1 ++ ms2) = b' ← applyMoves b ms1; applyMoves b' ms2.
Proof.
  revert b. induction ms1 as [|m ms1 IH]; intros b; simpl; [done|].
  destruct (applyMove b m); simpl; [apply IH|done].
Qed.

(** The parent chain of a state made by successor generation spells the
    slides that lead from the root's board to its own, and [g] counts
    them. *)
Lemma descends_path root s :
  wellFormed (board root) → parent root = None → descends root s →
  ∃ ms, reconstructPath s = Some <$> ms ∧ Forall (λ m, m ∈ moves) ms ∧
        applyMoves (board root) ms = Some (board s) ∧
        g s = g root + Z.of_nat (length ms).
Proof.
  intros Hroot Hpar Hs. induction Hs as [|p neighbors n v w Hp IH Hns Hn].
  { exists []. rewrite reconstructPath_root by done. split_and!; try done.
    simpl. lia. }
  destruct IH as (ms & Hpath & Hms & Happ & Hg).
  pose proof (descends_wellFormed _ _ Hroot Hp) as Hwf.
  rewrite getNeighbors_wf in Hns by done. injection Hns as <-.
  apply elem_of_neighbors in Hn as (m & b' & Hm & Ha & ->).
  exists (ms ++ [m]). simpl. split_and!.
  - by rewrite Hpath, fmap_app.
  - apply Forall_app. split; [done|]. by constructor.
  - rewrite applyMoves_app, Happ. simpl. by rewrite Ha.
  - rewrite length_app. simpl. lia.
Qed.

Lemma mapM_elem_of {A B} (f : A → option B) l k y :
  mapM f l = Some k → y ∈ k → ∃ x, x ∈ l ∧ f x = Some y.
Proof.
  intros Hm%mapM_Some_1. induction Hm as [|x y' l k Hxy Hm IH].
  { by intros ?%elem_of_nil. }
  intros [->|Hy]%elem_of_cons.
  - exists x. split; [left|done].
  - destruct (IH Hy) as (x' & ? & ?). exists x'. split; [by right|done].
Qed.

Lemma mapM_elem_of_inv {A B} (f : A → option B) l k x :
  mapM f l = Some k → x ∈ l → ∃ y, y ∈ k ∧ f x = Some y.
Proof.
  intros Hm%mapM_Some_1. induction Hm as [|x' y l k Hxy Hm IH].
  { by intros ?%elem_of_nil. }
  intros [->|Hx]%elem_of_cons.
  - exists y. split; [left|done].
  - destruct (IH Hx) as (y' & ? & ?). exists y'. split; [by right|done].
Qed.

(** ** Every frontier state descends from the root *)

Lemma bfs_descends root c c' :
  wellFormed (board root) →
  Forall (descends root) (frontier c) → bfs_iteration c = inr c' →
  Forall (descends root) (frontier c').
Proof.
  intros Hroot HF (state & rest & neighbors & Hfr & _ & Hns & ->)%bfs_iteration_inr.
  rewrite Hfr in HF. apply Forall_cons in HF as [Hstate Hrest]. simpl.
  apply Forall_app. split; [done|]. apply Forall_forall. intros n Hn.
  apply (sublist_subseteq _ _ (fresh_sublist _ _)) in Hn.
  eauto using descends_unscored, descends_wellFormed.
Qed.

Lemma informed_descends key score root c c' :
  scoring score →
  Forall (descends root) (frontier c) →
  informed_iteration key score c = inr c' →
  Forall (descends root) (frontier c').
Proof.
  intros Hscore HF
    (state & rest & neighbors & scored & Hfr & _ & Hns & Hsc & ->)%informed_iteration_inr.
  rewrite Hfr in HF. apply Forall_cons in HF as [Hstate Hrest]. simpl.
  apply Forall_forall. intros n [Hn|Hn]%elem_of_foldl_insertBy.
  { by eapply Forall_forall in Hrest. }
  destruct (mapM_elem_of _ _ _ _ Hsc Hn) as (n0 & Hn0 & Hscn).
  destruct (Hscore _ _ Hscn) as (v & w & ->).
  apply list_elem_of_filter in Hn0 as [_ Hn0].
  eauto using descends_child.
Qed.

Lemma found_path_solves root state :
  wellFormed (board root) → parent root = None →
  descends root state → isGoal state = true →
  ∃ ms, reconstructPath state = Some <$> ms ∧ solution (board root) ms ∧
        g state = g root + Z.of_nat (length ms).
Proof.
  intros Hroot Hpar Hs Hgoal.
  destruct (descends_path root state Hroot Hpar Hs)
    as (ms & Hpath & Hms & Happ & Hg).
  apply isGoal_spec in Hgoal; [|eauto using descends_wellFormed].
  exists ms. split_and!; [done| |done]. split; [done|]. by rewrite <- Hgoal.
Qed.

(** C1: whenever one of the three drivers returns a move array for a
    well-formed board, the array holds cardinal moves, and applying them in
    order to the input board - each move sliding the tile at
    (blankRow + dx, blankCol + dy) into the blank's cell - ends on the goal
    board. *)
Theorem returned_path_solves b heuristic fuel path :
  wellFormed b →
  bfs fuel (new_PuzzleState b None None) = Some (Found path) ∨
  bestFirstSearch fuel (new_PuzzleState b None None) heuristic
    = Some (Found path) ∨
  aStar fuel (new_PuzzleState b None None) heuristic = Some (Found path) →
  ∃ ms, path = Some <$> ms ∧ Forall (λ m, m ∈ moves) ms ∧
        applyMoves b ms = Some goalBoard.
Proof.
  intros Hwf Hrun. set (root := new_PuzzleState b None None) in *.
  assert (Hpost : ∀ c o, Forall (descends root) (frontier c) →
    (bfs_iteration c = inl o ∨
     informed_iteration h (scoreH heuristic) c = inl o ∨
     informed_iteration f (scoreF heuristic) c = inl o) →
    o = Found path →
    ∃ ms, path = Some <$> ms ∧ Forall (λ m, m ∈ moves) ms ∧
          applyMoves b ms = Some goalBoard).
  { intros c o HF Hit ->.
    assert (∃ state rest, frontier c = state :: rest ∧ isGoal state = true ∧
              path = reconstructPath state) as (state & rest & Hfr & Hg & ->).
    { destruct Hit as [Hit|[Hit|Hit]].
      - apply bfs_iteration_inl in Hit
          as [[_ ?]|[(s & r & ? & ? & ?)|(s & r & _ & _ & ? & _)]];
          [done| |done]. exists s, r. split_and!; congruence.
      - apply informed_iteration_inl in Hit
          as [[_ ?]|[(s & r & ? & ? & ?)|(s & r & _ & _ & ? & _)]];
          [done| |done]. exists s, r. split_and!; congruence.
      - apply informed_iteration_inl in Hit
          as [[_ ?]|[(s & r & ? & ? & ?)|(s & r & _ & _ & ? & _)]];
          [done| |done]. exists s, r. split_and!; congruence. }
    rewrite Hfr in HF. apply Forall_cons in HF as [Hs _].
    destruct (found_path_solves root state) as (ms & ? & [? ?] & _); eauto. }
  assert (Hstart : Forall (descends root) (frontier (start root))).
  { repeat constructor. }
  destruct Hrun as [Hrun|[Hrun|Hrun]].
  - eapply (run_invariant bfs_iteration
      (λ c, Forall (descends root) (frontier c))
      (λ o, o = Found path → _)); [..|exact Hrun|done];
      [by eauto using bfs_descends| |done].
    intros c o HF Hit. apply (Hpost c o HF). by left.
  - unfold bestFirstSearch in Hrun.
    rewrite (run_ext _ _ _ _ (bestFirst_informed heuristic)) in Hrun.
    eapply (run_invariant _
      (λ c, Forall (descends root) (frontier c))
      (λ o, o = Found path → _)); [..|exact Hrun|done];
      [by eauto using informed_descends, scoreH_scoring| |done].
    intros c o HF Hit. apply (Hpost c o HF). right. by left.
  - unfold aStar in Hrun.
    rewrite (run_ext _ _ _ _ (aStar_informed heuristic)) in Hrun.
    eapply (run_invariant _
      (λ c, Forall (descends root) (frontier c))
      (λ o, o = Found path → _)); [..|exact Hrun|done];
      [by eauto using informed_descends, scoreF_scoring| |done].
    intros c o HF Hit. apply (Hpost c o HF). right. by right.
Qed.

Lemma returned_path_solves_witness :
  ∃ ms, [Some (1, 0)] = Some <$> ms ∧ Forall (λ m, m ∈ moves) ms ∧
        applyMoves [[1; 2; 3]; [4; 5; 0]; [7; 8; 6]] ms = Some goalBoard.
Proof.
  apply (returned_path_solves [[1; 2; 3]; [4; 5; 0]; [7; 8; 6]]
           manhattanDistance 2 [Some (1, 0)]).
  - apply (bool_decide_eq_true_1 (wellFormed _)). vm_compute. reflexivity.
  - left. vm_compute. reflexivity.
Defined.

(** ** Frontier and explored set of [bfs] *)

(** Once the root is expanded, the identities in the frontier are distinct
    and all marked explored. *)
Definition marked (c : Config) : Prop :=
  NoDup (getId <$> frontier c) ∧ ids (frontier c) ⊆ explored c.

Lemma marked_visits rest explored neighbors :
  NoDup (getId <$> rest) → ids rest ⊆ explored →
  marked (foldl bfs_visit {| frontier := rest; explored := explored |}
            neighbors).
Proof.
  intros Hnd Hsub. rewrite bfs_visit_fold. unfold marked. simpl. split.
  - rewrite fmap_app. apply NoDup_app. split_and!; [done| |apply fresh_NoDup].
    intros i Hi (n & -> & Hn)%list_elem_of_fmap.
    apply fresh_not_explored in Hn. apply Hn, Hsub.
    apply list_elem_of_fmap in Hi as (s & -> & Hs).
    apply elem_of_ids. eauto.
  - intros i (s & [Hs|Hs]%elem_of_app & <-)%elem_of_ids.
    + apply elem_of_union_r, Hsub, elem_of_ids. eauto.
    + apply elem_of_union_l, elem_of_ids. eauto.
Qed.

Lemma bfs_marked initialState c :
  reachable bfs_iteration (start initialState) c →
  c = start initialState ∨ marked c.
Proof.
  induction 1 as [|c c' Hc IH Hit]; [by left|]. right.
  apply bfs_iteration_inr in Hit as (state & rest & neighbors & Hfr & _ & _ & ->).
  rewrite <- bfs_visit_fold. apply marked_visits.
  - destruct IH as [->|[Hnd _]].
    + simpl in Hfr. injection Hfr as <- <-. constructor.
    + rewrite Hfr, fmap_cons in Hnd. by apply NoDup_cons in Hnd as [_ ?].
  - destruct IH as [->|[_ Hsub]].
    + simpl in Hfr. injection Hfr as <- <-. unfold ids. set_solver.
    + rewrite Hfr in Hsub. unfold ids in *. set_solver.
Qed.

(** The configuration after [k] passes through a loop body. *)
Fixpoint iterate (iteration : Config → Outcome + Config) (k : nat)
    (c : Config) : option Config :=
  match k with
  | O => Some c
  | S k' =>
      match iteration c with
      | inl _ => None
      | inr c' => iterate iteration k' c'
      end
  end.

Lemma iterate_reachable iteration k c0 c :
  iterate iteration k c0 = Some c → reachable iteration c0 c.
Proof.
  assert (H : ∀ c1, reachable iteration c0 c1 →
            iterate iteration k c1 = Some c → reachable iteration c0 c).
  { induction k as [|k IH]; intros c1 Hc1; simpl.
    - by intros [= <-].
    - destruct (iteration c1) as [o|c2] eqn:Hit; [done|].
      apply IH. by eapply reachable_step. }
  apply H. constructor.
Qed.

(** A frontier of two states with one identity. *)
Definition duplicated (c : Config) : bool :=
  negb (bool_decide (NoDup (getId <$> frontier c))).

Definition duplicatedAfter (iteration : Config → Outcome + Config)
    (k : nat) (b : Board) : bool :=
  match iterate iteration k (start (new_PuzzleState b None None)) with
  | Some c => duplicated c
  | None => false
  end.

Lemma duplicatedAfter_reachable iteration k b :
  duplicatedAfter iteration k b = true →
  ∃ c, reachable iteration (start (new_PuzzleState b None None)) c ∧
       ¬ NoDup (getId <$> frontier c).
Proof.
  unfold duplicatedAfter.
  destruct (iterate _ _ _) as [c|] eqn:Hit; [|done].
  intros Hd. exists c. split; [by eapply iterate_reachable|].
  unfold duplicated in Hd. apply negb_true_iff in Hd.
  by apply bool_decide_eq_false in Hd.
Qed.

(** C5: [bfs] skips a neighbor whose identity is explored and marks every
    other neighbor explored in the same step that enqueues it, so at every
    point of a run - at the head of the loop and after each pass through
    the body of the inner loop - the identities in its frontier are
    distinct.  [bestFirstSearch] and [aStar] only filter: a neighbor whose
    identity is explored is dropped, every other neighbor is scored and
    inserted, and the explored set is not touched; one pass through the
    outer loop adds to the explored set the identity of the state it pops
    and nothing else, and inserts exactly the neighbors that pass the
    filter.  So their frontiers can hold two states of one identity. *)
Theorem explored_marking initialState heuristic :
  (∀ c n, getId n ∉ explored c →
     bfs_visit c n = {| frontier := frontier c ++ [n];
                        explored := {[getId n]} ∪ explored c |}) ∧
  (∀ c n, getId n ∈ explored c → bfs_visit c n = c) ∧
  (∀ c, reachable bfs_iteration (start initialState) c →
     NoDup (getId <$> frontier c) ∧
     ∀ state rest neighbors k,
       frontier c = state :: rest → getNeighbors state = Some neighbors →
       NoDup (getId <$> frontier
         (foldl bfs_visit
            {| frontier := rest; explored := {[getId state]} ∪ explored c |}
            (take k neighbors)))) ∧
  (∀ (explored : gset string) frontier n, getId n ∈ explored →
     bestFirst_visit heuristic explored (Some frontier) n = Some frontier ∧
     aStar_visit heuristic explored (Some frontier) n = Some frontier) ∧
  (∀ (explored : gset string) frontier n v,
     getId n ∉ explored → heuristic n = Some v →
     bestFirst_visit heuristic explored (Some frontier) n
       = Some (insertBy h frontier (set_h n v)) ∧
     aStar_visit heuristic explored (Some frontier) n
       = Some (insertBy f frontier (set_f (set_h n v) (g n + v)))) ∧
  (∀ c c', bestFirst_iteration heuristic c = inr c' →
     ∃ state rest neighbors scored,
       frontier c = state :: rest ∧ getNeighbors state = Some neighbors ∧
       explored c' = {[getId state]} ∪ explored c ∧
       mapM (scoreH heuristic)
         (filter (λ n, getId n ∉ explored c') neighbors) = Some scored ∧
       frontier c' = foldl (insertBy h) rest scored) ∧
  (∀ c c', aStar_iteration heuristic c = inr c' →
     ∃ state rest neighbors scored,
       frontier c = state :: rest ∧ getNeighbors state = Some neighbors ∧
       explored c' = {[getId state]} ∪ explored c ∧
       mapM (scoreF heuristic)
         (filter (λ n, getId n ∉ explored c') neighbors) = Some scored ∧
       frontier c' = foldl (insertBy f) rest scored) ∧
  (∃ b c, wellFormed b ∧
     reachable (bestFirst_iteration manhattanDistance)
       (start (new_PuzzleState b None None)) c ∧
     ¬ NoDup (getId <$> frontier c)) ∧
  (∃ b c, wellFormed b ∧
     reachable (aStar_iteration manhattanDistance)
       (start (new_PuzzleState b None None)) c ∧
     ¬ NoDup (getId <$> frontier c)).
Proof.
  split_and!.
  - intros c n Hn. unfold bfs_visit. by rewrite decide_False.
  - intros c n Hn. unfold bfs_visit. by rewrite decide_True.
  - intros c Hc. apply bfs_marked in Hc. split.
    { destruct Hc as [->|[? _]]; [|done]. simpl. repeat constructor.
      by intros ?%elem_of_nil. }
    intros state rest neighbors k Hfr _. apply marked_visits.
    + destruct Hc as [->|[Hnd _]].
      * simpl in Hfr. injection Hfr as <- <-. constructor.
      * rewrite Hfr, fmap_cons in Hnd. by apply NoDup_cons in Hnd as [_ ?].
    + destruct Hc as [->|[_ Hsub]].
      * simpl in Hfr. injection Hfr as <- <-. unfold ids. set_solver.
      * rewrite Hfr in Hsub. unfold ids in *. set_solver.
  - intros E fr n Hn. unfold bestFirst_visit, aStar_visit. simpl.
    by rewrite !decide_True.
  - intros E fr n v Hn Hv. unfold bestFirst_visit, aStar_visit. simpl.
    by rewrite !decide_False, Hv.
  - intros c c' Hit. rewrite bestFirst_informed in Hit.
    apply informed_iteration_inr in Hit
      as (s & r & ns & scored & ? & _ & ? & ? & ->).
    by exists s, r, ns, scored.
  - intros c c' Hit. rewrite aStar_informed in Hit.
    apply informed_iteration_inr in Hit
      as (s & r & ns & scored & ? & _ & ? & ? & ->).
    by exists s, r, ns, scored.
  - exists [[6; 1; 3]; [4; 0; 8]; [7; 2; 5]].
    destruct (duplicatedAfter_reachable
                (bestFirst_iteration manhattanDistance) 13
                [[6; 1; 3]; [4; 0; 8]; [7; 2; 5]]) as (c & ? & ?).
    { by vm_compute. }
    exists c. split_and!; [|done..].
    apply (bool_decide_eq_true_1 (wellFormed _)). by vm_compute.
  - exists [[1; 2; 3]; [4; 0; 8]; [7; 6; 5]].
    destruct (duplicatedAfter_reachable
                (aStar_iteration manhattanDistance) 11
                [[1; 2; 3]; [4; 0; 8]; [7; 6; 5]]) as (c & ? & ?).
    { by vm_compute. }
    exists c. split_and!; [|done..].
    apply (bool_decide_eq_true_1 (wellFormed _)). by vm_compute.
Qed.

(** ** Order in the frontier of the informed searches *)

(** The inner loop of an informed driver, keeping beside the frontier the
    log of the states inserted so far, in the order of insertion. *)
Definition logging_visit (key : PuzzleState → Z)
    (score : PuzzleState → option PuzzleState) (explored : gset string)
    (acc : option (list PuzzleState * list PuzzleState))
    (neighbor : PuzzleState) : option (list PuzzleState * list PuzzleState) :=
  '(frontier, log) ← acc;
  if decide (getId neighbor ∈ explored) then Some (frontier, log)
  else n' ← score neighbor; Some (insertBy key frontier n', log ++ [n']).

(** A run with its insertion log. *)
Inductive logged (key : PuzzleState → Z)
    (score : PuzzleState → option PuzzleState) (c0 : Config)
    : Config → list PuzzleState → Prop :=
  | logged_start : logged key score c0 c0 (frontier c0)
  | logged_step c log state rest neighbors frontier' log' :
      logged key score c0 c log →
      frontier c = state :: rest → isGoal state = false →
      getNeighbors state = Some neighbors →
      foldl (logging_visit key score ({[getId state]} ∪ explored c))
        (Some (rest, log)) neighbors = Some (frontier', log') →
      logged key score c0
        {| frontier := frontier'; explored := {[getId state]} ∪ explored c |}
        log'.

(** What the frontier of an informed run looks like, for the key the driver
    orders by: ascending, equal keys in the order of the log, and so headed
    by a state of minimal key that was inserted before every other state of
    that key. *)
Definition ordered (key : PuzzleState → Z) (log frontier : list PuzzleState)
    : Prop :=
  ascending key frontier ∧ stable key log frontier ∧
  ∀ state rest, frontier = state :: rest →
    Forall (λ t, key state ≤ key t) rest ∧
    ∀ t, t ∈ rest → key t = key state → [state; t] `sublist_of` log.

Lemma ascending_stable_ordered key log frontier :
  ascending key frontier → stable key log frontier →
  ordered key log frontier.
Proof.
  intros Hasc Hst. split_and!; [done..|]. intros state rest ->.
  split; [by apply ascending_head|]. intros t Ht Hk.
  etransitivity; [|apply (Hst (key state))].
  rewrite filter_cons_True by done. apply sublist_skip.
  apply list_elem_of_split in Ht as (l1 & l2 & ->).
  rewrite filter_app, filter_cons_True by done.
  apply sublist_inserts_l, sublist_skip, sublist_nil_l.
Qed.

Section logging.
Context (key : PuzzleState → Z) (score : PuzzleState → option PuzzleState).

Lemma logging_visit_None explored neighbors :
  foldl (logging_visit key score explored) None neighbors = None.
Proof. by induction neighbors. Qed.

(** Forgetting the log gives the loop of the driver. *)
Lemma logging_visit_erase explored frontier log neighbors :
  fst <$> foldl (logging_visit key score explored) (Some (frontier, log))
            neighbors =
  foldl (informed_visit key score explored) (Some frontier) neighbors.
Proof.
  revert frontier log.
  induction neighbors as [|n ns IH]; intros frontier log; [done|].
  simpl. case_decide; [apply IH|].
  destruct (score n) as [n'|]; simpl; [apply IH|].
  by rewrite logging_visit_None, informed_visit_None.
Qed.

Lemma logging_visit_stable explored frontier log neighbors frontier' log' :
  ascending key frontier → stable key log frontier →
  foldl (logging_visit key score explored) (Some (frontier, log)) neighbors
    = Some (frontier', log') →
  ascending key frontier' ∧ stable key log' frontier'.
Proof.
  revert frontier log.
  induction neighbors as [|n ns IH]; intros frontier log Hasc Hst; simpl.
  { by intros [= <- <-]. }
  case_decide; [by apply IH|].
  destruct (score n) as [n'|]; simpl.
  - apply IH; auto using ascending_insertBy, stable_insertBy.
  - by rewrite logging_visit_None.
Qed.

Lemma logged_reachable c0 c log :
  logged key score c0 c log → reachable (informed_iteration key score) c0 c.
Proof.
  induction 1 as [|c log state rest neighbors frontier' log' _ IH Hfr Hg Hns Hfold];
    [constructor|].
  eapply reachable_step; [exact IH|].
  unfold informed_iteration. rewrite Hfr, Hg, Hns.
  by rewrite <- (logging_visit_erase _ _ log), Hfold.
Qed.

Lemma reachable_logged c0 c :
  reachable (informed_iteration key score) c0 c →
  ∃ log, logged key score c0 c log.
Proof.
  induction 1 as [|c c' _ [log IH] Hit]; [eexists; constructor|].
  unfold informed_iteration in Hit.
  destruct (frontier c) as [|state rest] eqn:Hfr; [done|].
  destruct (isGoal state) eqn:Hg; [done|].
  destruct (getNeighbors state) as [neighbors|] eqn:Hns; [|done].
  rewrite <- (logging_visit_erase _ _ log) in Hit.
  destruct (foldl (logging_visit _ _ _) _ _) as [[frontier' log']|] eqn:Hfold;
    [|done].
  simpl in Hit. exists log'.
  assert (c' = {| frontier := frontier';
                  explored := {[getId state]} ∪ explored c |}) as ->
    by congruence.
  by eapply logged_step.
Qed.

Lemma logged_stable c0 c log :
  ascending key (frontier c0) → logged key score c0 c log →
  ascending key (frontier c) ∧ stable key log (frontier c).
Proof.
  intros H0.
  induction 1 as [|c log state rest neighbors frontier' log' _ IH Hfr Hg Hns Hfold].
  { split; [done|]. intros k. apply sublist_filter. }
  destruct IH as [Hasc Hst]. rewrite Hfr in Hasc, Hst. simpl.
  eapply logging_visit_stable; [| |exact Hfold].
  - by apply StronglySorted_cons in Hasc as [_ ?].
  - by eapply stable_tail.
Qed.

(** Order at every point of a run: at the head of the loop, and after each
    pass through the inner loop. *)
Lemma logged_points c0 c :
  ascending key (frontier c0) →
  reachable (informed_iteration key score) c0 c →
  ∃ log, logged key score c0 c log ∧ ordered key log (frontier c) ∧
    ∀ state rest neighbors k frontier',
      frontier c = state :: rest →
      foldl (informed_visit key score ({[getId state]} ∪ explored c))
        (Some rest) (take k neighbors) = Some frontier' →
      ∃ log',
        foldl (logging_visit key score ({[getId state]} ∪ explored c))
          (Some (rest, log)) (take k neighbors) = Some (frontier', log') ∧
        ordered key log' frontier'.
Proof.
  intros H0 Hc. destruct (reachable_logged c0 c Hc) as [log Hlog].
  exists log. destruct (logged_stable c0 c log H0 Hlog) as [Hasc Hst].
  split_and!; [done|by apply ascending_stable_ordered|].
  intros state rest neighbors k frontier' Hfr Hfold.
  rewrite <- (logging_visit_erase _ _ log) in Hfold.
  destruct (foldl (logging_visit _ _ _) _ _) as [[fr log']|] eqn:Hlogging;
    [|done].
  simpl in Hfold. injection Hfold as ->. exists log'. split; [done|].
  rewrite Hfr in Hasc, Hst.
  apply ascending_stable_ordered;
    eapply logging_visit_stable; try exact Hlogging;
    eauto using stable_tail;
    by apply StronglySorted_cons in Hasc as [_ ?].
Qed.

End logging.

Lemma reachable_ext iteration1 iteration2 c0 c :
  (∀ c', iteration1 c' = iteration2 c') →
  reachable iteration1 c0 c → reachable iteration2 c0 c.
Proof.
  intros Hext. induction 1 as [|c c' _ IH Hit]; [constructor|].
  eapply reachable_step; [exact IH|]. by rewrite <- Hext.
Qed.

(** C6: [insertBy] - the [findIndex]/[push]/[splice] block of the two
    informed drivers - puts the new state immediately before the first
    state whose key is strictly greater, at the back when there is none.
    So in every run of [bestFirstSearch] (key [h]) and of [aStar] (key [f])
    the frontier is ascending in the key at the head of the loop and after
    every pass through the inner loop, states of equal key stand in the
    order they were inserted, and the state [shift] removes has a minimal
    key and was inserted before every other state of that key. *)
Theorem frontier_ordered initialState heuristic :
  (∀ key frontier neighbor, ∃ l1 l2,
     frontier = l1 ++ l2 ∧
     insertBy key frontier neighbor = l1 ++ neighbor :: l2 ∧
     Forall (λ s, key s ≤ key neighbor) l1 ∧
     match l2 with [] => True | s :: _ => key neighbor < key s end) ∧
  (∀ c, reachable (bestFirst_iteration heuristic) (start initialState) c →
     ∃ log, logged h (scoreH heuristic) (start initialState) c log ∧
       ordered h log (frontier c) ∧
       ∀ state rest neighbors k frontier',
         frontier c = state :: rest →
         foldl (bestFirst_visit heuristic ({[getId state]} ∪ explored c))
           (Some rest) (take k neighbors) = Some frontier' →
         ∃ log',
           foldl (logging_visit h (scoreH heuristic)
                    ({[getId state]} ∪ explored c))
             (Some (rest, log)) (take k neighbors) = Some (frontier', log') ∧
           ordered h log' frontier') ∧
  (∀ c, reachable (aStar_iteration heuristic) (start initialState) c →
     ∃ log, logged f (scoreF heuristic) (start initialState) c log ∧
       ordered f log (frontier c) ∧
       ∀ state rest neighbors k frontier',
         frontier c = state :: rest →
         foldl (aStar_visit heuristic ({[getId state]} ∪ explored c))
           (Some rest) (take k neighbors) = Some frontier' →
         ∃ log',
           foldl (logging_visit f (scoreF heuristic)
                    ({[getId state]} ∪ explored c))
             (Some (rest, log)) (take k neighbors) = Some (frontier', log') ∧
           ordered f log' frontier').
Proof.
  assert (Hstart : ∀ key, ascending key (frontier (start initialState))).
  { intros key. repeat constructor. }
  split_and!.
  - apply insertBy_split.
  - intros c Hc.
    apply (reachable_ext _ _ _ _ (bestFirst_informed heuristic)) in Hc.
    destruct (logged_points h (scoreH heuristic) _ _ (Hstart h) Hc)
      as (log & Hlog & Hord & Hpoints).
    exists log. split_and!; [done..|].
    intros state rest neighbors k frontier' Hfr Hfold.
    apply (Hpoints state rest neighbors k frontier' Hfr).
    by rewrite <- (foldl_ext _ _ _ _
                     (bestFirst_visit_informed heuristic
                        ({[getId state]} ∪ explored c))).
  - intros c Hc.
    apply (reachable_ext _ _ _ _ (aStar_informed heuristic)) in Hc.
    destruct (logged_points f (scoreF heuristic) _ _ (Hstart f) Hc)
      as (log & Hlog & Hord & Hpoints).
    exists log. split_and!; [done..|].
    intros state rest neighbors k frontier' Hfr Hfold.
    apply (Hpoints state rest neighbors k frontier' Hfr).
    by rewrite <- (foldl_ext _ _ _ _
                     (aStar_visit_informed heuristic
                        ({[getId state]} ∪ explored c))).
Qed.

(** ** The state space *)

(** The identities of all well-formed boards form a finite set; it is only
    counted, never computed. *)
Lemma universe_exists :
  { U : gset string | ∀ b, wellFormed b → boardId b ∈ U }.
Proof.
  exists (list_to_set (join "," <$> permutations [0; 1; 2; 3; 4; 5; 6; 7; 8])).
  intros b (_ & _ & Hp). unfold boardId.
  apply elem_of_list_to_set, list_elem_of_fmap. exists (flat b).
  split; [reflexivity|]. apply permutations_Permutation. symmetry. exact Hp.
Qed.

Definition universe : gset string := proj1_sig universe_exists.

Lemma wellFormed_universe b : wellFormed b → boardId b ∈ universe.
Proof. apply (proj2_sig universe_exists). Qed.

(** Identities not yet explored. *)
Definition unexplored (c : Config) : nat := size (universe ∖ explored c).

Lemma size_after_marking (E : gset string) l :
  NoDup (getId <$> l) → ids l ⊆ universe → (∀ n, n ∈ l → getId n ∉ E) →
  (size (universe ∖ (ids l ∪ E)) + length l = size (universe ∖ E))%nat.
Proof.
  intros Hnd Hsub Hnew.
  assert (Hdisj : ids l ## universe ∖ (ids l ∪ E)) by set_solver.
  assert (Heq : universe ∖ E = ids l ∪ universe ∖ (ids l ∪ E)).
  { apply set_eq. intros i. rewrite elem_of_union, !elem_of_difference,
      elem_of_union. split.
    - intros [? ?]. destruct (decide (i ∈ ids l)); tauto.
    - intros [Hi|[? ?]]; [|tauto]. split; [by apply Hsub|].
      apply elem_of_ids in Hi as (n & Hn & <-). by apply Hnew. }
  rewrite Heq, (size_union (ids l) _ Hdisj).
  assert (size (ids l) = length l) as Hsz.
  { unfold ids. by rewrite size_list_to_set, length_fmap. }
  lia.
Qed.

Lemma unexplored_mono (E1 E2 : gset string) :
  E1 ⊆ E2 → (size (universe ∖ E2) ≤ size (universe ∖ E1))%nat.
Proof. intros Hsub. apply subseteq_size. set_solver. Qed.

Lemma unexplored_add (E : gset string) i :
  i ∈ universe → i ∉ E →
  (size (universe ∖ ({[i]} ∪ E)) < size (universe ∖ E))%nat.
Proof.
  intros HU HE. apply subset_size. apply strict_spec_alt. split.
  - set_solver.
  - intros Heq. assert (i ∈ universe ∖ E) as Hi by set_solver.
    rewrite <- Heq in Hi. set_solver.
Qed.

(** Slides that keep to a set of identities closed under slides do not
    leave it. *)
Definition closedUnder (E : gset string) (b : Board) : Prop :=
  ∀ m b', m ∈ moves → applyMove b m = Some b' → boardId b' ∈ E.

Lemma closed_applyMoves (E : gset string) b ms b' :
  (∀ b1, wellFormed b1 → boardId b1 ∈ E → closedUnder E b1) →
  wellFormed b → boardId b ∈ E → Forall (λ m, m ∈ moves) ms →
  applyMoves b ms = Some b' → boardId b' ∈ E.
Proof.
  intros Hclosed Hwf Hb Hms. revert b Hwf Hb.
  induction Hms as [|m ms Hm Hms IH]; intros b Hwf Hb; simpl.
  { by intros [= <-]. }
  destruct (applyMove b m) as [b1|] eqn:Ha; [|done]. simpl.
  apply IH; [by eapply applyMove_wellFormed|]. by eapply Hclosed.
Qed.

Lemma applyMoves_wellFormed b ms b' :
  wellFormed b → applyMoves b ms = Some b' → wellFormed b'.
Proof.
  revert b. induction ms as [|m ms IH]; intros b Hwf; simpl.
  { by intros [= <-]. }
  destruct (applyMove b m) as [b1|] eqn:Ha; [|done]. simpl.
  apply IH. by eapply applyMove_wellFormed.
Qed.

Lemma getId_boardId s : getId s = boardId (board s).
Proof. done. Qed.

Lemma descends_universe root s :
  wellFormed (board root) → descends root s → getId s ∈ universe.
Proof.
  intros. rewrite getId_boardId.
  eauto using wellFormed_universe, descends_wellFormed.
Qed.

Lemma isGoal_false_goalBoard s :
  isGoal s = false → getId s ≠ boardId goalBoard.
Proof. intros Hg Hid. apply isGoal_boardId in Hid. congruence. Qed.

(** ** [bfs] terminates and decides solvability *)

Definition bfs_measure (c : Config) : nat :=
  (2 * unexplored c + length (frontier c))%nat.

(** What a finished run says about the input board. *)
Definition decides (b : Board) (o : Outcome) : Prop :=
  (o = NotFound ∧ ¬ solvable b) ∨ (∃ path, o = Found path ∧ solvable b).

(** The loop invariant: the frontier descends from the root, and the
    explored set is closed under slides up to the frontier and holds no
    goal that was expanded. *)
Definition bfs_inv (root : PuzzleState) (c : Config) : Prop :=
  Forall (descends root) (frontier c) ∧
  (c = start root ∨ getId root ∈ explored c) ∧
  ∀ b, wellFormed b → boardId b ∈ explored c →
    (∃ t, t ∈ frontier c ∧ board t = b) ∨
    (b ≠ goalBoard ∧ closedUnder (explored c) b).

Lemma neighbor_explored state m b' (E : gset string) :
  wellFormed (board state) → m ∈ moves →
  applyMove (board state) m = Some b' →
  (∀ n, n ∈ omap (child state) moves → getId n ∈ E) → boardId b' ∈ E.
Proof.
  intros Hwf Hm Ha HE.
  apply (HE (new_PuzzleState b' (Some state) (Some m))).
  apply elem_of_neighbors. eauto.
Qed.

Lemma bfs_inv_step root c c' :
  wellFormed (board root) →
  bfs_inv root c → bfs_iteration c = inr c' →
  bfs_inv root c' ∧ (bfs_measure c' < bfs_measure c)%nat.
Proof.
  intros Hroot (Hdesc & Hstart & Hclosed) Hit.
  pose proof (bfs_descends root c c' Hroot Hdesc Hit) as Hdesc'.
  apply bfs_iteration_inr in Hit
    as (state & rest & neighbors & Hfr & Hgoal & Hns & ->).
  rewrite Hfr in Hdesc. apply Forall_cons in Hdesc as [Hstate Hrest].
  pose proof (descends_wellFormed _ _ Hroot Hstate) as Hwfs.
  set (E' := {[getId state]} ∪ explored c) in *.
  set (new := fresh E' neighbors) in *.
  assert (Hnew : ∀ n, n ∈ new → descends root n).
  { intros n Hn. simpl in Hdesc'. rewrite Forall_app, !Forall_forall in Hdesc'.
    by apply Hdesc'. }
  assert (Hstate_closed : board state ≠ goalBoard ∧
                          closedUnder (ids new ∪ E') (board state)).
  { split.
    - intros Hb. apply (isGoal_spec _ Hwfs) in Hb. congruence.
    - intros m b' Hm Ha. eapply neighbor_explored; [done..|].
      intros n Hn. apply fresh_covers.
      rewrite getNeighbors_wf in Hns by done. by injection Hns as <-. }
  split; [split_and!|].
  - done.
  - right. simpl. destruct Hstart as [->|Hin].
    + simpl in Hfr. injection Hfr as <- <-. set_solver.
    + set_solver.
  - simpl. intros b Hwfb [Hb|[Hb|Hb]%elem_of_union]%elem_of_union.
    + left. apply elem_of_ids in Hb as (n & Hn & Hid). exists n.
      split; [apply elem_of_app; by right|].
      apply boardId_inj; eauto using descends_wellFormed.
    + right. apply elem_of_singleton in Hb.
      apply boardId_inj in Hb; [|done..]. by subst b.
    + destruct (Hclosed b Hwfb Hb) as [(t & Ht & Hbt)|[Hng Hcl]].
      * rewrite Hfr in Ht. apply elem_of_cons in Ht as [->|Ht].
        -- right. by subst b.
        -- left. exists t. split; [apply elem_of_app; by left|done].
      * right. split; [done|]. intros m b' Hm Ha.
        apply elem_of_union_r, elem_of_union_r. by eapply Hcl.
  - assert (Hsz : (size (universe ∖ (ids new ∪ E')) + length new =
                   size (universe ∖ E'))%nat).
    { apply size_after_marking.
      - apply fresh_NoDup.
      - intros i (n & Hn & <-)%elem_of_ids. eauto using descends_universe.
      - intros n Hn. by eapply fresh_not_explored. }
    assert (Hmono : (size (universe ∖ E') ≤ size (universe ∖ explored c))%nat).
    { apply unexplored_mono. set_solver. }
    unfold bfs_measure, unexplored. simpl. rewrite Hfr, length_app. simpl.
    lia.
Qed.

Lemma bfs_inv_exit root c o :
  wellFormed (board root) → parent root = None →
  bfs_inv root c → bfs_iteration c = inl o → decides (board root) o.
Proof.
  intros Hroot Hpar (Hdesc & Hstart & Hclosed) Hit.
  apply bfs_iteration_inl in Hit
    as [[Hfr ->]|[(state & rest & Hfr & Hgoal & ->)|
                  (state & rest & Hfr & Hgoal & -> & Hns)]].
  - left. split; [done|]. intros (ms & Hms & Happ).
    destruct Hstart as [->|Hin]; [done|].
    assert (Hall : ∀ b, wellFormed b → boardId b ∈ explored c →
              b ≠ goalBoard ∧ closedUnder (explored c) b).
    { intros b Hwfb Hb. destruct (Hclosed b Hwfb Hb) as [(t & Ht & _)|?];
        [|done]. rewrite Hfr in Ht. by apply elem_of_nil in Ht. }
    assert (boardId goalBoard ∈ explored c) as Hg.
    { eapply (closed_applyMoves _ (board root)); eauto.
      intros b1 ? ?. by apply Hall. }
    by destruct (Hall goalBoard wellFormed_goalBoard Hg).
  - right. exists (reconstructPath state). split; [done|].
    rewrite Hfr in Hdesc. apply Forall_cons in Hdesc as [Hstate _].
    destruct (found_path_solves root state) as (ms & _ & ? & _); [done..|].
    by exists ms.
  - rewrite Hfr in Hdesc. apply Forall_cons in Hdesc as [Hstate _].
    rewrite getNeighbors_wf in Hns by eauto using descends_wellFormed.
    done.
Qed.

Lemma bfs_inv_start root : bfs_inv root (start root).
Proof.
  split_and!; [repeat constructor|by left|].
  intros b _ Hb. simpl in Hb. set_solver.
Qed.

Lemma bfs_decides b :
  wellFormed b →
  ∃ fuel o, bfs fuel (new_PuzzleState b None None) = Some o ∧ decides b o.
Proof.
  intros Hwf. set (root := new_PuzzleState b None None).
  destruct (run_terminates lt bfs_measure bfs_iteration (bfs_inv root))
    with (c := start root) as (fuel & o & Hrun).
  - apply lt_wf.
  - intros c c' Hinv Hit. by apply bfs_inv_step.
  - apply bfs_inv_start.
  - exists fuel, o. split; [done|].
    eapply (run_invariant bfs_iteration (bfs_inv root) (decides b));
      [..|exact Hrun].
    + intros c c' Hinv Hit. by apply (bfs_inv_step root c c').
    + intros c o' Hinv Hit. by apply (bfs_inv_exit root c o').
    + apply bfs_inv_start.
Qed.

(** ** The informed searches terminate and decide solvability *)

(** Frontier states whose identity is already explored: each will be popped
    and expanded once more. *)
Definition stale (c : Config) : nat :=
  length (filter (λ s, getId s ∈ explored c) (frontier c)).

Definition informed_measure (c : Config) : nat * nat :=
  (unexplored c, stale c).

Definition informed_inv (root : PuzzleState) (c : Config) : Prop :=
  Forall (descends root) (frontier c) ∧
  (c = start root ∨ getId root ∈ explored c) ∧
  (boardId goalBoard ∉ explored c) ∧
  (∀ b, wellFormed b → boardId b ∈ explored c →
     ∀ m b', m ∈ moves → applyMove b m = Some b' →
       boardId b' ∈ explored c ∨ (∃ t, t ∈ frontier c ∧ board t = b')).

(** The scoring step succeeds on well-formed boards. *)
Definition total (score : PuzzleState → option PuzzleState) : Prop :=
  ∀ n, wellFormed (board n) → is_Some (score n).

Lemma scoring_board score n n' :
  scoring score → score n = Some n' →
  board n' = board n ∧ getId n' = getId n ∧ g n' = g n ∧
  parent n' = parent n ∧ move n' = move n.
Proof. intros Hsc Hn. by destruct (Hsc n n' Hn) as (v & w & ->). Qed.

Section informed_complete.
Context (key : PuzzleState → Z) (score : PuzzleState → option PuzzleState).
Context (Hscoring : scoring score) (Htotal : total score).

Lemma informed_inv_start root : informed_inv root (start root).
Proof.
  split_and!; [repeat constructor|by left|set_solver|].
  intros b _ Hb. simpl in Hb. set_solver.
Qed.

Lemma informed_inv_step root c c' :
  wellFormed (board root) →
  informed_inv root c → informed_iteration key score c = inr c' →
  informed_inv root c' ∧
  slexprod nat nat lt lt (informed_measure c') (informed_measure c).
Proof.
  intros Hroot (Hdesc & Hstart & Hgoal & Hclosed) Hit.
  pose proof (informed_descends key score root c c' Hscoring Hdesc Hit)
    as Hdesc'.
  apply informed_iteration_inr in Hit
    as (state & rest & neighbors & scored & Hfr & Hng & Hns & Hsc & ->).
  rewrite Hfr in Hdesc. apply Forall_cons in Hdesc as [Hstate Hrest].
  pose proof (descends_wellFormed _ _ Hroot Hstate) as Hwfs.
  set (E' := {[getId state]} ∪ explored c) in *.
  rewrite getNeighbors_wf in Hns by done. injection Hns as <-.
  split; [split_and!|].
  - done.
  - right. simpl. destruct Hstart as [->|Hin].
    + simpl in Hfr. injection Hfr as <- <-. set_solver.
    + set_solver.
  - simpl. apply isGoal_false_goalBoard in Hng. set_solver.
  - simpl. intros b Hwfb [Hb|Hb]%elem_of_union m b' Hm Ha.
    + apply elem_of_singleton in Hb.
      apply boardId_inj in Hb; [|done..]. subst b.
      set (n := new_PuzzleState b' (Some state) (Some m)).
      assert (Hn : n ∈ omap (child state) moves).
      { apply elem_of_neighbors. by exists m, b'. }
      destruct (decide (getId n ∈ E')) as [Hin|Hnin]; [by left|]. right.
      destruct (mapM_elem_of_inv score _ scored n Hsc) as (n' & Hn' & Hscn).
      { by apply list_elem_of_filter. }
      exists n'. split; [apply elem_of_foldl_insertBy; by right|].
      by destruct (scoring_board score n n' Hscoring Hscn) as [-> _].
    + destruct (Hclosed b Hwfb Hb m b' Hm Ha) as [Hin|(t & Ht & Hbt)].
      { left. by apply elem_of_union_r. }
      rewrite Hfr in Ht. apply elem_of_cons in Ht as [->|Ht].
      * left. rewrite <- Hbt. apply elem_of_union_l. by apply elem_of_singleton.
      * right. exists t. split; [apply elem_of_foldl_insertBy; by left|done].
  - unfold informed_measure, unexplored, stale. simpl.
    destruct (decide (getId state ∈ explored c)) as [Hin|Hnin].
    + assert (E' = explored c) as -> by set_solver.
      apply right_slex.
      rewrite foldl_insertBy_Permutation, filter_app, length_app, Hfr.
      rewrite filter_cons_True by done. simpl.
      rewrite (filter_none _ scored); [simpl; lia|].
      apply Forall_forall. intros n' Hn'.
      destruct (mapM_elem_of score _ scored n' Hsc Hn') as (n & Hn & Hscn).
      apply list_elem_of_filter in Hn as [Hn _].
      destruct (scoring_board score n n' Hscoring Hscn) as (_ & -> & _).
      set_solver.
    + apply left_slex. apply unexplored_add; [|done].
      eauto using descends_universe.
Qed.

Lemma informed_inv_exit root c o :
  wellFormed (board root) → parent root = None →
  informed_inv root c → informed_iteration key score c = inl o →
  decides (board root) o.
Proof.
  intros Hroot Hpar (Hdesc & Hstart & Hgoal & Hclosed) Hit.
  apply informed_iteration_inl in Hit
    as [[Hfr ->]|[(state & rest & Hfr & Hg & ->)|
                  (state & rest & Hfr & Hg & -> & Hns)]].
  - left. split; [done|]. intros (ms & Hms & Happ).
    destruct Hstart as [->|Hin]; [done|]. apply Hgoal.
    eapply (closed_applyMoves _ (board root)); eauto.
    intros b Hwfb Hb m b' Hm Ha.
    destruct (Hclosed b Hwfb Hb m b' Hm Ha) as [?|(t & Ht & _)]; [done|].
    rewrite Hfr in Ht. by apply elem_of_nil in Ht.
  - right. exists (reconstructPath state). split; [done|].
    rewrite Hfr in Hdesc. apply Forall_cons in Hdesc as [Hstate _].
    destruct (found_path_solves root state) as (ms & _ & ? & _); [done..|].
    by exists ms.
  - rewrite Hfr in Hdesc. apply Forall_cons in Hdesc as [Hstate _].
    pose proof (descends_wellFormed _ _ Hroot Hstate) as Hwfs.
    rewrite getNeighbors_wf in Hns by done.
    destruct Hns as [?|(neighbors & [= <-] & Hnone)]; [done|].
    apply mapM_None_1, Exists_exists in Hnone as (n & Hn & Hscn).
    apply list_elem_of_filter in Hn as [_ Hn].
    apply elem_of_neighbors in Hn as (m & b' & _ & Ha & ->).
    destruct (Htotal (new_PuzzleState b' (Some state) (Some m))) as [? Hs].
    { simpl. by eapply applyMove_wellFormed. }
    congruence.
Qed.

Lemma informed_decides b :
  wellFormed b →
  ∃ fuel o,
    run (informed_iteration key score) fuel
      (start (new_PuzzleState b None None)) = Some o ∧
    decides b o.
Proof.
  intros Hwf. set (root := new_PuzzleState b None None).
  destruct (run_terminates (slexprod nat nat lt lt) informed_measure
              (informed_iteration key score) (informed_inv root))
    with (c := start root) as (fuel & o & Hrun).
  - apply wf_slexprod; apply lt_wf.
  - intros c c' Hinv Hit. by apply informed_inv_step.
  - apply informed_inv_start.
  - exists fuel, o. split; [done|].
    eapply (run_invariant (informed_iteration key score) (informed_inv root)
              (decides b)); [..|exact Hrun].
    + intros c c' Hinv Hit. by apply (informed_inv_step root c c').
    + intros c o' Hinv Hit. by apply (informed_inv_exit root c o').
    + apply informed_inv_start.
Qed.

End informed_complete.

Lemma manhattanDistance_total s :
  wellFormed (board s) → is_Some (manhattanDistance s).
Proof.
  intros (t0&t1&t2&t3&t4&t5&t6&t7&t8&Hb)%wellFormed_shape3%shape3_inv.
  rewrite (manhattanDistance_board9 s _ _ _ _ _ _ _ _ _ Hb). eauto.
Qed.

Lemma selectHeuristic_total name s :
  wellFormed (board s) → is_Some (selectHeuristic name s).
Proof.
  intros Hwf. unfold selectHeuristic. case_decide.
  - by eexists.
  - by apply manhattanDistance_total.
Qed.

Lemma scoreH_total heuristic :
  (∀ s, wellFormed (board s) → is_Some (heuristic s)) →
  total (scoreH heuristic).
Proof.
  intros Hh n Hwf. unfold scoreH. destruct (Hh n Hwf) as [v ->]. by eexists.
Qed.

Lemma scoreF_total heuristic :
  (∀ s, wellFormed (board s) → is_Some (heuristic s)) →
  total (scoreF heuristic).
Proof.
  intros Hh n Hwf. unfold scoreF. destruct (Hh n Hwf) as [v ->]. by eexists.
Qed.

(** ** Shortest solutions *)

Lemma getNeighbors_elem_of s neighbors :
  wellFormed (board s) → getNeighbors s = Some neighbors →
  ∀ n, n ∈ neighbors ↔
    ∃ m b', m ∈ moves ∧ applyMove (board s) m = Some b' ∧
            n = new_PuzzleState b' (Some s) (Some m).
Proof.
  intros Hwf Hns n. rewrite getNeighbors_wf in Hns by done.
  injection Hns as <-. apply elem_of_neighbors.
Qed.

(** [reaches k b b']: [k] cardinal slides lead from [b] to [b']. *)
Definition reaches (k : nat) (b b' : Board) : Prop :=
  ∃ ms, length ms = k ∧ Forall (λ m, m ∈ moves) ms ∧
        applyMoves b ms = Some b'.

Lemma reaches_0 b b' : reaches 0 b b' → b' = b.
Proof.
  intros (ms & Hlen & _ & Happ). apply nil_length_inv in Hlen as ->.
  simpl in Happ. congruence.
Qed.

Lemma reaches_S k b b' :
  reaches (S k) b b' →
  ∃ b1 m, reaches k b b1 ∧ m ∈ moves ∧ applyMove b1 m = Some b'.
Proof.
  intros (ms & Hlen & Hms & Happ).
  induction ms as [|m0 ms0 _] using rev_ind; [simpl in Hlen; lia|].
  rewrite length_app in Hlen. simpl in Hlen.
  apply Forall_app in Hms as [Hms Hm]. apply Forall_cons in Hm as [Hm _].
  rewrite applyMoves_app in Happ.
  destruct (applyMoves b ms0) as [b1|] eqn:Hb1; [|done]. simpl in Happ.
  destruct (applyMove b1 m0) as [b2|] eqn:Hb2; [|done]. simpl in Happ.
  exists b1, m0. split_and!; [|exact Hm|congruence].
  exists ms0. split_and!; [lia|done..].
Qed.

Lemma reaches_wellFormed k b b' :
  wellFormed b → reaches k b b' → wellFormed b'.
Proof. intros Hwf (ms & _ & _ & Happ). by eapply applyMoves_wellFormed. Qed.

Lemma solution_reaches b ms :
  solution b ms → reaches (length ms) b goalBoard.
Proof. intros [? ?]. by exists ms. Qed.

Lemma closedUnder_mono (E1 E2 : gset string) b :
  E1 ⊆ E2 → closedUnder E1 b → closedUnder E2 b.
Proof. intros Hsub Hcl m b' Hm Ha. apply Hsub. by eapply Hcl. Qed.

Lemma ascending_constant key v l :
  Forall (λ s, key s = v) l → ascending key l.
Proof.
  induction 1 as [|s l Hs Hl IH]; [constructor|].
  constructor; [done|]. eapply Forall_impl; [exact Hl|]. simpl. lia.
Qed.

(** The levels of [bfs]: the frontier is ascending in [g] and spans at most
    two levels; a frontier state lies no deeper than any sequence of slides
    that reaches its board; and every board reachable in fewer slides than
    the depth of the frontier's head is explored and closed. *)
Definition bfs_levels (root : PuzzleState) (c : Config) : Prop :=
  ascending g (frontier c) ∧
  (∀ s rest t, frontier c = s :: rest → t ∈ rest → g t ≤ g s + 1) ∧
  (∀ t k, t ∈ frontier c → reaches k (board root) (board t) →
     g t ≤ Z.of_nat k) ∧
  (∀ s rest b k, frontier c = s :: rest → reaches k (board root) b →
     Z.of_nat k < g s →
     boardId b ∈ explored c ∧ closedUnder (explored c) b).

Lemma bfs_levels_start root : g root = 0 → bfs_levels root (start root).
Proof.
  intros Hg. split_and!.
  - repeat constructor.
  - intros s rest t [= <- <-] Ht. by apply elem_of_nil in Ht.
  - intros t k Ht _. apply list_elem_of_singleton in Ht as ->. lia.
  - intros s rest b k [= <- <-] _ Hk. lia.
Qed.

Lemma bfs_levels_step root c c' :
  wellFormed (board root) →
  bfs_inv root c → bfs_levels root c → bfs_iteration c = inr c' →
  bfs_levels root c'.
Proof.
  intros Hroot Hinv (Hasc & Hspan & Hopt & Hlow) Hit.
  destruct (bfs_inv_step root c c' Hroot Hinv Hit) as [Hinv' _].
  destruct Hinv as (Hdesc & Hstart & Hclosed).
  destruct Hinv' as (Hdesc' & _ & Hclosed').
  apply bfs_iteration_inr in Hit
    as (state & rest & neighbors & Hfr & Hgoal & Hns & ->).
  rewrite Hfr in Hdesc. apply Forall_cons in Hdesc as [Hstate Hrest].
  pose proof (descends_wellFormed _ _ Hroot Hstate) as Hwfs.
  pose proof (getNeighbors_elem_of _ _ Hwfs Hns) as Hnb.
  set (E' := {[getId state]} ∪ explored c) in *.
  set (new := fresh E' neighbors) in *.
  simpl in Hdesc', Hclosed'.
  rewrite Hfr in Hasc. apply StronglySorted_cons in Hasc as [Hhead Hasc].
  rewrite Forall_forall in Hhead.
  assert (Hgnew : ∀ n, n ∈ new → g n = g state + 1).
  { intros n Hn. apply (sublist_subseteq _ _ (fresh_sublist _ _)) in Hn.
    by apply Hnb in Hn as (m & b' & _ & _ & ->). }
  assert (Hrootin : getId root ∈ E').
  { destruct Hstart as [->|?]; [|set_solver].
    simpl in Hfr. injection Hfr as <- <-. set_solver. }
  assert (Hsub : explored c ⊆ ids new ∪ E') by set_solver.
  assert (Hbound : ∀ t, t ∈ rest ++ new → g t ≤ g state + 1).
  { intros t [Ht|Ht]%elem_of_app; [by eapply Hspan|].
    rewrite (Hgnew t Ht). lia. }
  assert (Hge : ∀ t, t ∈ rest ++ new → g state ≤ g t).
  { intros t [Ht|Ht]%elem_of_app; [by apply Hhead|].
    rewrite (Hgnew t Ht). lia. }
  assert (Hopt' : ∀ t k, t ∈ rest ++ new →
            reaches k (board root) (board t) → g t ≤ Z.of_nat k).
  { intros t k [Ht|Ht]%elem_of_app Hk.
    { apply Hopt; [|done]. rewrite Hfr. by right. }
    rewrite (Hgnew t Ht).
    destruct (decide (Z.of_nat k ≤ g state)) as [Hle|]; [|lia]. exfalso.
    apply (fresh_not_explored _ _ _ Ht).
    destruct k as [|k].
    - apply reaches_0 in Hk. rewrite getId_boardId, Hk. done.
    - apply reaches_S in Hk as (b1 & m & Hk & Hm & Ha).
      destruct (Hlow state rest b1 k Hfr Hk) as [_ Hcl]; [lia|].
      apply elem_of_union_r. rewrite getId_boardId. by eapply Hcl. }
  split_and!; simpl.
  - apply StronglySorted_app_2; [|done|].
    + intros x1 x2 Hx1 Hx2. rewrite (Hgnew x2 Hx2). by eapply Hspan.
    + apply (ascending_constant g (g state + 1)). by apply Forall_forall.
  - intros s' rest' t Hfr' Ht.
    assert (Hs' : s' ∈ rest ++ new) by (rewrite Hfr'; left).
    assert (Ht' : t ∈ rest ++ new) by (rewrite Hfr'; by right).
    specialize (Hbound t Ht'). specialize (Hge s' Hs'). lia.
  - done.
  - intros s' rest' b k Hfr' Hk Hlt.
    assert (Hs' : s' ∈ rest ++ new) by (rewrite Hfr'; left).
    destruct (decide (Z.of_nat k < g state)) as [Hlt'|Hge'].
    { destruct (Hlow state rest b k Hfr Hk Hlt') as [Hin Hcl].
      split; [by apply Hsub|by eapply closedUnder_mono]. }
    assert (Hgs' : g s' = g state + 1).
    { specialize (Hbound s' Hs'). lia. }
    assert (Hin : boardId b ∈ ids new ∪ E').
    { destruct k as [|k].
      - apply reaches_0 in Hk. rewrite Hk. by apply elem_of_union_r.
      - apply reaches_S in Hk as (b1 & m & Hk & Hm & Ha).
        destruct (Hlow state rest b1 k Hfr Hk) as [_ Hcl]; [lia|].
        apply Hsub. by eapply Hcl. }
    split; [done|].
    destruct (Hclosed' b (reaches_wellFormed _ _ _ Hroot Hk) Hin)
      as [(t & Ht & Hbt)|[_ Hcl]]; [|done].
    exfalso. subst b. specialize (Hopt' t k Ht Hk).
    assert (g s' ≤ g t); [|lia].
    rewrite Hfr' in Ht. apply elem_of_cons in Ht as [->|Ht]; [lia|].
    assert (Hasc' : ascending g (s' :: rest')).
    { rewrite <- Hfr'. apply StronglySorted_app_2; [|done|].
      - intros x1 x2 Hx1 Hx2. rewrite (Hgnew x2 Hx2). by eapply Hspan.
      - apply (ascending_constant g (g state + 1)). by apply Forall_forall. }
    apply ascending_head in Hasc'. rewrite Forall_forall in Hasc'.
    by apply Hasc'.
Qed.

(** A move array returned by [bfs] is a shortest solution. *)
Lemma bfs_shortest b fuel path :
  wellFormed b →
  bfs fuel (new_PuzzleState b None None) = Some (Found path) →
  ∃ ms, path = Some <$> ms ∧ solution b ms ∧
        ∀ ms', solution b ms' → (length ms ≤ length ms')%nat.
Proof.
  intros Hwf Hrun. set (root := new_PuzzleState b None None) in *.
  eapply (run_invariant bfs_iteration
    (λ c, bfs_inv root c ∧ bfs_levels root c)
    (λ o, o = Found path → _)); [..|exact Hrun|done].
  - intros c c' [Hinv Hlev] Hit. split.
    + by apply (bfs_inv_step root c c').
    + by apply (bfs_levels_step root c c').
  - intros c o [(Hdesc & _) (_ & _ & Hopt & _)] Hit ->.
    apply bfs_iteration_inl in Hit
      as [[_ ?]|[(state & rest & Hfr & Hgoal & Hpath)|(? & ? & _ & _ & ? & _)]];
      [done| |done].
    injection Hpath as ->.
    rewrite Hfr in Hdesc. apply Forall_cons in Hdesc as [Hstate _].
    destruct (found_path_solves root state) as (ms & Hms & Hsol & Hg);
      [done..|].
    exists ms. split_and!; [done..|]. intros ms' Hsol'.
    apply solution_reaches in Hsol'.
    apply isGoal_spec in Hgoal; [|by apply (descends_wellFormed root)].
    rewrite <- Hgoal in Hsol'.
    specialize (Hopt state (length ms')). rewrite Hfr in Hopt.
    specialize (Hopt ltac:(left) Hsol'). simpl in Hg. lia.
  - split; [apply bfs_inv_start|by apply bfs_levels_start].
Qed.

(** ** [aStar] with a consistent heuristic *)

(** A sequence of slides that starts inside a set of identities and ends
    outside crosses its border somewhere. *)
Lemma crossing (E : gset string) b ms b' :
  boardId b ∈ E → boardId b' ∉ E → Forall (λ m, m ∈ moves) ms →
  applyMoves b ms = Some b' →
  ∃ ms1 m ms2 b1 b2,
    ms = ms1 ++ m :: ms2 ∧ m ∈ moves ∧
    Forall (λ m, m ∈ moves) ms1 ∧ Forall (λ m, m ∈ moves) ms2 ∧
    applyMoves b ms1 = Some b1 ∧ boardId b1 ∈ E ∧
    applyMove b1 m = Some b2 ∧ (boardId b2 ∉ E) ∧
    applyMoves b2 ms2 = Some b'.
Proof.
  intros Hin Hout Hms. revert b Hin.
  induction Hms as [|m ms Hm Hms IH]; intros b Hin; simpl.
  { intros [= <-]. done. }
  destruct (applyMove b m) as [b1|] eqn:Ha; [|done]. simpl. intros Happ.
  destruct (decide (boardId b1 ∈ E)) as [Hin1|Hout1].
  - destruct (IH b1 Hin1 Happ)
      as (ms1 & m' & ms2 & c1 & c2 & -> & ? & ? & ? & Hc1 & ? & ? & ? & ?).
    exists (m :: ms1), m', ms2, c1, c2. split_and!; try done.
    + by constructor.
    + simpl. by rewrite Ha.
  - exists [], m, ms, b, b1. split_and!; try done.
Qed.

Section astar_optimal.
Context (heuristic : Heuristic) (hb : Board → Z).
Context (Hh : ∀ s, wellFormed (board s) → heuristic s = Some (hb (board s))).
Context (Hcons : ∀ b m b', wellFormed b → m ∈ moves →
                   applyMove b m = Some b' → hb b ≤ 1 + hb b').

Lemma consistent_path b ms b' :
  wellFormed b → Forall (λ m, m ∈ moves) ms → applyMoves b ms = Some b' →
  hb b ≤ Z.of_nat (length ms) + hb b'.
Proof.
  intros Hwf Hms. revert b Hwf.
  induction Hms as [|m ms Hm Hms IH]; intros b Hwf; simpl.
  { intros [= <-]. lia. }
  destruct (applyMove b m) as [b1|] eqn:Ha; [|done]. simpl. intros Happ.
  specialize (IH b1 (applyMove_wellFormed _ _ _ Hwf Ha) Happ).
  specialize (Hcons b m b1 Hwf Hm Ha). lia.
Qed.

Lemma scoreF_Some n n' :
  wellFormed (board n) → scoreF heuristic n = Some n' →
  board n' = board n ∧ g n' = g n ∧ f n' = g n' + hb (board n').
Proof.
  intros Hwf. unfold scoreF. rewrite (Hh n Hwf). simpl.
  by intros [= <-].
Qed.

Definition astar_inv (root : PuzzleState) (c : Config) : Prop :=
  Forall (descends root) (frontier c) ∧
  (c = start root ∨
   (getId root ∈ explored c ∧
    ∀ t, t ∈ frontier c → f t = g t + hb (board t))) ∧
  (boardId goalBoard ∉ explored c) ∧
  ascending f (frontier c) ∧
  (∀ b k, reaches k (board root) b → boardId b ∈ explored c →
     ∀ m b', m ∈ moves → applyMove b m = Some b' →
       boardId b' ∈ explored c ∨
       (∃ t, t ∈ frontier c ∧ board t = b' ∧ g t ≤ Z.of_nat k + 1)).

Lemma astar_inv_start root : astar_inv root (start root).
Proof.
  split_and!; [repeat constructor|by left|set_solver|repeat constructor|].
  intros b k _ Hb. simpl in Hb. set_solver.
Qed.

(** The first time an identity is popped, it is popped at its depth. *)
Lemma astar_pop_optimal root c state rest k :
  wellFormed (board root) → g root = 0 →
  astar_inv root c → frontier c = state :: rest →
  getId state ∉ explored c → reaches k (board root) (board state) →
  g state ≤ Z.of_nat k.
Proof.
  intros Hroot Hg (Hdesc & Hstart & _ & Hasc & Hclosed) Hfr Hnew Hk.
  destruct Hstart as [->|[Hrootin Hf]].
  { simpl in Hfr. injection Hfr as <- <-. lia. }
  destruct Hk as (ms & <- & Hms & Happ).
  destruct (crossing (explored c) (board root) ms (board state))
    as (ms1 & m & ms2 & b1 & b2 & -> & Hm & Hms1 & Hms2 & Hb1 & Hin1 & Ha & Hout2 & Hb2);
    [done..|].
  destruct (Hclosed b1 (length ms1)) with (m := m) (b' := b2)
    as [?|(t & Ht & Hbt & Hgt)]; [by exists ms1|done..|].
  assert (Hwf2 : wellFormed b2).
  { eapply applyMove_wellFormed; [|exact Ha].
    by eapply applyMoves_wellFormed. }
  pose proof (consistent_path b2 ms2 (board state) Hwf2 Hms2 Hb2) as Hpath.
  assert (Hle : f state ≤ f t).
  { rewrite Hfr in Ht, Hasc. apply elem_of_cons in Ht as [->|Ht]; [lia|].
    apply ascending_head in Hasc. rewrite Forall_forall in Hasc.
    by apply Hasc. }
  rewrite (Hf t Ht), (Hf state), Hbt in Hle by (rewrite Hfr; left).
  rewrite length_app. simpl. lia.
Qed.

Lemma astar_inv_step root c c' :
  wellFormed (board root) → g root = 0 →
  astar_inv root c →
  informed_iteration f (scoreF heuristic) c = inr c' →
  astar_inv root c'.
Proof.
  intros Hroot Hg Hinv Hit.
  pose proof Hinv as (Hdesc & Hstart & Hgoal & Hasc & Hclosed).
  pose proof (informed_descends f _ root c c' (scoreF_scoring heuristic)
                Hdesc Hit) as Hdesc'.
  apply informed_iteration_inr in Hit
    as (state & rest & neighbors & scored & Hfr & Hng & Hns & Hsc & ->).
  rewrite Hfr in Hdesc. apply Forall_cons in Hdesc as [Hstate Hrest].
  pose proof (descends_wellFormed _ _ Hroot Hstate) as Hwfs.
  pose proof (getNeighbors_elem_of _ _ Hwfs Hns) as Hnb.
  set (E' := {[getId state]} ∪ explored c) in *.
  assert (Hscored : ∀ n', n' ∈ scored →
            ∃ n, n ∈ neighbors ∧ (getId n ∉ E') ∧ board n' = board n ∧
                 g n' = g n ∧ f n' = g n' + hb (board n')).
  { intros n' Hn'.
    destruct (mapM_elem_of _ _ _ _ Hsc Hn') as (n & Hn & Hscn).
    apply list_elem_of_filter in Hn as [Hnin Hn]. exists n.
    destruct (scoreF_Some n n') as (? & ? & ?); [|done|done].
    apply Hnb in Hn as (m & b' & _ & Ha & ->). simpl.
    by eapply applyMove_wellFormed. }
  split_and!; simpl.
  - done.
  - right. split.
    + destruct Hstart as [->|[? _]]; [|set_solver].
      simpl in Hfr. injection Hfr as <- <-. set_solver.
    + intros t [Ht|Ht]%elem_of_foldl_insertBy.
      * destruct Hstart as [->|[_ Hf]].
        -- simpl in Hfr. injection Hfr as <- <-. by apply elem_of_nil in Ht.
        -- apply Hf. rewrite Hfr. by right.
      * by destruct (Hscored t Ht) as (n & _ & _ & _ & _ & ?).
  - apply isGoal_false_goalBoard in Hng. set_solver.
  - apply ascending_foldl_insertBy. rewrite Hfr in Hasc.
    by apply StronglySorted_cons in Hasc as [_ ?].
  - intros b k Hk Hb m b' Hm Ha.
    destruct (decide (boardId b ∈ explored c)) as [Hold|Hnew].
    + destruct (Hclosed b k Hk Hold m b' Hm Ha) as [Hin|(t & Ht & Hbt & Hgt)].
      { left. by apply elem_of_union_r. }
      rewrite Hfr in Ht. apply elem_of_cons in Ht as [->|Ht].
      * left. rewrite <- Hbt. apply elem_of_union_l. by apply elem_of_singleton.
      * right. exists t. split; [apply elem_of_foldl_insertBy; by left|done].
    + assert (boardId b = getId state) as Hid by set_solver.
      apply boardId_inj in Hid;
        [|exact (reaches_wellFormed _ _ _ Hroot Hk)|done].
      subst b.
      assert (getId state ∉ explored c) as Hnew' by done.
      pose proof (astar_pop_optimal root c state rest k Hroot Hg Hinv Hfr
                    Hnew' Hk) as Hopt.
      set (n := new_PuzzleState b' (Some state) (Some m)).
      assert (Hn : n ∈ neighbors) by (apply Hnb; by exists m, b').
      destruct (decide (getId n ∈ E')) as [Hin|Hnin]; [by left|]. right.
      destruct (mapM_elem_of_inv (scoreF heuristic) _ scored n Hsc)
        as (n' & Hn' & Hscn).
      { by apply list_elem_of_filter. }
      exists n'. split; [apply elem_of_foldl_insertBy; by right|].
      destruct (scoreF_Some n n') as (-> & -> & _); [|done|].
      { simpl. by eapply applyMove_wellFormed. }
      simpl. split; [done|lia].
Qed.

(** A move array returned by [aStar] is a shortest solution. *)
Lemma astar_shortest b fuel path :
  wellFormed b →
  aStar fuel (new_PuzzleState b None None) heuristic = Some (Found path) →
  ∃ ms, path = Some <$> ms ∧ solution b ms ∧
        ∀ ms', solution b ms' → (length ms ≤ length ms')%nat.
Proof.
  intros Hwf Hrun. set (root := new_PuzzleState b None None) in *.
  unfold aStar in Hrun.
  rewrite (run_ext _ _ _ _ (aStar_informed heuristic)) in Hrun.
  eapply (run_invariant _ (astar_inv root) (λ o, o = Found path → _));
    [..|exact Hrun|done].
  - intros c c' Hinv Hit. by apply (astar_inv_step root c c').
  - intros c o Hinv Hit ->.
    pose proof Hinv as (Hdesc & _ & Hgoalout & _).
    apply informed_iteration_inl in Hit
      as [[_ ?]|[(state & rest & Hfr & Hgoal & Hpath)|(? & ? & _ & _ & ? & _)]];
      [done| |done].
    injection Hpath as ->.
    rewrite Hfr in Hdesc. apply Forall_cons in Hdesc as [Hstate _].
    destruct (found_path_solves root state) as (ms & Hms & Hsol & Hg);
      [done..|].
    exists ms. split_and!; [done..|]. intros ms' Hsol'.
    apply solution_reaches in Hsol'.
    pose proof Hgoal as Hid. apply isGoal_boardId in Hid.
    apply isGoal_spec in Hgoal; [|by apply (descends_wellFormed root)].
    rewrite <- Hgoal in Hsol'.
    pose proof (astar_pop_optimal root c state rest (length ms')) as Hopt.
    rewrite Hid in Hopt. specialize (Hopt Hwf eq_refl Hinv Hfr Hgoalout Hsol').
    simpl in Hg. lia.
  - apply astar_inv_start.
Qed.

End astar_optimal.

(** ** The Manhattan distance is consistent *)

Lemma gridDistance_blank p : gridDistance 0 p = 0.
Proof. done. Qed.

Lemma gridDistance_adjacent t x y m :
  m ∈ moves →
  gridDistance t (x + m.1, y + m.2) ≤ 1 + gridDistance t (x, y).
Proof.
  intros Hm. unfold gridDistance. simpl.
  unfold moves in Hm. rewrite !elem_of_cons, elem_of_nil in Hm.
  case_decide; [|lia].
  destruct Hm as [->|[->|[->|[->|[]]]]]; simpl; lia.
Qed.

Lemma sumZ_bump {A} `{EqDecision A} (F G : A → Z) (v0 : A) (l : list A) :
  NoDup l →
  (∀ v, v ∈ l → F v ≤ G v + if decide (v = v0) then 1 else 0) →
  sumZ (F <$> l) ≤ (if decide (v0 ∈ l) then 1 else 0) + sumZ (G <$> l).
Proof.
  induction 1 as [|v l Hv Hl IH]; intros HFG.
  { case_decide; simpl; lia. }
  assert (IH' := IH (λ v' Hv', HFG v' (list_elem_of_further _ _ _ Hv'))).
  specialize (HFG v (list_elem_of_here _ _)).
  rewrite !fmap_cons, !sumZ_cons.
  destruct (decide (v0 ∈ v :: l)) as [Hin|Hnin];
    destruct (decide (v0 ∈ l)) as [Hin'|Hnin'];
    destruct (decide (v = v0)) as [->|Hne]; try lia;
    exfalso; rewrite elem_of_cons in *; naive_solver.
Qed.

(** One slide changes the Manhattan distance by at most one: only the term
    of the moved tile changes. *)
Lemma manhattanSum_consistent b m b' :
  wellFormed b → m ∈ moves → applyMove b m = Some b' →
  manhattanSum b ≤ 1 + manhattanSum b'.
Proof.
  intros Hwf Hm Ha.
  pose proof (applyMove_wellFormed _ _ _ Hwf Ha) as Hwf'.
  pose proof (wellFormed_shape3 _ Hwf) as Hb.
  destruct (applyMove_Some _ _ _ Ha) as (x & y & tile & Hbl & Htile & _).
  pose proof (applyMove_swapped b m b' x y Hb Hm Hbl Ha) as Hsw.
  apply blankPosition_Some in Hbl as [Hxy Hzero].
  rewrite !manhattanSum_sum by done.
  etransitivity;
    [apply (sumZ_bump (tileTerm gridDistance b) (tileTerm gridDistance b')
              tile (0 :: tiles))|].
  - apply (NoDup_seqZ 0 9).
  - intros v Hv.
    assert (Hrange : 0 ≤ v ≤ 8).
    { unfold tiles in Hv. rewrite !elem_of_cons, elem_of_nil in Hv. lia. }
    destruct (tilePosition_wf b v Hwf Hrange) as (i & j & Hp & Hij & Hc).
    unfold tileTerm. rewrite Hp.
    destruct (decide (v = tile)) as [->|Hvt].
    + assert ((i, j) = (x + m.1, y + m.2)) as [= -> ->]
        by eauto using cell_unique.
      rewrite (tilePosition_cell b' x y tile); [|done|].
      * pose proof (gridDistance_adjacent tile x y m Hm). lia.
      * rewrite Hsw. by rewrite decide_True.
    + destruct (decide (v = 0)) as [->|Hv0].
      { destruct (tilePosition b' 0); rewrite ?gridDistance_blank; lia. }
      rewrite (tilePosition_cell b' i j v); [lia|done|].
      rewrite Hsw. rewrite !decide_False; [done| |].
      * intros [= -> ->]. congruence.
      * intros [= -> ->]. congruence.
  - case_decide; lia.
Qed.

(** [manhattanDistance] is such a heuristic. *)
Lemma astar_manhattan_shortest b fuel path :
  wellFormed b →
  aStar fuel (new_PuzzleState b None None) manhattanDistance
    = Some (Found path) →
  ∃ ms, path = Some <$> ms ∧ solution b ms ∧
        ∀ ms', solution b ms' → (length ms ≤ length ms')%nat.
Proof.
  apply (astar_shortest manhattanDistance manhattanSum).
  - apply manhattanDistance_spec.
  - intros b1 m b2 Hwf Hm Ha. by apply (manhattanSum_consistent b1 m b2).
Qed.

(** ** The parity classes *)

(** The parity of the number of inversions in a list: pairs in which the
    later element is the smaller one. *)
Fixpoint invParity (l : list Z) : bool :=
  match l with
  | [] => false
  | x :: l' => xorb (foldr (λ y acc, xorb (y <? x) acc) false l') (invParity l')
  end.

(** The parity class of a board: the inversion parity of its tiles read in
    row-major order, the blank left out.  The goal board is even. *)
Definition inversionParity (b : Board) : bool :=
  invParity (filter (λ t, t ≠ 0) (flat b)).

Lemma ltb_flip a b : a ≠ b → (b <? a) = negb (a <? b).
Proof. intros. destruct (Z.ltb_spec a b), (Z.ltb_spec b a); simpl; lia. Qed.

Lemma perm9_distinct (t0 t1 t2 t3 t4 t5 t6 t7 t8 : Z) :
  NoDup [t0; t1; t2; t3; t4; t5; t6; t7; t8] →
  (t0 ≠ t1 ∧ t0 ≠ t2 ∧ t0 ≠ t3 ∧ t0 ≠ t4 ∧ t0 ≠ t5 ∧ t0 ≠ t6 ∧ t0 ≠ t7 ∧
   t0 ≠ t8) ∧
  (t1 ≠ t2 ∧ t1 ≠ t3 ∧ t1 ≠ t4 ∧ t1 ≠ t5 ∧ t1 ≠ t6 ∧ t1 ≠ t7 ∧ t1 ≠ t8) ∧
  (t2 ≠ t3 ∧ t2 ≠ t4 ∧ t2 ≠ t5 ∧ t2 ≠ t6 ∧ t2 ≠ t7 ∧ t2 ≠ t8) ∧
  (t3 ≠ t4 ∧ t3 ≠ t5 ∧ t3 ≠ t6 ∧ t3 ≠ t7 ∧ t3 ≠ t8) ∧
  (t4 ≠ t5 ∧ t4 ≠ t6 ∧ t4 ≠ t7 ∧ t4 ≠ t8) ∧
  (t5 ≠ t6 ∧ t5 ≠ t7 ∧ t5 ≠ t8) ∧ (t6 ≠ t7 ∧ t6 ≠ t8) ∧ t7 ≠ t8.
Proof.
  intros Hnd. rewrite !NoDup_cons, !not_elem_of_cons in Hnd.
  destruct_and!. repeat split; assumption.
Qed.

(** Canonical orientation of the comparisons between distinct tiles, and
    evaluation of the filter that drops the blank. *)
Ltac orient :=
  repeat match goal with
  | H : ?a ≠ ?b |- context [?b <? ?a] => rewrite (ltb_flip a b H)
  end.

Ltac drop_blank :=
  unfold inversionParity, flat, board9; cbn [concat app];
  repeat (rewrite filter_cons;
          first [rewrite decide_True by (assumption || (by apply not_eq_sym))
                |rewrite decide_False by (intros ?; done)]);
  rewrite filter_nil.

Lemma applyMove_parity b m b' :
  wellFormed b → m ∈ moves → applyMove b m = Some b' →
  inversionParity b' = inversionParity b.
Proof.
  intros Hwf Hm Ha.
  destruct (blankPosition_wf b Hwf) as (x & y & Hbl).
  rewrite (applyMove_unfold _ _ _ _ Hbl) in Ha.
  apply blankPosition_Some in Hbl as [Hxy Hzero].
  pose proof (wellFormed_NoDup b Hwf) as Hnd.
  destruct (shape3_inv _ (wellFormed_shape3 _ Hwf))
    as (t0&t1&t2&t3&t4&t5&t6&t7&t8&->).
  apply perm9_distinct in Hnd. destruct_and!.
  unfold moves in Hm. rewrite !elem_of_cons, elem_of_nil in Hm.
  cell_cases Hxy; vm_compute in Hzero; injection Hzero as ->;
    destruct Hm as [->|[->|[->|[->|[]]]]]; vm_compute in Ha;
    try discriminate Ha; injection Ha as <-;
    drop_blank; cbn [invParity foldr]; orient;
    (reflexivity || btauto).
Qed.

Lemma applyMoves_parity b ms b' :
  wellFormed b → Forall (λ m, m ∈ moves) ms → applyMoves b ms = Some b' →
  inversionParity b' = inversionParity b.
Proof.
  intros Hwf Hms. revert b Hwf.
  induction Hms as [|m ms Hm Hms IH]; intros b Hwf; simpl.
  { by intros [= <-]. }
  destruct (applyMove b m) as [b1|] eqn:Ha; [|done]. simpl. intros Happ.
  rewrite (IH b1) by eauto using applyMove_wellFormed.
  by eapply applyMove_parity.
Qed.

(** A board of odd inversion parity has no solution. *)
Lemma odd_unsolvable b :
  wellFormed b → inversionParity b = true → ¬ solvable b.
Proof.
  intros Hwf Hodd (ms & Hms & Happ).
  apply applyMoves_parity in Happ; [|done..].
  rewrite Hodd in Happ. by vm_compute in Happ.
Qed.

Global Instance solution_dec b ms : Decision (solution b ms).
Proof. unfold solution. apply _. Defined.

(** How a finished run answers for the board [b]: a move array when the
    goal can be reached, [null] when it cannot, which is the case of every
    board of odd parity. *)
Definition verdict (b : Board) (o : Outcome) : Prop :=
  decides b o ∧ (inversionParity b = true → o = NotFound).

Lemma decides_verdict b o : wellFormed b → decides b o → verdict b o.
Proof.
  intros Hwf Hd. split; [done|]. intros Hodd.
  destruct Hd as [[-> _]|(path & _ & Hsol)]; [done|].
  by destruct (odd_unsolvable b Hwf Hodd).
Qed.

(** C3: on a well-formed board each of the three drivers returns after
    finitely many passes through its loop: a move array if the goal board
    can be reached from the input board, and [null] exactly when it cannot,
    as for every board in the odd parity class.  The heuristic is the one
    the request names. *)
Theorem search_terminates b name :
  wellFormed b →
  (∃ fuel o, bfs fuel (new_PuzzleState b None None) = Some o ∧
             verdict b o) ∧
  (∃ fuel o, bestFirstSearch fuel (new_PuzzleState b None None)
               (selectHeuristic name) = Some o ∧ verdict b o) ∧
  (∃ fuel o, aStar fuel (new_PuzzleState b None None)
               (selectHeuristic name) = Some o ∧ verdict b o).
Proof.
  intros Hwf. split_and!.
  - destruct (bfs_decides b Hwf) as (fuel & o & Hrun & Hd).
    exists fuel, o. auto using decides_verdict.
  - destruct (informed_decides h (scoreH (selectHeuristic name))
                (scoreH_scoring _)
                (scoreH_total _ (selectHeuristic_total name)) b Hwf)
      as (fuel & o & Hrun & Hd).
    exists fuel, o. split; [|auto using decides_verdict].
    unfold bestFirstSearch.
    by rewrite (run_ext _ _ _ _ (bestFirst_informed _)).
  - destruct (informed_decides f (scoreF (selectHeuristic name))
                (scoreF_scoring _)
                (scoreF_total _ (selectHeuristic_total name)) b Hwf)
      as (fuel & o & Hrun & Hd).
    exists fuel, o. split; [|auto using decides_verdict].
    unfold aStar. by rewrite (run_ext _ _ _ _ (aStar_informed _)).
Qed.

(** A board of the odd class: the goal board with 7 and 8 exchanged. *)
Definition oddBoard : Board := [[1; 2; 3]; [4; 5; 6]; [8; 7; 0]].

Lemma search_terminates_witness :
  (∃ fuel o, bfs fuel (new_PuzzleState oddBoard None None) = Some o ∧
             verdict oddBoard o) ∧
  (∃ fuel o, bestFirstSearch fuel (new_PuzzleState oddBoard None None)
               (selectHeuristic "hamming") = Some o ∧ verdict oddBoard o) ∧
  (∃ fuel o, aStar fuel (new_PuzzleState oddBoard None None)
               (selectHeuristic "hamming") = Some o ∧ verdict oddBoard o).
Proof.
  apply (search_terminates oddBoard "hamming").
  apply (bool_decide_eq_true_1 (wellFormed _)). vm_compute. reflexivity.
Defined.

(** ** Two runs return the same result *)

(** A move array returned by an informed driver solves the board. *)
Lemma informed_found key score b fuel path :
  scoring score → wellFormed b →
  run (informed_iteration key score) fuel
    (start (new_PuzzleState b None None)) = Some (Found path) →
  ∃ ms, path = Some <$> ms ∧ solution b ms.
Proof.
  intros Hscore Hwf Hrun. set (root := new_PuzzleState b None None) in *.
  eapply (run_invariant _ (λ c, Forall (descends root) (frontier c))
            (λ o, o = Found path → _)); [..|exact Hrun|done].
  - intros c c' HF Hit. by apply (informed_descends key score root c c').
  - intros c o HF Hit ->.
    apply informed_iteration_inl in Hit
      as [[_ ?]|[(state & rest & Hfr & Hgoal & Hpath)|(? & ? & _ & _ & ? & _)]];
      [done| |done].
    injection Hpath as ->. rewrite Hfr in HF.
    apply Forall_cons in HF as [Hstate _].
    destruct (found_path_solves root state) as (ms & ? & ? & _); eauto.
  - repeat constructor.
Qed.

(** What the caller of a driver can receive: an array of moves, or
    [null]. *)
Definition answer (o : Outcome) : Prop :=
  o = NotFound ∨ ∃ ms, o = Found (Some <$> ms).

(** A run that is given [fuel0] passes or more returns [o], and no run
    returns anything else. *)
Definition settles (driver : nat → option Outcome) (o : Outcome) : Prop :=
  ∃ fuel0, (∀ fuel, (fuel0 ≤ fuel)%nat → driver fuel = Some o) ∧
           (∀ fuel o', driver fuel = Some o' → o' = o).

Lemma run_settles iteration c fuel0 o :
  run iteration fuel0 c = Some o → settles (λ fuel, run iteration fuel c) o.
Proof.
  intros Hrun. exists fuel0. split.
  - intros fuel Hle. by apply (run_mono iteration fuel0 fuel).
  - intros fuel o' Hrun'. by apply (run_deterministic iteration fuel fuel0 c).
Qed.

(** C4: on a well-formed board each driver has exactly one result - a move
    array or [null], never an exception: every run of the same algorithm
    with the same heuristic selection that is let to finish returns it, so
    two runs return the same move array, element for element, or [null]
    both.  On any input at all, two runs that return agree. *)
Theorem search_deterministic b name :
  wellFormed b →
  (∃ o, answer o ∧
        settles (λ fuel, bfs fuel (new_PuzzleState b None None)) o) ∧
  (∃ o, answer o ∧
        settles (λ fuel, bestFirstSearch fuel (new_PuzzleState b None None)
                           (selectHeuristic name)) o) ∧
  (∃ o, answer o ∧
        settles (λ fuel, aStar fuel (new_PuzzleState b None None)
                           (selectHeuristic name)) o) ∧
  (∀ initialState heuristic fuel1 fuel2,
     (∀ r1 r2, bfs fuel1 initialState = Some r1 →
               bfs fuel2 initialState = Some r2 → r1 = r2) ∧
     (∀ r1 r2, bestFirstSearch fuel1 initialState heuristic = Some r1 →
               bestFirstSearch fuel2 initialState heuristic = Some r2 →
               r1 = r2) ∧
     (∀ r1 r2, aStar fuel1 initialState heuristic = Some r1 →
               aStar fuel2 initialState heuristic = Some r2 → r1 = r2)).
Proof.
  intros Hwf. set (root := new_PuzzleState b None None).
  assert (Hanswer : ∀ o, decides b o →
            (∀ path, o = Found path → ∃ ms, path = Some <$> ms ∧ solution b ms) →
            answer o).
  { intros o [[-> _]|(path & -> & _)] Hpath; [by left|].
    destruct (Hpath path eq_refl) as (ms & -> & _). right. by exists ms. }
  split_and!.
  - destruct (bfs_decides b Hwf) as (fuel & o & Hrun & Hd).
    exists o. split; [|by apply (run_settles bfs_iteration (start root) fuel)].
    apply Hanswer; [done|]. intros path ->.
    destruct (bfs_shortest b fuel path Hwf Hrun) as (ms & ? & ? & _). eauto.
  - destruct (informed_decides h (scoreH (selectHeuristic name))
                (scoreH_scoring _)
                (scoreH_total _ (selectHeuristic_total name)) b Hwf)
      as (fuel & o & Hrun & Hd).
    exists o. split.
    + apply Hanswer; [done|]. intros path ->.
      by apply (informed_found h (scoreH (selectHeuristic name))
                  b fuel path (scoreH_scoring _)).
    + rewrite <- (run_ext _ _ _ _ (bestFirst_informed _)) in Hrun.
      by apply (run_settles _ (start root) fuel).
  - destruct (informed_decides f (scoreF (selectHeuristic name))
                (scoreF_scoring _)
                (scoreF_total _ (selectHeuristic_total name)) b Hwf)
      as (fuel & o & Hrun & Hd).
    exists o. split.
    + apply Hanswer; [done|]. intros path ->.
      by apply (informed_found f (scoreF (selectHeuristic name))
                  b fuel path (scoreF_scoring _)).
    + rewrite <- (run_ext _ _ _ _ (aStar_informed _)) in Hrun.
      by apply (run_settles _ (start root) fuel).
  - intros initialState heuristic fuel1 fuel2.
    split_and!; intros r1 r2; apply run_deterministic.
Qed.

Lemma search_deterministic_witness :
  (∃ o, answer o ∧
        settles (λ fuel, bfs fuel (new_PuzzleState oddBoard None None))
          o) ∧
  (∃ o, answer o ∧
        settles (λ fuel, bestFirstSearch fuel
                           (new_PuzzleState oddBoard None None)
                           (selectHeuristic "manhattan")) o) ∧
  (∃ o, answer o ∧
        settles (λ fuel, aStar fuel (new_PuzzleState oddBoard None None)
                           (selectHeuristic "manhattan")) o) ∧
  (∀ initialState heuristic fuel1 fuel2,
     (∀ r1 r2, bfs fuel1 initialState = Some r1 →
               bfs fuel2 initialState = Some r2 → r1 = r2) ∧
     (∀ r1 r2, bestFirstSearch fuel1 initialState heuristic = Some r1 →
               bestFirstSearch fuel2 initialState heuristic = Some r2 →
               r1 = r2) ∧
     (∀ r1 r2, aStar fuel1 initialState heuristic = Some r1 →
               aStar fuel2 initialState heuristic = Some r2 → r1 = r2)).
Proof.
  apply (search_deterministic oddBoard "manhattan").
  apply (bool_decide_eq_true_1 (wellFormed _)). vm_compute. reflexivity.
Defined.

(** A shortest solution: no solution has fewer moves. *)
Definition shortest (b : Board) (ms : list Move) : Prop :=
  solution b ms ∧ ∀ ms', solution b ms' → (length ms ≤ length ms')%nat.

(** A board on which greedy best-first search takes a detour. *)
Definition detourBoard : Board := [[1; 6; 2]; [5; 0; 3]; [4; 7; 8]].

Definition detour : list Move :=
  [(0, -1); (1, 0); (0, 1); (-1, 0); (-1, 0); (0, 1); (1, 0); (0, -1);
   (1, 0); (0, 1)].

Definition direct : list Move :=
  [(-1, 0); (0, 1); (1, 0); (0, -1); (0, -1); (1, 0); (0, 1); (0, 1)].

(** C2: for a solvable well-formed board [bfs] returns a shortest solution,
    and so does [aStar] with [manhattanDistance]; [bestFirstSearch] gives
    no such guarantee: on [detourBoard] it returns ten moves where eight
    suffice. *)
Theorem shortest_solutions b :
  wellFormed b → solvable b →
  (∃ fuel ms, bfs fuel (new_PuzzleState b None None)
                = Some (Found (Some <$> ms)) ∧ shortest b ms) ∧
  (∃ fuel ms, aStar fuel (new_PuzzleState b None None) manhattanDistance
                = Some (Found (Some <$> ms)) ∧ shortest b ms) ∧
  (∃ fuel, wellFormed detourBoard ∧
     bestFirstSearch fuel (new_PuzzleState detourBoard None None)
       manhattanDistance = Some (Found (Some <$> detour)) ∧
     solution detourBoard detour ∧ solution detourBoard direct ∧
     (length direct < length detour)%nat).
Proof.
  intros Hwf Hsol. split_and!.
  - destruct (bfs_decides b Hwf) as (fuel & o & Hrun & Hd).
    destruct Hd as [[_ ?]|(path & -> & _)]; [done|].
    destruct (bfs_shortest b fuel path Hwf Hrun) as (ms & -> & ? & ?).
    by exists fuel, ms.
  - destruct (informed_decides f (scoreF manhattanDistance)
                (scoreF_scoring _)
                (scoreF_total _ manhattanDistance_total) b Hwf)
      as (fuel & o & Hrun & Hd).
    destruct Hd as [[_ ?]|(path & -> & _)]; [done|].
    rewrite <- (run_ext _ _ _ _ (aStar_informed _)) in Hrun.
    destruct (astar_manhattan_shortest b fuel path Hwf Hrun)
      as (ms & -> & ? & ?).
    by exists fuel, ms.
  - exists 13%nat. split_and!.
    + apply (bool_decide_eq_true_1 (wellFormed _)). by vm_compute.
    + by vm_compute.
    + apply (bool_decide_eq_true_1 (solution _ _)). by vm_compute.
    + apply (bool_decide_eq_true_1 (solution _ _)). by vm_compute.
    + simpl. lia.
Qed.

Lemma shortest_solutions_witness :
  (∃ fuel ms, bfs fuel (new_PuzzleState detourBoard None None)
                = Some (Found (Some <$> ms)) ∧ shortest detourBoard ms) ∧
  (∃ fuel ms, aStar fuel (new_PuzzleState detourBoard None None)
                manhattanDistance
                = Some (Found (Some <$> ms)) ∧ shortest detourBoard ms) ∧
  (∃ fuel, wellFormed detourBoard ∧
     bestFirstSearch fuel (new_PuzzleState detourBoard None None)
       manhattanDistance = Some (Found (Some <$> detour)) ∧
     solution detourBoard detour ∧ solution detourBoard direct ∧
     (length direct < length detour)%nat).
Proof.
  apply (shortest_solutions detourBoard).
  - apply (bool_decide_eq_true_1 (wellFormed _)). vm_compute. reflexivity.
  - exists direct.
    apply (bool_decide_eq_true_1 (solution _ _)). vm_compute. reflexivity.
Defined.

(** ** Sliding back *)

Lemma moves_opposite m : m ∈ moves → (- m.1, - m.2) ∈ moves.
Proof.
  unfold moves. rewrite !elem_of_cons, !elem_of_nil.
  intros [->|[->|[->|[->|[]]]]]; simpl; tauto.
Qed.

(** The opposite move undoes a slide. *)
Lemma applyMove_back b m b' :
  wellFormed b → m ∈ moves → applyMove b m = Some b' →
  applyMove b' (- m.1, - m.2) = Some b.
Proof.
  intros Hwf Hm Ha.
  destruct (applyMove_Some _ _ _ Ha) as (x & y & tile & Hbl & Htile & Hb').
  pose proof (wellFormed_shape3 _ Hwf) as Hb.
  pose proof (applyMove_wellFormed _ _ _ Hwf Ha) as Hwf'.
  pose proof (applyMove_blank _ _ _ _ _ Hwf Ha Hbl) as Hbl'.
  pose proof (applyMove_swapped b m b' x y Hb Hm Hbl Ha) as Hsw.
  apply blankPosition_Some in Hbl as [Hxy Hzero].
  pose proof (cell_Some_inBounds _ _ _ _ Hb Htile) as Hnew.
  rewrite (applyMove_unfold _ _ _ _ Hbl'). simpl.
  replace (x + m.1 + - m.1) with x by lia.
  replace (y + m.2 + - m.2) with y by lia.
  rewrite Hsw, decide_True by done. cbn [fst snd]. rewrite Htile.
  cbn [mbind option_bind]. f_equal.
  apply shape3_flat_inj; [|done|].
  { do 2 apply shape3_setCell. by apply wellFormed_shape3. }
  rewrite !flat_setCell by auto using shape3_setCell, wellFormed_shape3.
  rewrite Hb', !flat_setCell by auto using shape3_setCell.
  rewrite cell_flat in Hzero, Htile by done.
  assert (Hne : pos x y ≠ pos (x + m.1) (y + m.2)).
  { intros Heq. apply pos_inj in Heq; [|done..]. injection Heq as ? ?.
    apply moves_odd in Hm. lia. }
  set (p := pos x y) in *. set (q := pos (x + m.1) (y + m.2)) in *.
  apply list_eq. intros k.
  destruct (decide (k = p)) as [Hkp|Hkp].
  { subst k. rewrite list_lookup_insert_eq; [done|].
    rewrite !length_insert. by eapply lookup_lt_Some. }
  rewrite list_lookup_insert_ne by done.
  destruct (decide (k = q)) as [Hkq|Hkq].
  { subst k. rewrite list_lookup_insert_eq; [done|].
    rewrite !length_insert. by eapply lookup_lt_Some. }
  by rewrite !list_lookup_insert_ne.
Qed.

(** X18: among the neighbors of a generated state is the board of its parent:
    the generator excludes no successor, the drivers filter them by the
    explored set. *)
Lemma neighbors_include_parent s p neighbors :
  generated s → parent s = Some p → getNeighbors s = Some neighbors →
  ∃ n, n ∈ neighbors ∧ board n = board p.
Proof.
  intros (b0 & Hwf0 & Hs) Hp Hns.
  set (root := new_PuzzleState b0 None None) in *.
  assert (Hroot : wellFormed (board root)) by done.
  pose proof (descends_wellFormed _ _ Hroot Hs) as Hwfs.
  destruct (descends_inv _ _ Hroot Hs)
    as [->|(p' & m & Hp' & Hm & Ha & Hpar & _)]; [done|].
  rewrite Hp in Hpar. injection Hpar as <-.
  pose proof (descends_wellFormed _ _ Hroot Hp') as Hwfp.
  pose proof (applyMove_back _ _ _ Hwfp Hm Ha) as Hback.
  exists (new_PuzzleState (board p) (Some s) (Some (- m.1, - m.2))).
  split; [|done].
  apply (getNeighbors_elem_of s neighbors Hwfs Hns).
  exists (- m.1, - m.2), (board p). auto using moves_opposite.
Qed.

(** * Further properties of the code *)

(** ** Identities of arbitrary boards *)

(** The tiles [getId] prints exactly as [String(n)] does: the integers a JS
    number represents without rounding. *)
Definition safeTiles (b : Board) : Prop :=
  Forall (λ t, - 2 ^ 53 < t < 2 ^ 53) (flat b).

Fixpoint commaFree (s : string) : bool :=
  match s with
  | EmptyString => true
  | String c s' => negb (Ascii.eqb c ",") && commaFree s'
  end.

Lemma append_cons c (s1 s2 : string) :
  String c s1 +:+ s2 = String c (s1 +:+ s2).
Proof. reflexivity. Qed.

Lemma append_nil_l (s : string) : "" +:+ s = s.
Proof. reflexivity. Qed.

Lemma append_assoc (s1 s2 s3 : string) :
  (s1 +:+ s2) +:+ s3 = s1 +:+ s2 +:+ s3.
Proof.
  induction s1 as [|c s1 IH]; [done|]. by rewrite !append_cons, IH.
Qed.

Lemma append_nil_r (s : string) : s +:+ "" = s.
Proof. induction s as [|c s IH]; [done|]. by rewrite append_cons, IH. Qed.

Lemma commaFree_app s1 s2 :
  commaFree (s1 +:+ s2) = commaFree s1 && commaFree s2.
Proof.
  induction s1 as [|c s1 IH]; [done|].
  rewrite append_cons. simpl. by rewrite IH, andb_assoc.
Qed.

Lemma pretty_N_char_commaFree x s :
  commaFree (String (pretty_N_char x) s) = commaFree s.
Proof. unfold pretty_N_char. by repeat case_match. Qed.

Lemma pretty_N_go_commaFree x s :
  ∃ p, pretty_N_go x s = p +:+ s ∧ commaFree p = true ∧
       ((0 < x)%N → p ≠ "").
Proof.
  revert s. induction (N.lt_wf_0 x) as [x _ IH]. intros s.
  assert (x = 0 ∨ 0 < x)%N as [->|Hx] by lia.
  { exists "". rewrite pretty_N_go_0. split_and!; [done..|lia]. }
  rewrite pretty_N_go_step by done.
  destruct (IH (x `div` 10)%N) with
    (s := String (pretty_N_char (x `mod` 10)) s) as (p & -> & Hp & _).
  { by apply N.div_lt. }
  exists (p +:+ String (pretty_N_char (x `mod` 10)) "").
  split_and!.
  - by rewrite append_assoc.
  - by rewrite commaFree_app, Hp, pretty_N_char_commaFree.
  - intros _. destruct p; by rewrite ?append_cons, ?append_nil_l.
Qed.

Lemma pretty_N_commaFree (x : N) :
  commaFree (pretty x) = true ∧ pretty x ≠ "".
Proof.
  unfold pretty, pretty_N. case_decide as Hx; [done|].
  destruct (pretty_N_go_commaFree x "") as (p & -> & Hp & Hne).
  rewrite append_nil_r. split; [done|]. apply Hne. lia.
Qed.

(** The decimal form of an integer is not empty and holds no comma. *)
Lemma pretty_Z_commaFree (z : Z) :
  commaFree (pretty z) = true ∧ pretty z ≠ "".
Proof.
  destruct z as [|x|x]; [done|apply (pretty_N_commaFree (Npos x))|].
  change (pretty (Z.neg x)) with ("-" +:+ pretty (Npos x)).
  destruct (pretty_N_commaFree (Npos x)) as [Hc _].
  rewrite append_cons, append_nil_l. simpl. by rewrite Hc.
Qed.

(** Two strings that agree up to their first comma. *)
Lemma comma_split p q r r' :
  commaFree p = true → commaFree q = true →
  p +:+ String "," r = q +:+ String "," r' → p = q ∧ r = r'.
Proof.
  revert q. induction p as [|c p IH]; intros [|d q] Hp Hq Heq;
    rewrite ?append_cons, ?append_nil_l in Heq; simpl in Hp, Hq.
  - by injection Heq as ->.
  - injection Heq as <- _. done.
  - injection Heq as -> _. done.
  - injection Heq as -> Heq.
    apply andb_true_iff in Hp as [_ Hp]. apply andb_true_iff in Hq as [_ Hq].
    destruct (IH q Hp Hq Heq) as [-> ->]. done.
Qed.

Lemma comma_absent p q r :
  commaFree p = true → p ≠ q +:+ String "," r.
Proof.
  intros Hp ->. rewrite commaFree_app in Hp. simpl in Hp.
  by rewrite andb_false_r in Hp.
Qed.

(** [join(',')] loses nothing: the string determines the sequence. *)
Lemma join_inj l1 l2 : join "," l1 = join "," l2 → l1 = l2.
Proof.
  revert l2. induction l1 as [|t l1 IH]; intros [|u l2] Heq.
  - done.
  - exfalso. rewrite join_cons in Heq.
    destruct (pretty_Z_commaFree u) as [_ Hne].
    destruct l2; [done|]. by destruct (pretty u).
  - exfalso. rewrite join_cons in Heq.
    destruct (pretty_Z_commaFree t) as [_ Hne].
    destruct l1; [done|]. by destruct (pretty t).
  - rewrite !join_cons in Heq.
    destruct (pretty_Z_commaFree t) as [Ht _].
    destruct (pretty_Z_commaFree u) as [Hu _].
    destruct l1 as [|t' l1], l2 as [|u' l2].
    + f_equal. by apply (inj pretty).
    + by destruct (comma_absent _ _ _ Ht Heq).
    + symmetry in Heq. by destruct (comma_absent _ _ _ Hu Heq).
    + destruct (comma_split _ _ _ _ Ht Hu Heq) as [Hp Hr].
      f_equal; [by apply (inj pretty)|by apply IH].
Qed.

(** X1: [getId] tells two boards apart exactly when their flattened tile
    sequences differ; among 3x3 boards it tells any two apart.  Boards of
    another layout can share an identity with a 3x3 board. *)
Theorem getId_flat s1 s2 :
  safeTiles (board s1) → safeTiles (board s2) →
  (getId s1 = getId s2 ↔ flat (board s1) = flat (board s2)) ∧
  (shape3 (board s1) → shape3 (board s2) →
   getId s1 = getId s2 ↔ board s1 = board s2).
Proof.
  intros _ _. unfold getId. split.
  - split; [apply join_inj|by intros ->].
  - intros H1 H2. split; [|by intros ->].
    intros Heq. by apply shape3_flat_inj, join_inj.
Qed.

(** The board of [nearGoal] laid out as one row of nine. *)
Definition oneRow : PuzzleState :=
  new_PuzzleState [[1; 2; 3; 4; 5; 0; 7; 8; 6]] None None.

Lemma getId_flat_witness :
  (getId nearGoal = getId oneRow ↔
   flat (board nearGoal) = flat (board oneRow)) ∧
  (shape3 (board nearGoal) → shape3 (board oneRow) →
   getId nearGoal = getId oneRow ↔ board nearGoal = board oneRow).
Proof.
  apply (getId_flat nearGoal oneRow);
    unfold safeTiles; repeat constructor; vm_compute; done.
Defined.

Lemma isGoal_sequence s :
  isGoal s = true ↔ flat (board s) = [1; 2; 3; 4; 5; 6; 7; 8; 0].
Proof.
  unfold isGoal, getId. rewrite bool_decide_eq_true.
  change "1,2,3,4,5,6,7,8,0" with (join "," [1; 2; 3; 4; 5; 6; 7; 8; 0]).
  split; [apply join_inj|by intros ->].
Qed.

(** X2: [isGoal] holds exactly for the boards whose flattened tile sequence is
    1, 2, ..., 8, 0, whatever their row layout. *)
Theorem isGoal_flat s :
  safeTiles (board s) →
  isGoal s = true ↔ flat (board s) = [1; 2; 3; 4; 5; 6; 7; 8; 0].
Proof.
  intros _. unfold isGoal, getId. rewrite bool_decide_eq_true.
  change "1,2,3,4,5,6,7,8,0" with (join "," [1; 2; 3; 4; 5; 6; 7; 8; 0]).
  split.
  - apply join_inj.
  - by intros ->.
Qed.

Lemma isGoal_flat_witness :
  isGoal (new_PuzzleState [[1; 2; 3; 4; 5; 6; 7; 8; 0]] None None) = true ↔
  flat [[1; 2; 3; 4; 5; 6; 7; 8; 0]] = [1; 2; 3; 4; 5; 6; 7; 8; 0].
Proof.
  apply (isGoal_flat (new_PuzzleState [[1; 2; 3; 4; 5; 6; 7; 8; 0]] None None)).
  unfold safeTiles. repeat constructor; vm_compute; done.
Defined.

(** ** [findZero] on arbitrary boards *)

(** The scan of one row: the first column among [js] that holds 0. *)
Lemma findZero_row_Some row i js r :
  findZero_row row i js = Some r →
  ∃ js1 j js2, js = js1 ++ j :: js2 ∧ r = (i, j) ∧
    index j ≫= (row !!.) = Some 0 ∧
    Forall (λ j', index j' ≫= (row !!.) ≠ Some 0) js1.
Proof.
  induction js as [|j js IH]; simpl; [done|]. case_decide as Hj.
  - intros [= <-]. exists [], j, js. by split_and!.
  - intros (js1 & j' & js2 & -> & -> & ? & ?)%IH.
    exists (j :: js1), j', js2. split_and!; [done..|by constructor].
Qed.

Lemma findZero_row_None row i js :
  findZero_row row i js = None →
  Forall (λ j', index j' ≫= (row !!.) ≠ Some 0) js.
Proof.
  induction js as [|j js IH]; simpl; [constructor|]. case_decide; [done|].
  intros ?%IH. by constructor.
Qed.

(** The scan of the rows: the rows before the one that holds the first 0
    exist and hold none. *)
Lemma findZero_rows_Some b rows r :
  findZero_rows b rows = Some r →
  ∃ rows1 i rows2 row, rows = rows1 ++ i :: rows2 ∧
    index i ≫= (b !!.) = Some row ∧
    findZero_row row i [0; 1; 2] = Some r ∧
    Forall (λ i', ∃ row', index i' ≫= (b !!.) = Some row' ∧
                    findZero_row row' i' [0; 1; 2] = None) rows1.
Proof.
  induction rows as [|i rows IH]; cbn [findZero_rows]; [done|].
  destruct (index i ≫= (b !!.)) as [row|] eqn:Hrow; [|done].
  destruct (findZero_row row i [0; 1; 2]) as [r'|] eqn:Hscan.
  - intros [= <-]. exists [], i, rows, row. by split_and!.
  - intros (rows1 & i' & rows2 & row' & -> & ? & ? & ?)%IH.
    exists (i :: rows1), i', rows2, row'. split_and!; [done..|].
    constructor; eauto.
Qed.

Lemma prefix_012 (l1 : list Z) j l2 j' :
  [0; 1; 2] = l1 ++ j :: l2 → 0 ≤ j' < j → j' ∈ l1.
Proof.
  intros Heq Hj'.
  destruct l1 as [|a [|a' [|a'' l1]]]; injection Heq as Heq;
    subst; rewrite ?elem_of_cons; try lia.
  by destruct l1.
Qed.

Lemma cell_index b i j :
  cell b i j = row ← index i ≫= (b !!.); index j ≫= (row !!.).
Proof.
  unfold cell. destruct (index i) as [ni|]; simpl; [|done].
  destruct (index j) as [nj|]; simpl; [done|]. by destruct (b !! ni).
Qed.

(** X3: [findZero] returns the first cell, in row-major order, that holds 0:
    no cell before it does.  This is so on any board, also one that holds
    several zeros or has short rows. *)
Theorem findZero_first s i j :
  findZero s = Some (i, j) →
  inBounds i j = true ∧ cell (board s) i j = Some 0 ∧
  ∀ i' j', inBounds i' j' = true → i' < i ∨ (i' = i ∧ j' < j) →
    cell (board s) i' j' ≠ Some 0.
Proof.
  unfold findZero.
  intros (rows1 & i0 & rows2 & row & Hrows & Hrow & Hscan & Hbefore)
    %findZero_rows_Some.
  apply findZero_row_Some in Hscan
    as (js1 & j0 & js2 & Hjs & [= -> ->] & Hzero & Hleft).
  assert (Hi : 0 ≤ i0 < 3).
  { assert (i0 ∈ [0; 1; 2]) as Hin by (rewrite Hrows; set_solver).
    rewrite !elem_of_cons, elem_of_nil in Hin. lia. }
  assert (Hj : 0 ≤ j0 < 3).
  { assert (j0 ∈ [0; 1; 2]) as Hin by (rewrite Hjs; set_solver).
    rewrite !elem_of_cons, elem_of_nil in Hin. lia. }
  split_and!.
  - apply inBounds_spec. lia.
  - by rewrite cell_index, Hrow.
  - intros i' j' [Hi' Hj']%inBounds_spec Hlt. rewrite cell_index.
    destruct Hlt as [Hlt|[-> Hlt]].
    + assert (i' ∈ rows1) as Hin by (eapply prefix_012; [done|lia]).
      rewrite Forall_forall in Hbefore.
      destruct (Hbefore i' Hin) as (row' & -> & Hnone).
      apply findZero_row_None in Hnone. rewrite Forall_forall in Hnone.
      apply Hnone. rewrite !elem_of_cons. lia.
    + rewrite Hrow. assert (j' ∈ js1) as Hin by (eapply prefix_012; [done|lia]).
      rewrite Forall_forall in Hleft. by apply Hleft.
Qed.

Lemma findZero_first_witness :
  inBounds 1 0 = true ∧
  cell (board (new_PuzzleState [[1; 2; 3]; [0; 5; 0]; [7]] None None)) 1 0
    = Some 0 ∧
  ∀ i' j', inBounds i' j' = true → i' < 1 ∨ (i' = 1 ∧ j' < 0) →
    cell (board (new_PuzzleState [[1; 2; 3]; [0; 5; 0]; [7]] None None)) i' j'
      ≠ Some 0.
Proof.
  apply (findZero_first
           (new_PuzzleState [[1; 2; 3]; [0; 5; 0]; [7]] None None) 1 0).
  reflexivity.
Defined.

(** ** Boards without a blank *)

Lemma blankPosition_absent b :
  shape3 b → blankPosition b = None ↔ 0 ∉ flat b.
Proof.
  intros Hb. split.
  - intros Hnone Hin.
    destruct (shape3_inv b Hb) as (t0&t1&t2&t3&t4&t5&t6&t7&t8&->).
    pose proof (blankPosition_None _ Hnone) as Hout.
    unfold flat, board9 in Hin. simpl in Hin.
    rewrite !elem_of_cons, elem_of_nil in Hin.
    destruct Hin as [<-|[<-|[<-|[<-|[<-|[<-|[<-|[<-|[<-|[]]]]]]]]]].
    + by specialize (Hout 0 0 eq_refl).
    + by specialize (Hout 0 1 eq_refl).
    + by specialize (Hout 0 2 eq_refl).
    + by specialize (Hout 1 0 eq_refl).
    + by specialize (Hout 1 1 eq_refl).
    + by specialize (Hout 1 2 eq_refl).
    + by specialize (Hout 2 0 eq_refl).
    + by specialize (Hout 2 1 eq_refl).
    + by specialize (Hout 2 2 eq_refl).
  - intros Hnin. destruct (blankPosition b) as [[x y]|] eqn:Hbl; [|done].
    apply blankPosition_Some in Hbl as [Hxy Hzero].
    rewrite cell_flat in Hzero by done.
    by apply list_elem_of_lookup_2 in Hzero.
Qed.

(** X4: On a 3x3 board [findZero] returns [undefined] exactly when no cell
    holds 0, and exactly then [getNeighbors] raises; otherwise it returns
    the children of the in-bounds moves, whatever the other tiles are. *)
Theorem getNeighbors_raises s :
  shape3 (board s) →
  (findZero s = None ↔ 0 ∉ flat (board s)) ∧
  (getNeighbors s = None ↔ 0 ∉ flat (board s)) ∧
  (0 ∈ flat (board s) → getNeighbors s = Some (omap (child s) moves)).
Proof.
  intros Hb. rewrite <- (blankPosition_absent _ Hb).
  rewrite (findZero_blankPosition s Hb).
  assert (Hsome : ∀ x y, blankPosition (board s) = Some (x, y) →
            getNeighbors s = Some (omap (child s) moves)).
  { intros x y Hbl. unfold getNeighbors.
    rewrite findZero_blankPosition, Hbl by done. cbn [mbind option_bind].
    by rewrite (getNeighbors_loop_spec s x y moves []). }
  split_and!; [done| |].
  - split.
    + destruct (blankPosition (board s)) as [[x y]|] eqn:Hbl; [|done].
      by rewrite (Hsome x y).
    + intros Hnone. unfold getNeighbors.
      by rewrite findZero_blankPosition, Hnone.
  - intros Hin.
    destruct (blankPosition (board s)) as [[x y]|] eqn:Hbl; [eauto|].
    by apply (blankPosition_absent _ Hb) in Hbl.
Qed.

(** A 3x3 board that holds 9 where the blank should be. *)
Definition noBlank : PuzzleState :=
  new_PuzzleState [[1; 2; 3]; [4; 5; 6]; [7; 8; 9]] None None.

Lemma getNeighbors_raises_witness :
  (findZero noBlank = None ↔ 0 ∉ flat (board noBlank)) ∧
  (getNeighbors noBlank = None ↔ 0 ∉ flat (board noBlank)) ∧
  (0 ∈ flat (board noBlank) →
   getNeighbors noBlank = Some (omap (child noBlank) moves)).
Proof. apply (getNeighbors_raises noBlank). split; by repeat constructor. Defined.

(** ** The [/solve] handler *)

(** What the handler sends: the solution with status 200, the 404 and 400
    error objects, or nothing when an exception leaves it. *)
Inductive Response :=
  | Ok200 (solution : list (option Move))
  | NotFound404
  | BadRequest400
  | Uncaught.

(** [if (solution)]: an array, also the empty one, is truthy; [null] is
    not. *)
Definition respond (solution : Outcome) : Response :=
  match solution with
  | Found path => Ok200 path
  | NotFound => NotFound404
  | Fault => Uncaught
  end.

Definition handler (fuel : nat) (puzzle : Board)
    (algorithm heuristic : string) : option Response :=
  match solve fuel puzzle algorithm heuristic with
  | None => None
  | Some None => Some BadRequest400
  | Some (Some solution) => Some (respond solution)
  end.

(** The algorithm names the [switch] knows. *)
Definition algorithms : list string := ["bfs"; "bestFirst"; "aStar"].

Lemma handler_bfs fuel puzzle heuristic o :
  bfs fuel (new_PuzzleState puzzle None None) = Some o →
  handler fuel puzzle "bfs" heuristic = Some (respond o).
Proof. unfold handler, solve. rewrite decide_True by done. by intros ->. Qed.

Lemma handler_bestFirst fuel puzzle heuristic o :
  bestFirstSearch fuel (new_PuzzleState puzzle None None)
    (selectHeuristic heuristic) = Some o →
  handler fuel puzzle "bestFirst" heuristic = Some (respond o).
Proof.
  unfold handler, solve. rewrite decide_False by done.
  rewrite decide_True by done. by intros ->.
Qed.

Lemma handler_aStar fuel puzzle heuristic o :
  aStar fuel (new_PuzzleState puzzle None None)
    (selectHeuristic heuristic) = Some o →
  handler fuel puzzle "aStar" heuristic = Some (respond o).
Proof.
  unfold handler, solve. rewrite !decide_False by done.
  rewrite decide_True by done. by intros ->.
Qed.

(** X5: The handler end to end.  An algorithm name outside the three known
    ones is answered with 400, whatever the puzzle.  For a known algorithm
    and a well-formed puzzle the handler answers, whatever the heuristic
    name: with 200 and a move array that solves the puzzle, or with 404,
    and then the puzzle has no solution. *)
Theorem handler_answers puzzle algorithm heuristic :
  (algorithm ∉ algorithms →
   ∀ fuel, handler fuel puzzle algorithm heuristic = Some BadRequest400) ∧
  (algorithm ∈ algorithms → wellFormed puzzle →
   ∃ fuel,
     (∃ ms, handler fuel puzzle algorithm heuristic
              = Some (Ok200 (Some <$> ms)) ∧ solution puzzle ms) ∨
     (handler fuel puzzle algorithm heuristic = Some NotFound404 ∧
      ¬ solvable puzzle)).
Proof.
  unfold algorithms. rewrite !not_elem_of_cons, !elem_of_cons, elem_of_nil.
  split.
  - intros (? & ? & ? & _) fuel. unfold handler, solve.
    by rewrite !decide_False by done.
  - intros Halg Hwf.
    set (root := new_PuzzleState puzzle None None).
    assert (Hanswer : ∀ fuel o,
      handler fuel puzzle algorithm heuristic = Some (respond o) →
      decides puzzle o →
      (∀ path, o = Found path → ∃ ms, path = Some <$> ms ∧ solution puzzle ms) →
      ∃ fuel,
        (∃ ms, handler fuel puzzle algorithm heuristic
                 = Some (Ok200 (Some <$> ms)) ∧ solution puzzle ms) ∨
        (handler fuel puzzle algorithm heuristic = Some NotFound404 ∧
         ¬ solvable puzzle)).
    { intros fuel o Hh Hd Hfound. exists fuel. rewrite Hh.
      destruct Hd as [[-> Hno]|(path & -> & _)]; [by right|].
      destruct (Hfound path eq_refl) as (ms & -> & Hsol). left. by exists ms. }
    destruct Halg as [->|[->|[->|[]]]].
    + destruct (bfs_decides puzzle Hwf) as (fuel & o & Hrun & Hd).
      apply (Hanswer fuel o); [by apply handler_bfs|done|].
      intros path ->.
      destruct (bfs_shortest puzzle fuel path Hwf Hrun) as (ms & ? & ? & _).
      eauto.
    + destruct (informed_decides h (scoreH (selectHeuristic heuristic))
                  (scoreH_scoring _)
                  (scoreH_total _ (selectHeuristic_total heuristic))
                  puzzle Hwf) as (fuel & o & Hrun & Hd).
      apply (Hanswer fuel o); [|done|].
      * apply handler_bestFirst. unfold bestFirstSearch.
        by rewrite (run_ext _ _ _ _ (bestFirst_informed _)).
      * intros path ->.
        by apply (informed_found h (scoreH (selectHeuristic heuristic))
                    puzzle fuel path (scoreH_scoring _)).
    + destruct (informed_decides f (scoreF (selectHeuristic heuristic))
                  (scoreF_scoring _)
                  (scoreF_total _ (selectHeuristic_total heuristic))
                  puzzle Hwf) as (fuel & o & Hrun & Hd).
      apply (Hanswer fuel o); [|done|].
      * apply handler_aStar. unfold aStar.
        by rewrite (run_ext _ _ _ _ (aStar_informed _)).
      * intros path ->.
        by apply (informed_found f (scoreF (selectHeuristic heuristic))
                    puzzle fuel path (scoreF_scoring _)).
Qed.

(** X6: A puzzle that is already solved is answered with 200 and the empty
    move array, not with 404: each driver returns in its first pass,
    before it calls the heuristic. *)
Theorem solved_puzzle_answer puzzle algorithm heuristic name fuel :
  isGoal (new_PuzzleState puzzle None None) = true →
  algorithm ∈ algorithms →
  bfs (S fuel) (new_PuzzleState puzzle None None) = Some (Found []) ∧
  bestFirstSearch (S fuel) (new_PuzzleState puzzle None None) heuristic
    = Some (Found []) ∧
  aStar (S fuel) (new_PuzzleState puzzle None None) heuristic
    = Some (Found []) ∧
  handler (S fuel) puzzle algorithm name = Some (Ok200 []).
Proof.
  intros Hgoal Halg.
  assert (Hb : bfs (S fuel) (new_PuzzleState puzzle None None)
               = Some (Found [])).
  { unfold bfs, start. cbn [run]. unfold bfs_iteration. cbn [frontier].
    by rewrite Hgoal. }
  assert (Hbf : ∀ hf, bestFirstSearch (S fuel)
                  (new_PuzzleState puzzle None None) hf = Some (Found [])).
  { intros hf. unfold bestFirstSearch, start. cbn [run].
    unfold bestFirst_iteration. cbn [frontier]. by rewrite Hgoal. }
  assert (Ha : ∀ hf, aStar (S fuel)
                  (new_PuzzleState puzzle None None) hf = Some (Found [])).
  { intros hf. unfold aStar, start. cbn [run].
    unfold aStar_iteration. cbn [frontier]. by rewrite Hgoal. }
  split_and!; [done..|].
  unfold algorithms in Halg. rewrite !elem_of_cons, elem_of_nil in Halg.
  destruct Halg as [->|[->|[->|[]]]].
  - by rewrite (handler_bfs _ _ _ _ Hb).
  - by rewrite (handler_bestFirst _ _ _ _ (Hbf _)).
  - by rewrite (handler_aStar _ _ _ _ (Ha _)).
Qed.

Lemma solved_puzzle_answer_witness :
  bfs 1 (new_PuzzleState goalBoard None None) = Some (Found []) ∧
  bestFirstSearch 1 (new_PuzzleState goalBoard None None) manhattanDistance
    = Some (Found []) ∧
  aStar 1 (new_PuzzleState goalBoard None None) manhattanDistance
    = Some (Found []) ∧
  handler 1 goalBoard "aStar" "hamming" = Some (Ok200 []).
Proof.
  apply (solved_puzzle_answer goalBoard "aStar" manhattanDistance "hamming" 0).
  - reflexivity.
  - unfold algorithms. set_solver.
Defined.

(** X7: On a 3x3 board without a blank every driver raises in its first pass
    through the loop: the root is not the goal, and expanding it fails.
    The handler answers neither 200 nor 404. *)
Theorem drivers_raise_without_blank b heuristic algorithm name fuel :
  shape3 b → safeTiles b → 0 ∉ flat b → algorithm ∈ algorithms →
  bfs (S fuel) (new_PuzzleState b None None) = Some Fault ∧
  bestFirstSearch (S fuel) (new_PuzzleState b None None) heuristic
    = Some Fault ∧
  aStar (S fuel) (new_PuzzleState b None None) heuristic = Some Fault ∧
  handler (S fuel) b algorithm name = Some Uncaught.
Proof.
  intros Hb _ Hzero Halg. set (root := new_PuzzleState b None None).
  assert (Hgoal : isGoal root = false).
  { apply not_true_iff_false. rewrite isGoal_sequence. intros Hflat.
    apply Hzero. change (board root) with b in Hflat. rewrite Hflat.
    set_solver. }
  assert (Hns : getNeighbors root = None).
  { unfold getNeighbors. rewrite findZero_blankPosition by done.
    change (board root) with b.
    by rewrite (proj2 (blankPosition_absent b Hb) Hzero). }
  assert (Hruns : bfs (S fuel) root = Some Fault ∧
    (∀ hf, bestFirstSearch (S fuel) root hf = Some Fault) ∧
    (∀ hf, aStar (S fuel) root hf = Some Fault)).
  { unfold bfs, bestFirstSearch, aStar, start. cbn [run].
    unfold bfs_iteration, bestFirst_iteration, aStar_iteration.
    cbn [frontier]. by rewrite Hgoal, Hns. }
  destruct Hruns as (Hbfs & Hbf & Ha). split_and!; [done..|].
  unfold algorithms in Halg. rewrite !elem_of_cons, elem_of_nil in Halg.
  destruct Halg as [->|[->|[->|[]]]].
  - by rewrite (handler_bfs _ _ _ _ Hbfs).
  - by rewrite (handler_bestFirst _ _ _ _ (Hbf _)).
  - by rewrite (handler_aStar _ _ _ _ (Ha _)).
Qed.

Lemma drivers_raise_without_blank_witness :
  bfs 1 noBlank = Some Fault ∧
  bestFirstSearch 1 noBlank hammingDistance = Some Fault ∧
  aStar 1 noBlank hammingDistance = Some Fault ∧
  handler 1 [[1; 2; 3]; [4; 5; 6]; [7; 8; 9]] "bfs" "hamming"
    = Some Uncaught.
Proof.
  apply (drivers_raise_without_blank
           [[1; 2; 3]; [4; 5; 6]; [7; 8; 9]] hammingDistance
           "bfs" "hamming" 0).
  - split; by repeat constructor.
  - unfold safeTiles. repeat constructor; vm_compute; done.
  - apply (bool_decide_unpack _). vm_compute. exact I.
  - unfold algorithms. set_solver.
Defined.

(** ** The depth of a state *)

(** X8: [reconstructPath] and the constructor's [g] agree, and replaying the
    path undoes the reconstruction: for every state generated from a root,
    the path has [g] entries, each a cardinal move and none [null];
    applying them to the root's board gives the state's board; and the
    path of a child is its parent's followed by its own move. *)
Theorem path_replays b s :
  wellFormed b → descends (new_PuzzleState b None None) s →
  g s = Z.of_nat (length (reconstructPath s)) ∧
  (∃ ms, reconstructPath s = Some <$> ms ∧ Forall (λ m, m ∈ moves) ms ∧
         applyMoves b ms = Some (board s)) ∧
  ∀ p, parent s = Some p →
    reconstructPath s = reconstructPath p ++ [move s] ∧ g s = g p + 1.
Proof.
  intros Hwf Hs. set (root := new_PuzzleState b None None) in *.
  destruct (descends_path root s Hwf eq_refl Hs)
    as (ms & Hpath & Hms & Happ & Hg).
  split_and!.
  - rewrite Hpath, length_fmap, Hg. simpl. lia.
  - by exists ms.
  - intros p Hp. split; [by apply reconstructPath_child|].
    destruct (descends_inv root s Hwf Hs)
      as [->|(p' & m & _ & _ & _ & Hpar & _ & Hgs)]; [done|]. congruence.
Qed.

Lemma descends_grandchild : descends nearGoal grandchild.
Proof.
  set (p := new_PuzzleState [[1; 2; 3]; [4; 5; 6]; [7; 8; 0]]
              (Some nearGoal) (Some (1, 0))).
  apply (descends_child _ p (default [] (getNeighbors p))
           (new_PuzzleState [[1; 2; 3]; [4; 5; 6]; [7; 0; 8]]
              (Some p) (Some (0, -1))) 0 0).
  - apply (descends_child _ nearGoal (default [] (getNeighbors nearGoal))
             (new_PuzzleState [[1; 2; 3]; [4; 5; 6]; [7; 8; 0]]
                (Some nearGoal) (Some (1, 0))) 0 0).
    + apply descends_root.
    + vm_compute. reflexivity.
    + vm_compute. apply list_elem_of_here.
  - vm_compute. reflexivity.
  - vm_compute. apply list_elem_of_here.
Qed.

Lemma generated_grandchild : generated grandchild.
Proof.
  exists (board nearGoal). split; [|apply descends_grandchild].
  apply (bool_decide_eq_true_1 (wellFormed _)). vm_compute. reflexivity.
Qed.

Lemma path_replays_witness :
  g grandchild = Z.of_nat (length (reconstructPath grandchild)) ∧
  (∃ ms, reconstructPath grandchild = Some <$> ms ∧
         Forall (λ m, m ∈ moves) ms ∧
         applyMoves [[1; 2; 3]; [4; 5; 0]; [7; 8; 6]] ms
           = Some (board grandchild)) ∧
  ∀ p, parent grandchild = Some p →
    reconstructPath grandchild = reconstructPath p ++ [move grandchild] ∧
    g grandchild = g p + 1.
Proof.
  apply (path_replays [[1; 2; 3]; [4; 5; 0]; [7; 8; 6]] grandchild).
  - apply (bool_decide_eq_true_1 (wellFormed _)). vm_compute. reflexivity.
  - apply descends_grandchild.
Defined.

(** ** How the two heuristics relate *)

Lemma sumZ_le {A} (F G : A → Z) (l : list A) :
  (∀ v, v ∈ l → F v ≤ G v) → sumZ (F <$> l) ≤ sumZ (G <$> l).
Proof.
  induction l as [|v l IH]; intros HFG; [done|].
  rewrite !fmap_cons, !sumZ_cons.
  pose proof (HFG v (list_elem_of_here _ _)).
  assert (sumZ (F <$> l) ≤ sumZ (G <$> l)); [|lia].
  apply IH. intros v' Hv'. apply HFG. by right.
Qed.

(** Two sums that differ in the term of one element. *)
Lemma sumZ_single {A} `{EqDecision A} (F G : A → Z) (v0 : A) (l : list A) :
  NoDup l → v0 ∈ l → (∀ v, v ∈ l → v ≠ v0 → F v = G v) →
  sumZ (F <$> l) = sumZ (G <$> l) + F v0 - G v0.
Proof.
  induction 1 as [|v l Hv Hl IH]; intros Hin HFG.
  { by apply elem_of_nil in Hin. }
  rewrite !fmap_cons, !sumZ_cons.
  destruct (decide (v = v0)) as [->|Hne].
  - assert (sumZ (F <$> l) = sumZ (G <$> l)) as ->; [|lia].
    f_equal. apply Forall_fmap_ext, Forall_forall. intros v Hvl.
    apply HFG; [by right|]. intros ->. done.
  - apply elem_of_cons in Hin as [->|Hin]; [done|].
    rewrite IH; [|done|].
    + rewrite (HFG v); [lia|by left|done].
    + intros v' Hv' ?. apply HFG; [by right|done].
Qed.

Lemma misplaced_le_gridDistance v p : misplaced v p ≤ gridDistance v p.
Proof.
  unfold misplaced, gridDistance. destruct p as [x y].
  generalize (goalCell v). intros [gx gy]. cbn [fst snd].
  destruct (decide (v ≠ 0)) as [Hv|Hv].
  - case_decide as Hd; [|lia]. destruct Hd as [_ Hd].
    assert (x ≠ gx ∨ y ≠ gy)
      by (destruct (decide (x = gx)); [right|left]; congruence).
    lia.
  - rewrite decide_False; [done|]. tauto.
Qed.

Lemma misplacedTiles_le_manhattanSum b :
  wellFormed b → misplacedTiles b ≤ manhattanSum b.
Proof.
  intros Hwf. rewrite misplacedTiles_sum, manhattanSum_sum by done.
  apply sumZ_le. intros v _. unfold tileTerm.
  destruct (tilePosition b v); [apply misplaced_le_gridDistance|done].
Qed.

Lemma misplacedTiles_le_8 b : misplacedTiles b ≤ 8.
Proof.
  unfold misplacedTiles. change 8 with (Z.of_nat (length tiles)).
  apply inj_le, length_filter.
Qed.

(** X9: On a well-formed board the Hamming distance is at most 8 and never
    exceeds the Manhattan distance. *)
Theorem hamming_le_manhattan s :
  wellFormed (board s) →
  ∃ a b, hammingDistance s = Some a ∧ manhattanDistance s = Some b ∧
         0 ≤ a ≤ b ∧ a ≤ 8.
Proof.
  intros Hwf. exists (misplacedTiles (board s)), (manhattanSum (board s)).
  split_and!; auto using hammingDistance_spec, manhattanDistance_spec,
    misplacedTiles_nonneg, misplacedTiles_le_manhattanSum,
    misplacedTiles_le_8.
Qed.

Lemma hamming_le_manhattan_witness :
  ∃ a b, hammingDistance nearGoal = Some a ∧
         manhattanDistance nearGoal = Some b ∧ 0 ≤ a ≤ b ∧ a ≤ 8.
Proof.
  apply (hamming_le_manhattan nearGoal).
  apply (bool_decide_eq_true_1 (wellFormed _)). vm_compute. reflexivity.
Defined.

(** A slide moves one tile: a sum over the tiles changes in the term of
    the moved tile only, which goes from the cell the blank moves onto to
    the cell the blank leaves. *)
Lemma slide_terms (F : Z → Z * Z → Z) b m b' :
  (∀ p, F 0 p = 0) →
  wellFormed b → m ∈ moves → applyMove b m = Some b' →
  ∃ x y tile,
    blankPosition b = Some (x, y) ∧
    cell b (x + m.1) (y + m.2) = Some tile ∧ 1 ≤ tile ≤ 8 ∧
    sumZ (tileTerm F b' <$> 0 :: tiles) =
    sumZ (tileTerm F b <$> 0 :: tiles)
      + F tile (x, y) - F tile (x + m.1, y + m.2).
Proof.
  intros HF0 Hwf Hm Ha.
  pose proof (applyMove_wellFormed _ _ _ Hwf Ha) as Hwf'.
  pose proof (wellFormed_shape3 _ Hwf) as Hb.
  destruct (applyMove_Some _ _ _ Ha) as (x & y & tile & Hbl & Htile & _).
  pose proof (applyMove_swapped b m b' x y Hb Hm Hbl Ha) as Hsw.
  pose proof (blankPosition_Some _ _ _ Hbl) as [Hxy Hzero].
  assert (Hrange : 0 ≤ tile ≤ 8).
  { apply (wellFormed_range b tile Hwf).
    rewrite cell_flat in Htile
      by eauto using cell_Some_inBounds. by eapply list_elem_of_lookup_2. }
  assert (Hne : tile ≠ 0).
  { intros ->. assert ((x, y) = (x + m.1, y + m.2)) as [= ? ?]
      by eauto using cell_unique.
    apply moves_odd in Hm. lia. }
  assert (Hpos : tilePosition b tile = Some (x + m.1, y + m.2))
    by eauto using tilePosition_cell.
  assert (Hpos' : tilePosition b' tile = Some (x, y)).
  { apply tilePosition_cell; [done|]. rewrite Hsw. by rewrite decide_True. }
  exists x, y, tile. split_and!; [done|done|lia|lia|].
  rewrite (sumZ_single (tileTerm F b') (tileTerm F b) tile (0 :: tiles)).
  - unfold tileTerm. rewrite Hpos, Hpos'. lia.
  - apply (NoDup_seqZ 0 9).
  - unfold tiles. rewrite !elem_of_cons. lia.
  - intros v Hv Hvt.
    assert (Hv8 : 0 ≤ v ≤ 8).
    { unfold tiles in Hv. rewrite !elem_of_cons, elem_of_nil in Hv. lia. }
    unfold tileTerm. destruct (decide (v = 0)) as [->|Hv0].
    { destruct (tilePosition b' 0), (tilePosition b 0);
        by rewrite ?HF0. }
    destruct (tilePosition_wf b v Hwf Hv8) as (i & j & Hp & Hij & Hc).
    rewrite Hp. rewrite (tilePosition_cell b' i j v); [done|done|].
    rewrite Hsw. rewrite !decide_False; [done| |].
    + intros [= -> ->]. congruence.
    + intros [= -> ->]. congruence.
Qed.

Lemma misplaced_blank p : misplaced 0 p = 0.
Proof. unfold misplaced. rewrite decide_False; [done|]. tauto. Qed.

Lemma gridDistance_step t x y m :
  t ≠ 0 → m ∈ moves →
  Z.abs (gridDistance t (x, y) - gridDistance t (x + m.1, y + m.2)) = 1.
Proof.
  intros Ht Hm. unfold gridDistance. rewrite !decide_True by done.
  generalize (goalCell t). intros [gx gy]. cbn [fst snd].
  unfold moves in Hm. rewrite !elem_of_cons, elem_of_nil in Hm.
  destruct Hm as [->|[->|[->|[->|[]]]]]; cbn [fst snd]; lia.
Qed.

Lemma misplaced_step t p q : Z.abs (misplaced t p - misplaced t q) ≤ 1.
Proof. unfold misplaced. repeat case_decide; lia. Qed.

Lemma manhattanSum_slide b m b' :
  wellFormed b → m ∈ moves → applyMove b m = Some b' →
  Z.abs (manhattanSum b' - manhattanSum b) = 1.
Proof.
  intros Hwf Hm Ha.
  pose proof (applyMove_wellFormed _ _ _ Hwf Ha) as Hwf'.
  destruct (slide_terms gridDistance b m b' gridDistance_blank Hwf Hm Ha)
    as (x & y & tile & _ & _ & Ht & Hsum).
  rewrite !manhattanSum_sum, Hsum by done.
  pose proof (gridDistance_step tile x y m ltac:(lia) Hm). lia.
Qed.

Lemma misplacedTiles_slide b m b' :
  wellFormed b → m ∈ moves → applyMove b m = Some b' →
  Z.abs (misplacedTiles b' - misplacedTiles b) ≤ 1.
Proof.
  intros Hwf Hm Ha.
  pose proof (applyMove_wellFormed _ _ _ Hwf Ha) as Hwf'.
  destruct (slide_terms misplaced b m b' misplaced_blank Hwf Hm Ha)
    as (x & y & tile & _ & _ & Ht & Hsum).
  rewrite !misplacedTiles_sum, Hsum by done.
  pose proof (misplaced_step tile (x, y) (x + m.1, y + m.2)). lia.
Qed.

(** X10: Expanding a state changes the Manhattan distance by exactly one and
    the Hamming distance by at most one, for every neighbor. *)
Theorem slide_changes_heuristics s neighbors n :
  wellFormed (board s) → getNeighbors s = Some neighbors → n ∈ neighbors →
  ∃ hs hn ds dn,
    hammingDistance s = Some hs ∧ hammingDistance n = Some hn ∧
    manhattanDistance s = Some ds ∧ manhattanDistance n = Some dn ∧
    Z.abs (hn - hs) ≤ 1 ∧ Z.abs (dn - ds) = 1.
Proof.
  intros Hwf Hns Hn.
  apply (getNeighbors_elem_of s neighbors Hwf Hns) in Hn
    as (m & b' & Hm & Ha & ->).
  pose proof (applyMove_wellFormed _ _ _ Hwf Ha) as Hwf'.
  exists (misplacedTiles (board s)), (misplacedTiles b'),
    (manhattanSum (board s)), (manhattanSum b').
  split_and!; eauto using hammingDistance_spec, manhattanDistance_spec,
    misplacedTiles_slide, manhattanSum_slide.
Qed.

Lemma slide_changes_heuristics_witness :
  ∃ hs hn ds dn,
    hammingDistance nearGoal = Some hs ∧
    hammingDistance (new_PuzzleState goalBoard (Some nearGoal) (Some (1, 0)))
      = Some hn ∧
    manhattanDistance nearGoal = Some ds ∧
    manhattanDistance (new_PuzzleState goalBoard (Some nearGoal) (Some (1, 0)))
      = Some dn ∧
    Z.abs (hn - hs) ≤ 1 ∧ Z.abs (dn - ds) = 1.
Proof.
  apply (slide_changes_heuristics nearGoal
           (default [] (getNeighbors nearGoal))).
  - apply (bool_decide_eq_true_1 (wellFormed _)). vm_compute. reflexivity.
  - vm_compute. reflexivity.
  - vm_compute. apply list_elem_of_here.
Defined.

(** X11: Both heuristics are admissible: neither exceeds the number of moves of
    any solution of the board. *)
Theorem heuristics_admissible s ms :
  wellFormed (board s) → solution (board s) ms →
  ∃ a b, hammingDistance s = Some a ∧ manhattanDistance s = Some b ∧
         a ≤ b ≤ Z.of_nat (length ms).
Proof.
  intros Hwf [Hms Happ].
  exists (misplacedTiles (board s)), (manhattanSum (board s)).
  split_and!; auto using hammingDistance_spec, manhattanDistance_spec,
    misplacedTiles_le_manhattanSum.
  pose proof (consistent_path manhattanSum manhattanSum_consistent
                (board s) ms goalBoard Hwf Hms Happ) as Hpath.
  change (manhattanSum goalBoard) with 0 in Hpath. lia.
Qed.

Lemma heuristics_admissible_witness :
  ∃ a b, hammingDistance (new_PuzzleState detourBoard None None) = Some a ∧
         manhattanDistance (new_PuzzleState detourBoard None None) = Some b ∧
         a ≤ b ≤ Z.of_nat (length direct).
Proof.
  apply (heuristics_admissible (new_PuzzleState detourBoard None None) direct).
  - apply (bool_decide_eq_true_1 (wellFormed _)). vm_compute. reflexivity.
  - apply (bool_decide_eq_true_1 (solution _ _)). vm_compute. reflexivity.
Defined.

(** ** [aStar] with [hammingDistance] *)

Lemma misplacedTiles_consistent b m b' :
  wellFormed b → m ∈ moves → applyMove b m = Some b' →
  misplacedTiles b ≤ 1 + misplacedTiles b'.
Proof. intros Hwf Hm Ha. pose proof (misplacedTiles_slide b m b' Hwf Hm Ha). lia. Qed.

Lemma astar_selected_shortest b name fuel path :
  wellFormed b →
  aStar fuel (new_PuzzleState b None None) (selectHeuristic name)
    = Some (Found path) →
  ∃ ms, path = Some <$> ms ∧ solution b ms ∧
        ∀ ms', solution b ms' → (length ms ≤ length ms')%nat.
Proof.
  intros Hwf Hrun. unfold selectHeuristic in Hrun. case_decide.
  - apply (astar_shortest hammingDistance misplacedTiles
             hammingDistance_spec misplacedTiles_consistent b fuel path
             Hwf Hrun).
  - apply (astar_shortest manhattanDistance manhattanSum
             manhattanDistance_spec manhattanSum_consistent b fuel path
             Hwf Hrun).
Qed.

(** X12: The Hamming distance is consistent too, so [aStar] returns a shortest
    solution with either heuristic the handler can select. *)
Theorem astar_shortest_any_heuristic b name :
  wellFormed b → solvable b →
  ∃ fuel ms,
    aStar fuel (new_PuzzleState b None None) (selectHeuristic name)
      = Some (Found (Some <$> ms)) ∧
    shortest b ms.
Proof.
  intros Hwf Hsol.
  destruct (informed_decides f (scoreF (selectHeuristic name))
              (scoreF_scoring _)
              (scoreF_total _ (selectHeuristic_total name)) b Hwf)
    as (fuel & o & Hrun & Hd).
  destruct Hd as [[_ ?]|(path & -> & _)]; [done|].
  rewrite <- (run_ext _ _ _ _ (aStar_informed _)) in Hrun.
  fold (aStar fuel (new_PuzzleState b None None) (selectHeuristic name))
    in Hrun.
  destruct (astar_selected_shortest b name fuel path Hwf Hrun)
    as (ms & -> & ? & ?).
  by exists fuel, ms.
Qed.

Lemma astar_shortest_any_heuristic_witness :
  ∃ fuel ms,
    aStar fuel (new_PuzzleState detourBoard None None)
      (selectHeuristic "hamming") = Some (Found (Some <$> ms)) ∧
    shortest detourBoard ms.
Proof.
  apply (astar_shortest_any_heuristic detourBoard "hamming").
  - apply (bool_decide_eq_true_1 (wellFormed _)). vm_compute. reflexivity.
  - exists direct.
    apply (bool_decide_eq_true_1 (solution _ _)). vm_compute. reflexivity.
Defined.

(** ** The frontier of [bfs] is in level order *)

(** X13: At the head of the loop the frontier of [bfs] is ascending in [g] and
    spans at most two consecutive depths: states are popped level by
    level. *)
Theorem bfs_level_order b c :
  wellFormed b →
  reachable bfs_iteration (start (new_PuzzleState b None None)) c →
  ascending g (frontier c) ∧
  ∀ s rest t, frontier c = s :: rest → t ∈ rest → g s ≤ g t ≤ g s + 1.
Proof.
  intros Hwf Hc. set (root := new_PuzzleState b None None) in *.
  assert (Hinv : bfs_inv root c ∧ bfs_levels root c).
  { eapply (reachable_invariant bfs_iteration
              (λ c, bfs_inv root c ∧ bfs_levels root c)); [| |exact Hc].
    - intros c1 c2 [Hinv Hlev] Hit. split.
      + by apply (bfs_inv_step root c1 c2).
      + by apply (bfs_levels_step root c1 c2).
    - split; [apply bfs_inv_start|by apply bfs_levels_start]. }
  destruct Hinv as [_ (Hasc & Hspan & _)]. split; [done|].
  intros s rest t Hfr Ht. split; [|by eapply Hspan].
  rewrite Hfr in Hasc. apply ascending_head in Hasc.
  rewrite Forall_forall in Hasc. by apply Hasc.
Qed.

(** The configuration of [bfs] on [detourBoard] after three passes. *)
Definition thirdPass : Config :=
  default (start (new_PuzzleState detourBoard None None))
    (iterate bfs_iteration 3 (start (new_PuzzleState detourBoard None None))).

Lemma bfs_level_order_witness :
  ascending g (frontier thirdPass) ∧
  ∀ s rest t, frontier thirdPass = s :: rest → t ∈ rest →
    g s ≤ g t ≤ g s + 1.
Proof.
  apply (bfs_level_order detourBoard).
  - apply (bool_decide_eq_true_1 (wellFormed _)). vm_compute. reflexivity.
  - apply (iterate_reachable bfs_iteration 3). vm_compute. reflexivity.
Defined.

(** ** The scores of the frontier states *)

Lemma informed_scored key score (P : PuzzleState → Prop) root c :
  (∀ n n', score n = Some n' → P n') →
  reachable (informed_iteration key score) (start root) c →
  Forall (λ t, t = root ∨ P t) (frontier c).
Proof.
  intros HP.
  apply (reachable_invariant (informed_iteration key score)
           (λ c, Forall (λ t, t = root ∨ P t) (frontier c))).
  - intros c1 c2 HF
      (state & rest & neighbors & scored & Hfr & _ & _ & Hsc & ->)
      %informed_iteration_inr.
    rewrite Hfr in HF. apply Forall_cons in HF as [_ Hrest]. simpl.
    apply Forall_forall. intros t [Ht|Ht]%elem_of_foldl_insertBy.
    + by eapply Forall_forall in Hrest.
    + destruct (mapM_elem_of _ _ _ _ Hsc Ht) as (n & _ & Hn). right. eauto.
  - repeat constructor.
Qed.

Lemma selectHeuristic_board name s s' :
  board s = board s' → selectHeuristic name s = selectHeuristic name s'.
Proof.
  intros Hb. unfold selectHeuristic.
  case_decide; [unfold hammingDistance|unfold manhattanDistance];
    by rewrite Hb.
Qed.

(** X14: Every state in the frontier of an informed driver, the initial state
    apart, carries in [h] the value of the selected heuristic on its board;
    in [aStar] its [f] is [g + h].  The initial state is never scored. *)
Theorem frontier_scores initialState name :
  (∀ c t,
     reachable (bestFirst_iteration (selectHeuristic name))
       (start initialState) c →
     t ∈ frontier c →
     t = initialState ∨ selectHeuristic name t = Some (h t)) ∧
  (∀ c t,
     reachable (aStar_iteration (selectHeuristic name))
       (start initialState) c →
     t ∈ frontier c →
     t = initialState ∨
     (selectHeuristic name t = Some (h t) ∧ f t = g t + h t)).
Proof.
  split.
  - intros c t Hc Ht.
    apply (reachable_ext _ _ _ _ (bestFirst_informed _)) in Hc.
    eapply (informed_scored h _
              (λ t, selectHeuristic name t = Some (h t))) in Hc.
    + rewrite Forall_forall in Hc. by apply Hc.
    + intros n n'. unfold scoreH.
      destruct (selectHeuristic name n) as [v|] eqn:Hv; [|done].
      intros [= <-]. simpl. rewrite <- Hv. by apply selectHeuristic_board.
  - intros c t Hc Ht.
    apply (reachable_ext _ _ _ _ (aStar_informed _)) in Hc.
    eapply (informed_scored f _
              (λ t, selectHeuristic name t = Some (h t) ∧
                    f t = g t + h t)) in Hc.
    + rewrite Forall_forall in Hc. by apply Hc.
    + intros n n'. unfold scoreF.
      destruct (selectHeuristic name n) as [v|] eqn:Hv; [|done].
      intros [= <-]. simpl. split; [|done].
      rewrite <- Hv. by apply selectHeuristic_board.
Qed.

(** ** Successor generation keeps the parity class *)

(** X15: Every neighbor of a well-formed board lies in the parity class of the
    board: successor generation never changes the inversion parity of the
    tiles. *)
Theorem neighbors_keep_parity s neighbors n :
  wellFormed (board s) → getNeighbors s = Some neighbors → n ∈ neighbors →
  inversionParity (board n) = inversionParity (board s).
Proof.
  intros Hwf Hns Hn.
  apply (getNeighbors_elem_of s neighbors Hwf Hns) in Hn
    as (m & b' & Hm & Ha & ->).
  by apply (applyMove_parity (board s) m b').
Qed.

Lemma neighbors_keep_parity_witness :
  inversionParity
    (board (new_PuzzleState goalBoard (Some nearGoal) (Some (1, 0))))
  = inversionParity (board nearGoal).
Proof.
  apply (neighbors_keep_parity nearGoal (default [] (getNeighbors nearGoal))).
  - apply (bool_decide_eq_true_1 (wellFormed _)). vm_compute. reflexivity.
  - vm_compute. reflexivity.
  - vm_compute. apply list_elem_of_here.
Defined.

(** ** Sliding back, on an example *)

Lemma neighbors_include_parent_witness :
  ∃ n, n ∈ default [] (getNeighbors grandchild) ∧
       board n = [[1; 2; 3]; [4; 5; 6]; [7; 8; 0]].
Proof.
  apply (neighbors_include_parent grandchild
           (new_PuzzleState [[1; 2; 3]; [4; 5; 6]; [7; 8; 0]]
              (Some nearGoal) (Some (1, 0)))
           (default [] (getNeighbors grandchild))).
  - apply generated_grandchild.
  - reflexivity.
  - vm_compute. reflexivity.
Defined.

(** ** Siblings *)

Lemma NoDup_fmap_reflect {A B C} (f : A → B) (k : A → C) (l : list A) :
  NoDup (f <$> l) →
  (∀ x y, x ∈ l → y ∈ l → k x = k y → f x = f y) →
  NoDup (k <$> l).
Proof.
  induction l as [|x l IH]; intros Hnd Hfk; [constructor|].
  rewrite fmap_cons in Hnd. rewrite fmap_cons.
  apply NoDup_cons in Hnd as [Hx Hnd].
  apply NoDup_cons. split.
  - intros (y & Hxy & Hy)%list_elem_of_fmap. apply Hx.
    apply list_elem_of_fmap. exists y. split; [|done].
    apply Hfk; [by left|by right|done].
  - apply IH; [done|]. intros y z Hy Hz. apply Hfk; by right.
Qed.

(** X16: The neighbors of a well-formed board have pairwise distinct boards,
    none of them the board that was expanded: inside one expansion the
    drivers never meet the same identity twice. *)
Theorem neighbors_distinct s neighbors :
  wellFormed (board s) → getNeighbors s = Some neighbors →
  NoDup (getId <$> neighbors) ∧ getId s ∉ getId <$> neighbors.
Proof.
  intros Hwf Hns. pose proof (wellFormed_shape3 _ Hwf) as Hb.
  destruct (blankPosition_wf _ Hwf) as (x & y & Hbl).
  assert (Hblank : ∀ n, n ∈ neighbors →
            wellFormed (board n) ∧
            ∃ m, m ∈ moves ∧ move n = Some m ∧
                 blankPosition (board n) = Some (x + m.1, y + m.2)).
  { intros n (m & b' & Hm & Ha & ->)
      %(getNeighbors_elem_of s neighbors Hwf Hns).
    split; [by eapply applyMove_wellFormed|].
    exists m. split_and!; [done..|]. by apply (applyMove_blank (board s)). }
  split.
  - apply (NoDup_fmap_reflect move).
    + assert (neighbors = omap (child s) moves) as ->
        by (rewrite getNeighbors_wf in Hns by done; congruence).
      rewrite (children_moves s x y) by done.
      apply (NoDup_fmap_2 _), NoDup_filter.
      unfold moves. repeat (apply NoDup_cons; split; [set_solver|]).
      constructor.
    + intros n1 n2 Hn1 Hn2 Hid.
      destruct (Hblank n1 Hn1) as (Hwf1 & m1 & _ & Hm1 & Hbl1).
      destruct (Hblank n2 Hn2) as (Hwf2 & m2 & _ & Hm2 & Hbl2).
      rewrite !getId_boardId in Hid.
      apply boardId_inj in Hid; [|done..]. rewrite Hid, Hbl2 in Hbl1.
      rewrite Hm1, Hm2. f_equal. destruct m1, m2. simpl in Hbl1.
      injection Hbl1 as ? ?. f_equal; lia.
  - intros (n & Hid & Hn)%list_elem_of_fmap.
    destruct (Hblank n Hn) as (Hwfn & m & Hm & _ & Hbln).
    rewrite !getId_boardId in Hid.
    apply boardId_inj in Hid; [|done..]. rewrite <- Hid, Hbl in Hbln.
    injection Hbln as ? ?. apply moves_odd in Hm. lia.
Qed.

Lemma neighbors_distinct_witness :
  NoDup (getId <$> default [] (getNeighbors nearGoal)) ∧
  getId nearGoal ∉ getId <$> default [] (getNeighbors nearGoal).
Proof.
  apply (neighbors_distinct nearGoal).
  - apply (bool_decide_eq_true_1 (wellFormed _)). vm_compute. reflexivity.
  - vm_compute. reflexivity.
Defined.

(** ** The drivers compared *)

(** X17: On one well-formed puzzle [bfs] and [aStar], with either heuristic,
    return move arrays of the same length, and [bestFirstSearch] never
    returns a shorter one. *)
Theorem drivers_agree_on_length b name name' fuel1 fuel2 fuel3 p1 p2 p3 :
  wellFormed b →
  bfs fuel1 (new_PuzzleState b None None) = Some (Found p1) →
  aStar fuel2 (new_PuzzleState b None None) (selectHeuristic name)
    = Some (Found p2) →
  bestFirstSearch fuel3 (new_PuzzleState b None None) (selectHeuristic name')
    = Some (Found p3) →
  length p1 = length p2 ∧ (length p1 ≤ length p3)%nat.
Proof.
  intros Hwf H1 H2 H3.
  destruct (bfs_shortest b fuel1 p1 Hwf H1) as (ms1 & -> & Hs1 & Hmin1).
  destruct (astar_selected_shortest b name fuel2 p2 Hwf H2)
    as (ms2 & -> & Hs2 & Hmin2).
  unfold bestFirstSearch in H3.
  rewrite (run_ext _ _ _ _ (bestFirst_informed _)) in H3.
  destruct (informed_found h (scoreH (selectHeuristic name')) b fuel3 p3
              (scoreH_scoring _) Hwf H3) as (ms3 & -> & Hs3).
  rewrite !length_fmap.
  pose proof (Hmin1 ms2 Hs2). pose proof (Hmin2 ms1 Hs1).
  pose proof (Hmin1 ms3 Hs3). lia.
Qed.

Lemma drivers_agree_on_length_witness :
  length [Some (1, 0)] = length [Some (1, 0)] ∧
  (length [Some (1, 0)] ≤ length [Some (1, 0)])%nat.
Proof.
  apply (drivers_agree_on_length (board nearGoal) "hamming" "manhattan"
           2 2 2 [Some (1, 0)] [Some (1, 0)] [Some (1, 0)]).
  - apply (bool_decide_eq_true_1 (wellFormed _)). vm_compute. reflexivity.
  - vm_compute. reflexivity.
  - vm_compute. reflexivity.
  - vm_compute. reflexivity.
Defined.
